(** * simplecalc: lexer, parser, semantic check, IR generation and driver

    A shallow embedding of the calculator: the lexer, the parser
    (Parser.cpp), the semantic check (Sema.cpp), the generator of LLVM IR and
    the driver, with the properties the design document states about them.

    Conventions of the embedding.
    - A [const char *] into the NUL-terminated input buffer is the suffix of
      the buffer it points at; [*p] is the first character of the suffix, or
      NUL when the suffix is empty; the difference of two such pointers is the
      difference of the suffix lengths.
    - A nullable pointer to a node or to an IR value is an [option].
    - What is written to [llvm::errs()] is kept as the list of the messages,
      in order.
    - The loops and the recursion of the parser take a fuel argument; running
      out of fuel is [None].  Totality is a theorem (enough fuel always gives
      a result), it is not assumed. *)

From Stdlib Require Import ZArith Ascii String List Bool Lia.
From stdpp Require Import base tactics option list strings pretty gmap.

Local Open Scope Z_scope.

(** The line feed ending every diagnostic. *)
Definition nl : string := String "010"%char EmptyString.

(** ** Lexer.h: tokens *)

Inductive TokenKind : Set :=
  | eoi | unknown | ident | number | comma | colon
  | plus | minus | star | slash | l_paren | r_paren | KW_with.

#[global] Instance TokenKind_eq_dec : EqDecision TokenKind.
Proof. solve_decision. Defined.

Record Token : Set := mkToken { Kind : TokenKind; Text : string }.

Definition getKind (T : Token) : TokenKind := Kind T.
Definition getText (T : Token) : string := Text T.
Definition isKind (T : Token) (K : TokenKind) : bool := bool_decide (Kind T = K).
Definition isOneOf (T : Token) (Ks : list TokenKind) : bool :=
  existsb (isKind T) Ks.

(** ** The lexer: [charinfo], [Lexer::next], [Lexer::formToken] *)

Module charinfo.

Definition isWhitespace (c : ascii) : bool :=
  Ascii.eqb c " " || Ascii.eqb c "009" || Ascii.eqb c "012"
  || Ascii.eqb c "011" || Ascii.eqb c "013" || Ascii.eqb c "010".

Definition isDigit (c : ascii) : bool :=
  Ascii.leb "0" c && Ascii.leb c "9".

Definition isLetter (c : ascii) : bool :=
  (Ascii.leb "a" c && Ascii.leb c "z") || (Ascii.leb "A" c && Ascii.leb c "Z").

End charinfo.

(** The lexer's only live field is the cursor [BufferPtr]. *)
Record Lexer : Set := mkLexer { BufferPtr : string }.

(** [*p]: the character under a pointer, NUL at the terminator. *)
Definition deref (p : string) : ascii :=
  match p with
  | EmptyString => zero
  | String c _ => c
  end.

(** [llvm::StringRef(p, n)]: the [n] characters from [p] on. *)
Definition StringRef (p : string) (n : nat) : string := String.substring 0 n p.

(** [formToken]: the token text runs from the cursor to [TokEnd]; the cursor
    moves to [TokEnd]. *)
Definition formToken (TokEnd : string) (K : TokenKind) (L : Lexer)
  : Token * Lexer :=
  (mkToken K (StringRef (BufferPtr L)
                (String.length (BufferPtr L) - String.length TokEnd)),
   mkLexer TokEnd).

(** The loop skipping white space: the cursor advances while it is on a
    character that is neither NUL nor outside [isWhitespace]. *)
Fixpoint skipWhitespace (p : string) : string :=
  match p with
  | EmptyString => p
  | String c p' =>
      if negb (Ascii.eqb c zero) && charinfo.isWhitespace c
      then skipWhitespace p' else p
  end.

(** The scanning loop of a run: [end] advances while the character under it
    is in the class [pred] (a class that excludes NUL). *)
Fixpoint scanWhile (pred : ascii -> bool) (p : string) : string :=
  match p with
  | EmptyString => p
  | String c p' => if pred c then scanWhile pred p' else p
  end.

(** [Lexer::next(Token &token)].  The token is passed by reference: at the end
    of input only its kind is written and its text stays what it was. *)
Definition next (token : Token) (L : Lexer) : Token * Lexer :=
  let p := skipWhitespace (BufferPtr L) in
  let L := mkLexer p in
  match p with
  | EmptyString => (mkToken eoi (Text token), L)
  | String c p1 =>
      if Ascii.eqb c zero then (mkToken eoi (Text token), L)
      else if charinfo.isLetter c then
        let e := scanWhile charinfo.isLetter p1 in
        let Name := StringRef p (String.length p - String.length e) in
        formToken e (if String.eqb Name "with" then KW_with else ident) L
      else if charinfo.isDigit c then
        formToken (scanWhile charinfo.isDigit p1) number L
      else
        formToken p1
          (if Ascii.eqb c "+" then plus
           else if Ascii.eqb c "-" then minus
           else if Ascii.eqb c "*" then star
           else if Ascii.eqb c "/" then slash
           else if Ascii.eqb c "(" then l_paren
           else if Ascii.eqb c ")" then r_paren
           else if Ascii.eqb c ":" then colon
           else if Ascii.eqb c "," then comma
           else unknown) L
  end.


(** ** AST.h *)

Inductive ValueKind : Set := Ident | Number.

Inductive Operator : Set := Plus | Minus | Mul | Div.

(** Modelled from the spec: the header AST.h declaring the node classes is not
    among the sources.  The nodes are the ones the design document lists and
    the parser constructs: [Factor(kind, text)] (a literal or an identifier),
    [BinaryOp(op, left, right)] and [WithDecl(names, body)].  A child is an
    owning pointer and may be null, which recovery after a syntax error
    produces and the semantic check tests for. *)
#[local] Unset Elimination Schemes.
Inductive Expr : Set :=
  | Factor (K : ValueKind) (Val : string)
  | BinaryOp (Op : Operator) (Left Right : option Expr).
#[local] Set Elimination Schemes.

(** Induction on a tree whose children may be null. *)
Fixpoint Expr_ind (Q : Expr -> Prop)
    (HF : forall K Val, Q (Factor K Val))
    (HB : forall Op Left Right,
        (forall L, Left = Some L -> Q L) ->
        (forall R, Right = Some R -> Q R) ->
        Q (BinaryOp Op Left Right))
    (E : Expr) {struct E} : Q E :=
  match E with
  | Factor K Val => HF K Val
  | BinaryOp Op Left Right =>
      HB Op Left Right
        (match Left return forall L, Left = Some L -> Q L with
         | Some L0 => fun L H =>
             match H in _ = o return match o with Some x => Q x | None => True end
             with eq_refl => Expr_ind Q HF HB L0 end
         | None => fun L H =>
             match H in _ = o return match o with Some x => Q x | None => True end
             with eq_refl => I end
         end)
        (match Right return forall R, Right = Some R -> Q R with
         | Some R0 => fun R H =>
             match H in _ = o return match o with Some x => Q x | None => True end
             with eq_refl => Expr_ind Q HF HB R0 end
         | None => fun R H =>
             match H in _ = o return match o with Some x => Q x | None => True end
             with eq_refl => I end
         end)
  end.

Inductive AST : Set :=
  | ExprAST (E : Expr)
  | WithDecl (Vars : list string) (E : option Expr).

(** The conversion of an [Expr *] to an [AST *]. *)
Definition toAST (E : option Expr) : option AST := ExprAST <$> E.

(** ** Parser.h and Parser.cpp *)

Module Parser.

Record t : Set := mk {
  Lex : Lexer;
  Tok : Token;
  HasError : bool;
  errs : list string
}.

Definition error (P : t) : t :=
  mk (Lex P) (Tok P) true (errs P ++ ["Unexpected: " +:+ getText (Tok P) +:+ nl]).

Definition advance (P : t) : t :=
  let '(T, L) := next (Tok P) (Lex P) in mk L T (HasError P) (errs P).

(** The constructor binds the lexer, clears the flag and reads the first
    token.  The token's kind is not initialised before that first
    [advance], which writes it on every path; its text starts empty. *)
Definition new (L : Lexer) : t :=
  advance (mk L (mkToken unknown "") false []).

Definition hasError (P : t) : bool := HasError P.

(** [expect] and [consume] return [true] on a mismatch. *)
Definition expect (K : TokenKind) (P : t) : bool * t :=
  if negb (isKind (Tok P) K) then (true, error P) else (false, P).

Definition consume (K : TokenKind) (P : t) : bool * t :=
  let '(e, P) := expect K P in
  if e then (true, P) else (false, advance P).

(** A loop [while (!stop(Tok)) advance();]. *)
Fixpoint skipUntil (fuel : nat) (stop : Token -> bool) (P : t) : option t :=
  if stop (Tok P) then Some P
  else match fuel with
       | O => None
       | S fuel => skipUntil fuel stop (advance P)
       end.

(** The tokens at which recovery inside a factor stops. *)
Definition atSync (T : Token) : bool :=
  isOneOf T [r_paren; star; plus; minus; slash; eoi].

(** The [default:] label of the switch in [parseFactor], reached by a token
    that starts no factor and by falling through from the parenthesis case
    when the closing parenthesis is missing. *)
Definition parseFactor_default (fuel : nat) (Res : option Expr) (P : t)
  : option (option Expr * t) :=
  let P := match Res with Some _ => P | None => error P end in
  P ← skipUntil fuel atSync P;
  Some (Res, P).

Fixpoint parseExpr (fuel : nat) (P : t) {struct fuel} : option (option Expr * t) :=
  match fuel with
  | O => None
  | S fuel =>
      '(Left, P) ← parseTerm fuel P;
      parseExpr_loop fuel Left P
  end
with parseExpr_loop (fuel : nat) (Left : option Expr) (P : t) {struct fuel}
  : option (option Expr * t) :=
  match fuel with
  | O => None
  | S fuel =>
      if isOneOf (Tok P) [plus; minus] then
        let Op := if isKind (Tok P) plus then Plus else Minus in
        let P := advance P in
        '(Right, P) ← parseTerm fuel P;
        parseExpr_loop fuel (Some (BinaryOp Op Left Right)) P
      else Some (Left, P)
  end
with parseTerm (fuel : nat) (P : t) {struct fuel} : option (option Expr * t) :=
  match fuel with
  | O => None
  | S fuel =>
      '(Left, P) ← parseFactor fuel P;
      parseTerm_loop fuel Left P
  end
with parseTerm_loop (fuel : nat) (Left : option Expr) (P : t) {struct fuel}
  : option (option Expr * t) :=
  match fuel with
  | O => None
  | S fuel =>
      if isOneOf (Tok P) [star; slash] then
        let Op := if isKind (Tok P) star then Mul else Div in
        let P := advance P in
        '(Right, P) ← parseFactor fuel P;
        parseTerm_loop fuel (Some (BinaryOp Op Left Right)) P
      else Some (Left, P)
  end
with parseFactor (fuel : nat) (P : t) {struct fuel} : option (option Expr * t) :=
  match fuel with
  | O => None
  | S fuel =>
      match getKind (Tok P) with
      | number =>
          Some (Some (Factor Number (getText (Tok P))), advance P)
      | ident =>
          Some (Some (Factor Ident (getText (Tok P))), advance P)
      | l_paren =>
          let P := advance P in
          '(Res, P) ← parseExpr fuel P;
          let '(e, P) := consume r_paren P in
          if negb e then Some (Res, P)
          else parseFactor_default fuel Res P
      | _ => parseFactor_default fuel None P
      end
  end.

(** The [_error:] label of [parseCalc]: drop what is left of the input. *)
Definition parseCalc_error (fuel : nat) (P : t) : option (option AST * t) :=
  P ← skipUntil fuel (fun T => bool_decide (getKind T = eoi)) P;
  Some (None, P).

(** The loop reading [, ident] pairs; [inl] is the jump to [_error]. *)
Fixpoint parseCalc_vars (fuel : nat) (Vars : list string) (P : t)
  : option (t + list string * t) :=
  match fuel with
  | O => None
  | S fuel =>
      if isKind (Tok P) comma then
        let P := advance P in
        let '(e, P) := expect ident P in
        if e then Some (inl P)
        else
          let Vars := Vars ++ [getText (Tok P)] in
          let P := advance P in
          parseCalc_vars fuel Vars P
      else Some (inr (Vars, P))
  end.

(** The part of [parseCalc] from the call of [parseExpr] on. *)
Definition parseCalc_body (fuel : nat) (Vars : list string) (P : t)
  : option (option AST * t) :=
  '(E, P) ← parseExpr fuel P;
  let '(e, P) := expect eoi P in
  if e then parseCalc_error fuel P
  else if bool_decide (Vars = []) then Some (toAST E, P)
  else Some (Some (WithDecl Vars E), P).

Definition parseCalc (fuel : nat) (P : t) : option (option AST * t) :=
  if isKind (Tok P) KW_with then
    let P := advance P in
    let '(e, P) := expect ident P in
    if e then parseCalc_error fuel P
    else
      let Vars := [getText (Tok P)] in
      let P := advance P in
      r ← parseCalc_vars fuel Vars P;
      match r with
      | inl P => parseCalc_error fuel P
      | inr (Vars, P) =>
          let '(e, P) := consume colon P in
          if e then parseCalc_error fuel P
          else parseCalc_body fuel Vars P
      end
  else parseCalc_body fuel [] P.

Definition parse_fuel (fuel : nat) (P : t) : option (option AST * t) :=
  '(Res, P) ← parseCalc fuel P;
  let '(_, P) := expect eoi P in
  Some (Res, P).

(** A bound on the calls of [advance] that can still form a token: one per
    character left in the buffer, and one for the current token unless it is
    the end of input. *)
Definition remaining (P : t) : nat :=
  String.length (BufferPtr (Lex P))
  + (if bool_decide (Kind (Tok P) = eoi) then 0 else 1)%nat.

(** Fuel that suffices for [parse_fuel] (lemma [parse_fuel_total]). *)
Definition enough (P : t) : nat := (4 * remaining P + 6)%nat.

(** [Parser::parse()] on a parser in state [P]. *)
Definition parse (P : t) : option (option AST * t) :=
  parse_fuel (enough P) P.

End Parser.

(** ** Sema.cpp *)

Module DeclCheck.

Inductive ErrorType : Set := Twice | Not.

Record t := mk {
  Scope : gset string;
  HasError : bool;
  errs : list string
}.

Definition new : t := mk ∅ false [].

Definition hasError (C : t) : bool := HasError C.

Definition message (ET : ErrorType) (V : string) : string :=
  "Variable " +:+ V +:+ " "
  +:+ (match ET with Twice => "already" | Not => "not" end)
  +:+ " declared" +:+ nl.

Definition error (ET : ErrorType) (V : string) (C : t) : t :=
  mk (Scope C) true (errs C ++ [message ET V]).

Definition setError (C : t) : t := mk (Scope C) true (errs C).

(** [visit(Factor &)] and [visit(BinaryOp &)], reached through [accept]. *)
Fixpoint visit_Expr (Node : Expr) (C : t) : t :=
  match Node with
  | Factor Ident Val =>
      if bool_decide (Val ∈ Scope C) then C else error Not Val C
  | Factor Number _ => C
  | BinaryOp _ Left Right =>
      let C := match Left with
               | Some L => visit_Expr L C
               | None => setError C
               end in
      match Right with
      | Some R => visit_Expr R C
      | None => setError C
      end
  end.

(** One turn of the loop over the declared names: [Scope.insert(Var)]
    reports whether the name was new. *)
Definition declare (C : t) (Var : string) : t :=
  if bool_decide (Var ∈ Scope C) then error Twice Var C
  else mk ({[Var]} ∪ Scope C) (HasError C) (errs C).

Definition visit_WithDecl (Vars : list string) (E : option Expr) (C : t) : t :=
  let C := fold_left declare Vars C in
  match E with
  | Some E => visit_Expr E C
  | None => setError C
  end.

Definition accept (Tree : AST) (C : t) : t :=
  match Tree with
  | ExprAST E => visit_Expr E C
  | WithDecl Vars E => visit_WithDecl Vars E C
  end.

End DeclCheck.

Module Sema.

(** [Sema::semantic]: the returned flag, and what was written to the error
    stream. *)
Definition semantic (Tree : option AST) : bool * list string :=
  match Tree with
  | None => (false, [])
  | Some Tree =>
      let Check := DeclCheck.accept Tree DeclCheck.new in
      (DeclCheck.hasError Check, DeclCheck.errs Check)
  end.

End Sema.

(** ** The code generator: [ToIRVisitor], [CodeGen::compile] *)

(** The part of the IR the generator builds.  An instruction is also a value:
    as an operand it is named by its position in the block it was inserted
    in.  Operands are pointers and may be null.

    The generator reaches the IR through [IRBuilder<>], whose folder is the
    default [ConstantFolder]: a [Create...] request on two constants is
    computed while generating and yields a constant, and no instruction is
    inserted; any other request inserts the instruction.  A constant is an
    integer ([ConstantInt]; its value is [None] when it was made from an
    [int] that was never written) or the poison constant the folder returns
    for a division it cannot compute. *)
Inductive IRType : Set := VoidTy | Int32Ty | PtrTy.

Record FunctionType : Set := mkFunctionType {
  Result : IRType;
  Params : list IRType
}.

Inductive Value : Set :=
  | ConstantInt (v : option Z)
  | PoisonValue
  | GlobalVariable (Name : string) (isConstant : bool) (Initializer : string)
  | Instruction (n : nat).

Inductive BinaryOps : Set := Add | Sub | IMul | SDiv.

Inductive Instr : Set :=
  | BinaryOperator (Opc : BinaryOps) (HasNSW : bool) (LHS RHS : option Value)
  | CallInst (Callee : string) (Args : list (option Value))
  | ReturnInst (RetVal : option Value).

(** The module: the functions in the order of their creation, the global
    variables, and the body of the only block, [entry] of [main]. *)
Record Module : Set := mkModule {
  Functions : list (string * FunctionType);
  Globals : list Value;
  entry : list Instr
}.

(** [StringRef::getAsInteger(10, int &)] of LLVM: an optional minus sign and a
    non-empty run of decimal digits whose value fits an [int] are converted;
    anything else is a failure, which leaves the result variable untouched.
    [None] is that failure. *)
Fixpoint digitsValue (s : string) (acc : Z) : option Z :=
  match s with
  | EmptyString => Some acc
  | String c s =>
      if charinfo.isDigit c
      then digitsValue s (10 * acc + (Z.of_N (N_of_ascii c) - 48))
      else None
  end.

Definition getAsInteger (s : string) : option Z :=
  let '(neg, body) :=
    match s with
    | String "-"%char r => (true, r)
    | _ => (false, s)
    end in
  match body with
  | EmptyString => None
  | _ =>
      v ← digitsValue body 0;
      let v := if neg : bool then - v else v in
      if (- 2 ^ 31 <=? v) && (v <? 2 ^ 31) then Some v else None
  end.

(** [ConstantDataArray::getString]: the characters and a closing NUL. *)
Definition getString (s : string) : string := s +:+ String zero EmptyString.

(** The 32-bit integers, and the two's-complement value of the low 32 bits
    of an integer. *)
Definition fitsInt32 (z : Z) : bool := (- 2 ^ 31 <=? z) && (z <? 2 ^ 31).

Definition wrapInt32 (z : Z) : Z := (z + 2 ^ 31) mod 2 ^ 32 - 2 ^ 31.

(** What [ConstantFolder] makes of an operation on two integer constants
    (LLVM's [ConstantFoldBinaryInstruction]): the sum, difference or product
    is cut to 32 bits, whatever the no-signed-wrap flag of the request; a
    quotient by zero, and the one quotient that does not fit, is the poison
    constant, any other quotient is rounded towards zero.  An operand of
    unknown value gives an unknown result. *)
Definition foldInt (Opc : BinaryOps) (a b : option Z) : Value :=
  match Opc with
  | SDiv =>
      match b with
      | Some 0 => PoisonValue
      | _ =>
          match a, b with
          | Some a, Some b =>
              if (a =? - 2 ^ 31) && (b =? -1) then PoisonValue
              else ConstantInt (Some (a ÷ b))
          | _, _ => ConstantInt None
          end
      end
  | _ =>
      match a, b with
      | Some a, Some b =>
          ConstantInt (Some (wrapInt32 match Opc with
                                       | Add => a + b
                                       | Sub => a - b
                                       | _ => a * b
                                       end))
      | _, _ => ConstantInt None
      end
  end.

(** The constants the folder computes with.  (A global variable is a
    constant of LLVM too, but it is a pointer; the generator never makes it
    the operand of an operator.) *)
Definition foldable (v : Value) : bool :=
  match v with
  | ConstantInt _ | PoisonValue => true
  | _ => false
  end.

(** An operation on two such constants: poison in, poison out. *)
Definition foldBinary (Opc : BinaryOps) (l r : Value) : Value :=
  match l, r with
  | ConstantInt a, ConstantInt b => foldInt Opc a b
  | _, _ => PoisonValue
  end.

Module ToIRVisitor.

Record t := mk {
  M : Module;
  V : option Value;
  nameMap : gmap string (option Value)
}.

Definition Int32Zero : Value := ConstantInt (Some 0).

(** A visitor on an empty module.  [V] is not initialised by the
    constructor; every visit writes it before [run] reads it. *)
Definition new : t := mk (mkModule [] [] []) None ∅.

Definition createFunction (Name : string) (Ty : FunctionType) (St : t) : t :=
  mk (mkModule (Functions (M St) ++ [(Name, Ty)]) (Globals (M St)) (entry (M St)))
     (V St) (nameMap St).

Definition createGlobal (G : Value) (St : t) : t :=
  mk (mkModule (Functions (M St)) (Globals (M St) ++ [G]) (entry (M St)))
     (V St) (nameMap St).

(** The builder inserts at the end of [entry] and returns the instruction. *)
Definition insert (Inst : Instr) (St : t) : Value * t :=
  (Instruction (length (entry (M St))),
   mk (mkModule (Functions (M St)) (Globals (M St)) (entry (M St) ++ [Inst]))
      (V St) (nameMap St)).

Definition setV (v : option Value) (St : t) : t := mk (M St) v (nameMap St).

(** [nameMap[Key]] read: a missing key is inserted with a null value. *)
Definition lookupOrInsert (Key : string) (St : t) : option Value * t :=
  match nameMap St !! Key with
  | Some v => (v, St)
  | None => (None, mk (M St) (V St) (<[Key := None]> (nameMap St)))
  end.

(** [nameMap[Key] = v]. *)
Definition assign (Key : string) (v : option Value) (St : t) : t :=
  mk (M St) (V St) (<[Key := v]> (nameMap St)).

(** The builder call each operator selects: the operation, and whether the
    request is the no-signed-wrap one. *)
Definition opcode (Op : Operator) : BinaryOps * bool :=
  match Op with
  | Plus => (Add, true)
  | Minus => (Sub, true)
  | Mul => (IMul, true)
  | Div => (SDiv, false)
  end.

(** The instruction such a call asks for. *)
Definition lower (Op : Operator) (Left Right : option Value) : Instr :=
  BinaryOperator (opcode Op).1 (opcode Op).2 Left Right.

(** [Builder.CreateNSWAdd(Left, Right)] and its three siblings.  The builder
    first asks its folder, which looks at both operands: a null operand is
    dereferenced there ([None]).  Two constants are folded and nothing is
    inserted; otherwise the instruction is inserted at the end of the
    block. *)
Definition create (Op : Operator) (Left Right : option Value) (St : t)
  : option (Value * t) :=
  l ← Left;
  r ← Right;
  if foldable l && foldable r
  then Some (foldBinary (opcode Op).1 l r, St)
  else Some (insert (lower Op (Some l) (Some r)) St).

(** [visit(Factor &)] and [visit(BinaryOp &)].  [None] is the dereference
    of a null pointer: a null child, or a null operand handed to the
    builder. *)
Fixpoint visit_Expr (Node : Expr) (St : t) : option t :=
  match Node with
  | Factor Ident Val =>
      let '(v, St) := lookupOrInsert Val St in
      Some (setV v St)
  | Factor Number Val =>
      let intval := getAsInteger Val in
      Some (setV (Some (ConstantInt intval)) St)
  | BinaryOp Op L R =>
      L ← L;
      St ← visit_Expr L St;
      let Left := V St in
      R ← R;
      St ← visit_Expr R St;
      let Right := V St in
      '(v, St) ← create Op Left Right St;
      Some (setV (Some v) St)
  end.

(** The names of the module's symbol table. *)
Definition globalName (G : Value) : string :=
  match G with
  | GlobalVariable Name _ _ => Name
  | _ => ""
  end.

Definition names (Mo : Module) : list string :=
  (fst <$> Functions Mo) ++ (globalName <$> Globals Mo).

(** The name a new global variable gets.  The symbol table of the module
    keeps its names apart: a name that is taken is followed by a dot and the
    next number of the table's counter [LastUnique]. *)
Definition uniqueName (Name : string) (Mo : Module) (LastUnique : nat)
  : string * nat :=
  if bool_decide (Name ∈ names Mo)
  then (Name +:+ "." +:+ pretty (S LastUnique), S LastUnique)
  else (Name, LastUnique).

(** One turn of the loop over the declared names; the state is the visitor
    and the counter of the symbol table. *)
Definition readVar (S0 : t * nat) (Var : string) : t * nat :=
  let St := S0.1 in
  let '(Name, LastUnique) := uniqueName (Var +:+ ".str") (M St) S0.2 in
  let Str := GlobalVariable Name true (getString Var) in
  let St := createGlobal Str St in
  let '(Call, St) := insert (CallInst "calc_read" [Some Str]) St in
  (assign Var (Some Call) St, LastUnique).

(** No name of the module needed a number before the loop. *)
Definition visit_WithDecl (Vars : list string) (E : option Expr) (St : t)
  : option t :=
  let St := createFunction "calc_read" (mkFunctionType Int32Ty [PtrTy]) St in
  let St := (fold_left readVar Vars (St, 0%nat)).1 in
  E ← E;
  visit_Expr E St.

Definition accept (Tree : AST) (St : t) : option t :=
  match Tree with
  | ExprAST E => visit_Expr E St
  | WithDecl Vars E => visit_WithDecl Vars E St
  end.

Definition run (Tree : option AST) (St : t) : option t :=
  let St := createFunction "main" (mkFunctionType Int32Ty [Int32Ty; PtrTy]) St in
  Tree ← Tree;
  St ← accept Tree St;
  let St := createFunction "calc_write" (mkFunctionType VoidTy [Int32Ty]) St in
  let '(_, St) := insert (CallInst "calc_write" [V St]) St in
  let '(_, St) := insert (ReturnInst (Some Int32Zero)) St in
  Some St.

End ToIRVisitor.

Module CodeGen.

(** [CodeGen::compile]: the module that is printed. *)
Definition compile (Tree : option AST) : option Module :=
  ToIRVisitor.M <$> ToIRVisitor.run Tree ToIRVisitor.new.

End CodeGen.

(** ** The driver: [main] *)

(** What one run of the tool leaves behind: the exit status, the lines on the
    error stream and, when code was generated, the printed module. *)
Record Run : Set := mkRun {
  status : Z;
  diagnostics : list string;
  output : option Module
}.

Definition main (Input : string) : option Run :=
  let Lex := mkLexer Input in
  let P := Parser.new Lex in
  '(Tree, P) ← Parser.parse P;
  if negb (bool_decide (is_Some Tree)) || Parser.hasError P then
    Some (mkRun 1 (Parser.errs P ++ ["Syntax errors occured" +:+ nl]) None)
  else
    let '(failed, errs) := Sema.semantic Tree in
    if failed then
      Some (mkRun 1 (Parser.errs P ++ errs ++ ["Semantic errors occured" +:+ nl]) None)
    else
      Mo ← CodeGen.compile Tree;
      Some (mkRun 0 (Parser.errs P ++ errs) (Some Mo)).

(** ** What the emitted unit computes

    The generated [main] is one block of the instructions above.  Their
    meaning is LLVM's: an [add], [sub] or [mul] flagged no-signed-wrap has the
    exact result when that fits 32 bits and a poison value otherwise; [sdiv]
    rounds towards zero and is undefined for a zero divisor and for the one
    quotient that does not fit.  The two routines the unit declares are
    those of the runtime file.  The unit hands [calc_read] the address of
    the characters of the name; the routine takes the name as a
    [std::string] and uses it for its prompt only, so that what it returns
    does not depend on how the name reaches it: it reads one line and
    converts it with [std::stoi].  [calc_write] prints its argument.  The
    input is the list of the lines read; when none is left, the line read is
    empty.  A poison value is [None]. *)

(** [std::stoi(buf)]: [strtol] in base 10 skips white space, takes an
    optional sign and the longest run of digits, and ignores what follows.
    No digit there is [std::invalid_argument]; a value that is no [int] is
    [std::out_of_range]. *)
Inductive StoiResult : Set :=
  | Converted (z : Z)
  | InvalidArgument
  | OutOfRange.

Definition isspace (c : ascii) : bool :=
  match c with
  | " "%char | "009"%char | "010"%char | "011"%char | "012"%char
  | "013"%char => true
  | _ => false
  end.

(** The digits at the cursor: their value, or [None] when there is none. *)
Fixpoint strtolDigits (p : string) (acc : Z) (any : bool) : option Z :=
  match p with
  | String c p' =>
      if charinfo.isDigit c
      then strtolDigits p' (10 * acc + (Z.of_N (N_of_ascii c) - 48)) true
      else if any then Some acc else None
  | EmptyString => if any then Some acc else None
  end.

Definition stoi (str : string) : StoiResult :=
  let p := scanWhile isspace str in
  let '(neg, p) :=
    match p with
    | String "-"%char r => (true, r)
    | String "+"%char r => (false, r)
    | _ => (false, p)
    end in
  match strtolDigits p 0 false with
  | Some v =>
      let v := if neg : bool then - v else v in
      if fitsInt32 v then Converted v else OutOfRange
  | None => InvalidArgument
  end.

(** How a run of the unit ends: [main] returned or [exit] was called, with
    the status; the process was ended by [std::terminate] for an exception
    nobody caught; or the behaviour is undefined.  [written] are the values
    handed to [calc_write] before. *)
Inductive Outcome : Set :=
  | Exited (code : Z) (written : list (option Z))
  | Terminated (written : list (option Z))
  | Undefined.

(** The value of an operand; [None] for an operand that is no integer. *)
Definition operand (regs : list (option Z)) (v : option Value)
  : option (option Z) :=
  match v with
  | Some (ConstantInt c) => Some c
  | Some PoisonValue => Some None
  | Some (Instruction n) => regs !! n
  | Some (GlobalVariable _ _ _) => None
  | None => None
  end.

(** One arithmetic instruction; the outer [None] is undefined behaviour. *)
Definition arith (Opc : BinaryOps) (HasNSW : bool) (a b : option Z)
  : option (option Z) :=
  match Opc with
  | SDiv =>
      match b with
      | None => None
      | Some b =>
          if b =? 0 then None
          else match a with
               | None => Some None
               | Some a =>
                   if (a =? - 2 ^ 31) && (b =? -1) then None
                   else Some (Some (a ÷ b))
               end
      end
  | _ =>
      match a, b with
      | Some a, Some b =>
          let r := match Opc with
                   | Add => a + b
                   | Sub => a - b
                   | _ => a * b
                   end in
          if fitsInt32 r then Some (Some r)
          else if HasNSW then Some None
          else Some (Some (wrapInt32 r))
      | _, _ => Some None
      end
  end.

(** [calc_read] catches [std::invalid_argument] only, and then calls
    [exit(1)]. *)
Fixpoint exec (code : list Instr) (regs : list (option Z))
    (inputs : list string) (written : list (option Z)) : Outcome :=
  match code with
  | [] => Undefined
  | BinaryOperator Opc HasNSW LHS RHS :: code =>
      match operand regs LHS, operand regs RHS with
      | Some a, Some b =>
          match arith Opc HasNSW a b with
          | Some r => exec code (regs ++ [r]) inputs written
          | None => Undefined
          end
      | _, _ => Undefined
      end
  | CallInst Callee Args :: code =>
      if String.eqb Callee "calc_read" then
        match Args with
        | [Some (GlobalVariable _ _ _)] =>
            let buf := hd "" inputs in
            match stoi buf with
            | Converted val =>
                exec code (regs ++ [Some val]) (tl inputs) written
            | InvalidArgument => Exited 1 written
            | OutOfRange => Terminated written
            end
        | _ => Undefined
        end
      else if String.eqb Callee "calc_write" then
        match Args with
        | [v] =>
            match operand regs v with
            | Some x => exec code (regs ++ [None]) inputs (written ++ [x])
            | None => Undefined
            end
        | _ => Undefined
        end
      else Undefined
  | ReturnInst RetVal :: _ =>
      match operand regs RetVal with
      | Some (Some z) => Exited z written
      | _ => Undefined
      end
  end.

(** Running the printed module on the given input lines. *)
Definition execute (Mo : Module) (inputs : list string) : Outcome :=
  exec (entry Mo) [] inputs [].

(** The whole tool chain on a source text: [None] when the tool rejects the
    text. *)
Definition evaluate (Input : string) (inputs : list string)
  : option Outcome :=
  r ← main Input;
  Mo ← output r;
  Some (execute Mo inputs).

(** ** Notions used to state the properties *)

(** Every character of [s] is in the class [pred]. *)
Fixpoint allChars (pred : ascii -> bool) (s : string) : bool :=
  match s with
  | EmptyString => true
  | String c s => pred c && allChars pred s
  end.

(** The characters the lexer maps to a punctuation token. *)
Definition punctuation : list (ascii * TokenKind) :=
  [("+"%char, plus); ("-"%char, minus); ("*"%char, star); ("/"%char, slash);
   ("("%char, l_paren); (")"%char, r_paren); (":"%char, colon);
   (","%char, comma)].


(** The operator a token stands for, at each of the two tiers. *)
Definition additive (T : Token) : option Operator :=
  match Kind T with
  | plus => Some Plus
  | minus => Some Minus
  | _ => None
  end.

Definition multiplicative (T : Token) : option Operator :=
  match Kind T with
  | star => Some Mul
  | slash => Some Div
  | _ => None
  end.

(** [operatorTail opOf operand P items P']: from state [P] on, the input is a
    sequence of operators of one tier, each followed by an operand, read up to
    the first token that is no operator of the tier; [items] lists the
    operators with their operands in the order read, [P'] is the state
    reached. *)
Inductive operatorTail (opOf : Token -> option Operator)
    (operand : Parser.t -> option Expr -> Parser.t -> Prop)
  : Parser.t -> list (Operator * option Expr) -> Parser.t -> Prop :=
  | tail_nil P :
      opOf (Parser.Tok P) = None ->
      operatorTail opOf operand P [] P
  | tail_cons P Op R P1 items P2 :
      opOf (Parser.Tok P) = Some Op ->
      operand (Parser.advance P) R P1 ->
      operatorTail opOf operand P1 items P2 ->
      operatorTail opOf operand P ((Op, R) :: items) P2.

(** The left fold of binary-operation nodes over such a sequence. *)
Definition leftFold (First : option Expr) (items : list (Operator * option Expr))
  : option Expr :=
  fold_left (fun L i => Some (BinaryOp i.1 L i.2)) items First.

(** The grammar of the two tiers: a factor is what [parseFactor] returns, a
    term is a factor and a tail of [*] and [/] with factors, an expression is
    a term and a tail of [+] and [-] with terms. *)
Definition isFactor (P : Parser.t) (F : option Expr) (P' : Parser.t) : Prop :=
  exists fuel, Parser.parseFactor fuel P = Some (F, P').

Definition isTerm (P : Parser.t) (T : option Expr) (P' : Parser.t) : Prop :=
  exists F P0 items,
    isFactor P F P0
    /\ operatorTail multiplicative isFactor P0 items P'
    /\ T = leftFold F items.

Definition isExpr (P : Parser.t) (E : option Expr) (P' : Parser.t) : Prop :=
  exists T P0 items,
    isTerm P T P0
    /\ operatorTail additive isTerm P0 items P'
    /\ E = leftFold T items.

(** The spelling of an operator, and whether it is of the tighter tier. *)
Definition symbol (Op : Operator) : string :=
  match Op with
  | Plus => "+"
  | Minus => "-"
  | Mul => "*"
  | Div => "/"
  end.

Definition tighter (Op : Operator) : bool :=
  match Op with
  | Mul | Div => true
  | Plus | Minus => false
  end.

(** The tree [parse] returns for a source text, without the final state. *)
Definition parseText (Input : string) : option (option AST) :=
  fst <$> Parser.parse (Parser.new (mkLexer Input)).

(** The operand [x] as a leaf. *)
Definition var (x : string) : option Expr := Some (Factor Ident x).

Definition binary (Op : Operator) (L R : option Expr) : option Expr :=
  Some (BinaryOp Op L R).

(** The names of a declaration list that are reported as declared twice, in
    the order of the reports: an occurrence is reported when the name is among
    those [seen] before it. *)
Fixpoint repeated (seen : list string) (Vars : list string) : list string :=
  match Vars with
  | [] => []
  | Var :: Vars =>
      if bool_decide (Var ∈ seen) then Var :: repeated seen Vars
      else repeated (Var :: seen) Vars
  end.

(** The string constant created for a declared name, and the call of the
    read routine on it. *)
Definition stringConstant (Var : string) : Value :=
  GlobalVariable (Var +:+ ".str") true (getString Var).

Definition readCall (Var : string) : Instr :=
  CallInst "calc_read" [Some (stringConstant Var)].

Definition isArithmetic (Inst : Instr) : Prop :=
  match Inst with
  | BinaryOperator _ _ _ _ => True
  | _ => False
  end.

(** The three functions of a generated module. *)
Definition mainFunction : string * FunctionType :=
  ("main", mkFunctionType Int32Ty [Int32Ty; PtrTy]).
Definition readFunction : string * FunctionType :=
  ("calc_read", mkFunctionType Int32Ty [PtrTy]).
Definition writeFunction : string * FunctionType :=
  ("calc_write", mkFunctionType VoidTy [Int32Ty]).

(** A tree without a null child. *)
Fixpoint wellFormed (E : Expr) : bool :=
  match E with
  | Factor _ _ => true
  | BinaryOp _ Left Right =>
      match Left, Right with
      | Some L, Some R => wellFormed L && wellFormed R
      | _, _ => false
      end
  end.

Definition wellFormedAST (Tree : AST) : bool :=
  match Tree with
  | ExprAST E => wellFormed E
  | WithDecl Vars (Some E) => negb (bool_decide (Vars = [])) && wellFormed E
  | WithDecl _ None => false
  end.

(** A line the parser writes to the error stream. *)
Definition unexpectedLine (m : string) : Prop :=
  exists T : string, m = "Unexpected: " +:+ T +:+ nl.

(** A line the semantic check writes to the error stream. *)
Definition semanticLine (m : string) : Prop :=
  exists (ET : DeclCheck.ErrorType) (x : string), m = DeclCheck.message ET x.

(** The identifiers used in a tree, from left to right. *)
Fixpoint identifiers (E : Expr) : list string :=
  match E with
  | Factor Ident Val => [Val]
  | Factor Number _ => []
  | BinaryOp _ Left Right =>
      match Left with Some L => identifiers L | None => [] end
      ++ match Right with Some R => identifiers R | None => [] end
  end.

(** The number of binary-operation nodes of a tree that have an identifier
    below them. *)
Fixpoint emittedOps (E : Expr) : nat :=
  match E with
  | Factor _ _ => 0
  | BinaryOp _ Left Right =>
      (match Left with Some L => emittedOps L | None => 0 end
       + match Right with Some R => emittedOps R | None => 0 end
       + match identifiers E with [] => 0 | _ => 1 end)%nat
  end.

(** The digit a character stands for. *)
Definition digitOf (c : ascii) : Z := Z.of_N (N_of_ascii c) - 48.

(** The value an operator computes from the values of its operands, with the
    instruction it is lowered to. *)
Definition operation (Op : Operator) (a b : option Z) : option (option Z) :=
  match Op with
  | Plus => arith Add true a b
  | Minus => arith Sub true a b
  | Mul => arith IMul true a b
  | Div => arith SDiv false a b
  end.

(** The value of an expression when the names have the values [env]: the
    operands of an operator from left to right, then the operator.  The outer
    [None] is undefined behaviour, the inner one a poison value. *)
Fixpoint denote (env : string -> option Z) (E : Expr) : option (option Z) :=
  match E with
  | Factor Ident Val => Some <$> env Val
  | Factor Number Val => Some (getAsInteger Val)
  | BinaryOp Op Left Right =>
      L ← Left;
      a ← denote env L;
      R ← Right;
      b ← denote env R;
      operation Op a b
  end.

(** The values of the declared names [Vars] when the values read are [zs], in
    that order. *)
Fixpoint bind (Vars : list string) (zs : list Z) (x : string) : option Z :=
  match Vars, zs with
  | Var :: Vars, z :: zs => if String.eqb x Var then Some z else bind Vars zs x
  | _, _ => None
  end.

(** The name [x] of the table stands for a register that holds its value
    under [env]. *)
Definition bound (env : string -> option Z) (St : ToIRVisitor.t)
    (regs : list (option Z)) (x : string) : Prop :=
  exists i z, ToIRVisitor.nameMap St !! x = Some (Some (Instruction i))
              /\ regs !! i = Some (Some z) /\ env x = Some z.


(** * The lexer *)

Section LexerFacts.

Lemma append_cons (c : ascii) (a b : string) :
  String c a +:+ b = String c (a +:+ b).
Proof. reflexivity. Qed.

Lemma length_append (a b : string) :
  String.length (a +:+ b) = (String.length a + String.length b)%nat.
Proof.
  induction a as [|c a IH]; [reflexivity|].
  rewrite append_cons. simpl. now rewrite IH.
Qed.

Lemma substring_prefix (a b : string) :
  String.substring 0 (String.length a) (a +:+ b) = a.
Proof.
  induction a as [|c a IH].
  - now destruct b.
  - rewrite append_cons. simpl. now rewrite IH.
Qed.

Lemma StringRef_prefix (a b : string) :
  StringRef (a +:+ b) (String.length (a +:+ b) - String.length b) = a.
Proof.
  unfold StringRef. rewrite length_append.
  replace (String.length a + String.length b - String.length b)%nat
    with (String.length a) by lia.
  apply substring_prefix.
Qed.

Lemma skipWhitespace_spec (p : string) :
  exists ws, p = ws +:+ skipWhitespace p
             /\ allChars charinfo.isWhitespace ws = true
             /\ charinfo.isWhitespace (deref (skipWhitespace p)) = false.
Proof.
  induction p as [|c p IH]; simpl.
  - exists EmptyString. repeat split.
  - destruct (negb (Ascii.eqb c zero) && charinfo.isWhitespace c) eqn:Hc.
    + destruct IH as (ws & Hp & Hws & Hstop).
      apply andb_true_iff in Hc as [_ Hc].
      exists (String c ws). rewrite append_cons, <- Hp. simpl.
      now rewrite Hc, Hws.
    + exists EmptyString. simpl. repeat split.
      destruct (Ascii.eqb_spec c zero) as [->|_]; [reflexivity|].
      simpl in Hc. exact Hc.
Qed.

Lemma scanWhile_spec (pred : ascii -> bool) (p : string) :
  pred zero = false ->
  exists run, p = run +:+ scanWhile pred p
              /\ allChars pred run = true
              /\ pred (deref (scanWhile pred p)) = false.
Proof.
  intros Hz. induction p as [|c p IH]; simpl.
  - exists EmptyString. repeat split. exact Hz.
  - destruct (pred c) eqn:Hc.
    + destruct IH as (run & Hp & Hrun & Hstop).
      exists (String c run). rewrite append_cons, <- Hp. simpl.
      now rewrite Hc, Hrun.
    + exists EmptyString. simpl. repeat split. exact Hc.
Qed.

Lemma skipWhitespace_length (p : string) :
  (String.length (skipWhitespace p) <= String.length p)%nat.
Proof.
  destruct (skipWhitespace_spec p) as (ws & Hp & _).
  rewrite Hp at 2. rewrite length_append. lia.
Qed.

Lemma scanWhile_length (pred : ascii -> bool) (p : string) :
  (String.length (scanWhile pred p) <= String.length p)%nat.
Proof.
  induction p as [|c p IH]; simpl; [lia|].
  destruct (pred c); simpl; lia.
Qed.

(** A call of [next] that forms a token moves the cursor forward; a call
    that reports the end of input does not move it back. *)
Lemma next_progress (token : Token) (L : Lexer) :
  (String.length (BufferPtr (next token L).2)
   + (if bool_decide (Kind (next token L).1 = eoi) then 0 else 1)
   <= String.length (BufferPtr L))%nat.
Proof.
  unfold next. pose proof (skipWhitespace_length (BufferPtr L)) as Hs.
  destruct (skipWhitespace (BufferPtr L)) as [|c p1] eqn:Hp; simpl in *.
  - lia.
  - destruct (Ascii.eqb c zero); simpl; [lia|].
    destruct (charinfo.isLetter c); simpl.
    { pose proof (scanWhile_length charinfo.isLetter p1).
      first [lia | destruct (bool_decide _); lia]. }
    destruct (charinfo.isDigit c); simpl.
    { pose proof (scanWhile_length charinfo.isDigit p1).
      first [lia | destruct (bool_decide _); lia]. }
    first [lia | destruct (bool_decide _); lia].
Qed.

Lemma letter_not_digit (c : ascii) :
  charinfo.isLetter c = true -> charinfo.isDigit c = false.
Proof. destruct c as [[] [] [] [] [] [] [] []]; vm_compute; congruence. Qed.

End LexerFacts.

(** C8.  The lexer's [next] is a total function of the token passed in and of
    the cursor, and raises no error: the cursor first passes a (possibly
    empty) run [ws] of white space and stands on [p]; then
    - at a NUL, the end of the buffer, the token is end-of-input, its text is
      left as it was and the cursor stays;
    - at a letter, the text is the maximal run of letters starting there (the
      cursor ends just behind it, on a character that is no letter), and the
      kind is [KW_with] exactly when the text is "with", else [ident];
    - at a digit, the text is the maximal run of digits and the kind is
      [number];
    - at any other character, the text is that one character and the kind is
      the punctuation token listed for it, or [unknown] when none is. *)
Theorem next_total_and_classifies (token : Token) (L : Lexer) :
  exists (T : Token) (L' : Lexer) (ws p : string),
    next token L = (T, L')
    /\ BufferPtr L = ws +:+ p
    /\ allChars charinfo.isWhitespace ws = true
    /\ charinfo.isWhitespace (deref p) = false
    /\ (deref p = zero ->
        Kind T = eoi /\ Text T = Text token /\ BufferPtr L' = p)
    /\ (charinfo.isLetter (deref p) = true ->
        p = Text T +:+ BufferPtr L'
        /\ deref (Text T) = deref p
        /\ allChars charinfo.isLetter (Text T) = true
        /\ charinfo.isLetter (deref (BufferPtr L')) = false
        /\ (Kind T = KW_with <-> Text T = "with")
        /\ (Kind T = ident <-> Text T <> "with"))
    /\ (charinfo.isDigit (deref p) = true ->
        p = Text T +:+ BufferPtr L'
        /\ deref (Text T) = deref p
        /\ allChars charinfo.isDigit (Text T) = true
        /\ charinfo.isDigit (deref (BufferPtr L')) = false
        /\ Kind T = number)
    /\ (deref p <> zero ->
        charinfo.isLetter (deref p) = false ->
        charinfo.isDigit (deref p) = false ->
        p = String (deref p) (BufferPtr L')
        /\ Text T = String (deref p) EmptyString
        /\ (forall K, (deref p, K) ∈ punctuation -> Kind T = K)
        /\ ((forall K, (deref p, K) ∉ punctuation) -> Kind T = unknown)).
Proof.
  destruct (skipWhitespace_spec (BufferPtr L)) as (ws & Hp & Hws & Hstop).
  destruct (next token L) as [T L'] eqn:Hnext.
  exists T, L', ws, (skipWhitespace (BufferPtr L)).
  split; [reflexivity|]. split; [exact Hp|]. split; [exact Hws|].
  split; [exact Hstop|].
  unfold next in Hnext. clear Hp Hws Hstop.
  destruct (skipWhitespace (BufferPtr L)) as [|c p1]; simpl in *.
  { inversion Hnext; subst; simpl.
    split; [intros _; repeat split|].
    split; [intros H; vm_compute in H; discriminate|].
    split; [intros H; vm_compute in H; discriminate|].
    intros H; congruence. }
  destruct (Ascii.eqb_spec c zero) as [->|Hnz].
  { inversion Hnext; subst; simpl.
    split; [intros _; repeat split|].
    split; [intros H; vm_compute in H; discriminate|].
    split; [intros H; vm_compute in H; discriminate|].
    intros H; congruence. }
  destruct (charinfo.isLetter c) eqn:Hl.
  { destruct (scanWhile_spec charinfo.isLetter p1 eq_refl)
      as (run & Hrun & Hall & Hend).
    unfold formToken in Hnext; simpl in Hnext.
    assert (Htxt : StringRef (String c p1)
                     (S (String.length p1)
                      - String.length (scanWhile charinfo.isLetter p1))
                   = String c run).
    { pose proof (StringRef_prefix (String c run)
                    (scanWhile charinfo.isLetter p1)) as E.
      rewrite append_cons, <- Hrun in E. exact E. }
    rewrite Htxt in Hnext. inversion Hnext; subst T L'; simpl.
    pose proof (letter_not_digit c Hl) as Hd.
    split; [congruence|]. split; [intros _|split; congruence].
    split; [now rewrite append_cons, <- Hrun|].
    split; [reflexivity|].
    split; [simpl; now rewrite Hl, Hall|].
    split; [exact Hend|].
    destruct (String.eqb_spec (String c run) "with"); split; split; congruence. }
  destruct (charinfo.isDigit c) eqn:Hd.
  { destruct (scanWhile_spec charinfo.isDigit p1 eq_refl)
      as (run & Hrun & Hall & Hend).
    unfold formToken in Hnext; simpl in Hnext.
    assert (Htxt : StringRef (String c p1)
                     (S (String.length p1)
                      - String.length (scanWhile charinfo.isDigit p1))
                   = String c run).
    { pose proof (StringRef_prefix (String c run)
                    (scanWhile charinfo.isDigit p1)) as E.
      rewrite append_cons, <- Hrun in E. exact E. }
    rewrite Htxt in Hnext. inversion Hnext; subst T L'; simpl.
    split; [congruence|]. split; [congruence|].
    split; [intros _|congruence].
    split; [now rewrite append_cons, <- Hrun|].
    split; [reflexivity|].
    split; [simpl; now rewrite Hd, Hall|].
    split; [exact Hend | reflexivity]. }
  unfold formToken in Hnext; simpl in Hnext.
  replace (S (String.length p1) - String.length p1)%nat with 1%nat in Hnext by lia.
  assert (Htxt : StringRef (String c p1) 1 = String c EmptyString).
  { unfold StringRef. simpl. now destruct p1. }
  rewrite Htxt in Hnext. inversion Hnext; subst T L'; simpl.
  split; [congruence|]. split; [congruence|]. split; [congruence|].
  intros _ _ _. split; [reflexivity|]. split; [reflexivity|]. split.
  - intros K HK. unfold punctuation in HK.
    repeat (apply elem_of_cons in HK as [HK|HK];
            [inversion HK; subst; reflexivity|]).
    now apply elem_of_nil in HK.
  - intros Hnone.
    repeat match goal with
           | |- context [Ascii.eqb c ?x] =>
               destruct (Ascii.eqb_spec c x) as [->|?];
               [exfalso; eapply Hnone; unfold punctuation;
                repeat first [apply list_elem_of_here | apply list_elem_of_further]|]
           end.
    reflexivity.
Qed.

(** The token read from the text [with x]. *)
Lemma next_total_and_classifies_witness :
  Kind (next (mkToken unknown "") (mkLexer "  with x")).1 = KW_with.
Proof.
  destruct (next_total_and_classifies (mkToken unknown "") (mkLexer "  with x"))
    as (T & L' & ws & p & Hnext & Hsplit & Hws & Hp & _ & Hletter & _).
  rewrite Hnext. simpl.
  vm_compute in Hnext. inversion Hnext; subst T L'. reflexivity.
Defined.

(** * The parser: progress, totality, shape of the result *)

Section ParserFacts.

Import Parser.

Lemma advance_remaining (P : t) :
  (remaining (advance P)
   + (if bool_decide (Kind (Tok P) = eoi) then 0 else 1)
   <= remaining P)%nat.
Proof.
  unfold remaining, advance.
  pose proof (next_progress (Tok P) (Lex P)) as H.
  destruct (next (Tok P) (Lex P)) as [T L]; simpl in *.
  destruct (bool_decide (Kind (Tok P) = eoi)); lia.
Qed.

Lemma advance_le (P : t) : (remaining (advance P) <= remaining P)%nat.
Proof.
  pose proof (advance_remaining P).
  destruct (bool_decide (Kind (Tok P) = eoi)); lia.
Qed.

Lemma advance_lt (P : t) :
  Kind (Tok P) <> eoi -> (remaining (advance P) < remaining P)%nat.
Proof.
  intros H. pose proof (advance_remaining P) as Hr.
  rewrite bool_decide_eq_false_2 in Hr by exact H. lia.
Qed.

Lemma remaining_error (P : t) : remaining (error P) = remaining P.
Proof. reflexivity. Qed.

Lemma expect_remaining (K : TokenKind) (P : t) :
  remaining (expect K P).2 = remaining P.
Proof. unfold expect. now destruct (negb (isKind (Tok P) K)). Qed.

Lemma consume_remaining (K : TokenKind) (P : t) :
  (remaining (consume K P).2 <= remaining P)%nat.
Proof.
  unfold consume, expect.
  destruct (negb (isKind (Tok P) K)); cbn [snd];
    [now rewrite remaining_error | apply advance_le].
Qed.

Lemma isKind_true (T : Token) (K : TokenKind) :
  isKind T K = true <-> Kind T = K.
Proof. unfold isKind. apply bool_decide_eq_true. Qed.

Lemma isKind_false (T : Token) (K : TokenKind) :
  isKind T K = false <-> Kind T <> K.
Proof. unfold isKind. apply bool_decide_eq_false. Qed.

Lemma isOneOf_true (T : Token) (Ks : list TokenKind) :
  isOneOf T Ks = true <-> Kind T ∈ Ks.
Proof.
  unfold isOneOf. rewrite existsb_exists. split.
  - intros (K & HK & HT). apply isKind_true in HT. subst K.
    now apply list_elem_of_In.
  - intros H. exists (Kind T). split; [now apply list_elem_of_In|].
    now apply isKind_true.
Qed.

(** The loops that drop tokens stop: the end of input is always among the
    tokens they stop at. *)
Lemma skipUntil_total (stop : Token -> bool) (fuel : nat) (P : t) :
  (forall T, Kind T = eoi -> stop T = true) ->
  (remaining P <= fuel)%nat ->
  exists P', skipUntil fuel stop P = Some P'
             /\ (remaining P' <= remaining P)%nat.
Proof.
  intros Hstop. revert P.
  induction fuel as [|fuel IH]; intros P Hfuel; simpl.
  - destruct (stop (Tok P)) eqn:Hs; [exists P; split; [reflexivity|lia]|].
    exfalso. unfold remaining in Hfuel.
    destruct (decide (Kind (Tok P) = eoi)) as [He|He].
    + rewrite (Hstop _ He) in Hs. discriminate.
    + rewrite bool_decide_eq_false_2 in Hfuel by exact He. lia.
  - destruct (stop (Tok P)) eqn:Hs; [exists P; split; [reflexivity|lia]|].
    assert (He : Kind (Tok P) <> eoi).
    { intros He. rewrite (Hstop _ He) in Hs. discriminate. }
    pose proof (advance_lt P He) as Hlt.
    destruct (IH (advance P)) as (P' & HP' & Hle); [lia|].
    exists P'. split; [exact HP' | lia].
Qed.

(** What such a loop does: it advances [k] times, [k] the least number of
    steps after which the current token is one it stops at; the error flag
    and the diagnostics are not touched. *)
Lemma skipUntil_spec (stop : Token -> bool) (fuel : nat) (P P' : t) :
  skipUntil fuel stop P = Some P' ->
  exists k : nat,
    P' = Nat.iter k advance P
    /\ stop (Tok P') = true
    /\ (forall j : nat, (j < k)%nat -> stop (Tok (Nat.iter j advance P)) = false)
    /\ HasError P' = HasError P /\ errs P' = errs P.
Proof.
  revert P. induction fuel as [|fuel IH]; intros P; simpl;
    destruct (stop (Tok P)) eqn:Hs; intros H; try discriminate.
  - inversion H; subst. exists 0%nat. repeat split; [exact Hs | lia].
  - inversion H; subst. exists 0%nat. repeat split; [exact Hs | lia].
  - destruct (IH _ H) as (k & Hk & Hst & Hmin & He & Hd).
    exists (S k). rewrite Nat.iter_succ_r. split; [exact Hk|].
    split; [exact Hst|]. split.
    + intros [|j] Hj; [exact Hs|]. rewrite Nat.iter_succ_r. apply Hmin. lia.
    + split.
      * rewrite He. unfold advance. now destruct (next (Tok P) (Lex P)).
      * rewrite Hd. unfold advance. now destruct (next (Tok P) (Lex P)).
Qed.

Lemma atSync_eoi (T : Token) : Kind T = eoi -> atSync T = true.
Proof.
  intros H. apply isOneOf_true. rewrite H.
  repeat first [apply list_elem_of_here | apply list_elem_of_further].
Qed.

Lemma parseFactor_default_total (fuel : nat) (Res : option Expr) (P : t) :
  (remaining P <= fuel)%nat ->
  exists P', parseFactor_default fuel Res P = Some (Res, P')
             /\ (remaining P' <= remaining P)%nat.
Proof.
  intros Hfuel. unfold parseFactor_default.
  destruct (skipUntil_total atSync fuel
              (match Res with Some _ => P | None => error P end))
    as (P' & HP' & Hle); [exact atSync_eoi | now destruct Res |].
  exists P'. rewrite HP'. split; [reflexivity | now destruct Res].
Qed.

(** One unfolding of each of the mutually recursive functions. *)
Lemma parseExpr_S (n : nat) (P : t) :
  parseExpr (S n) P
  = '(Left, P) ← parseTerm n P; parseExpr_loop n Left P.
Proof. reflexivity. Qed.

Lemma parseExpr_loop_S (n : nat) (Left : option Expr) (P : t) :
  parseExpr_loop (S n) Left P
  = if isOneOf (Tok P) [plus; minus] then
      '(Right, P') ← parseTerm n (advance P);
      parseExpr_loop n
        (Some (BinaryOp (if isKind (Tok P) plus then Plus else Minus)
                 Left Right)) P'
    else Some (Left, P).
Proof. reflexivity. Qed.

Lemma parseTerm_S (n : nat) (P : t) :
  parseTerm (S n) P
  = '(Left, P) ← parseFactor n P; parseTerm_loop n Left P.
Proof. reflexivity. Qed.

Lemma parseTerm_loop_S (n : nat) (Left : option Expr) (P : t) :
  parseTerm_loop (S n) Left P
  = if isOneOf (Tok P) [star; slash] then
      '(Right, P') ← parseFactor n (advance P);
      parseTerm_loop n
        (Some (BinaryOp (if isKind (Tok P) star then Mul else Div)
                 Left Right)) P'
    else Some (Left, P).
Proof. reflexivity. Qed.

Lemma parseFactor_S (n : nat) (P : t) :
  parseFactor (S n) P
  = match Kind (Tok P) with
    | number => Some (Some (Factor Number (Text (Tok P))), advance P)
    | ident => Some (Some (Factor Ident (Text (Tok P))), advance P)
    | l_paren =>
        '(Res, P1) ← parseExpr n (advance P);
        if negb (consume r_paren P1).1 then Some (Res, (consume r_paren P1).2)
        else parseFactor_default n Res (consume r_paren P1).2
    | _ => parseFactor_default n None P
    end.
Proof.
  simpl. unfold getKind, getText. destruct (Kind (Tok P)); try reflexivity.
  destruct (parseExpr n (advance P)) as [[Res P1]|]; [|reflexivity].
  simpl. now destruct (consume r_paren P1).
Qed.

Lemma operator_not_eoi (T : Token) (Ks : list TokenKind) :
  isOneOf T Ks = true -> eoi ∉ Ks -> Kind T <> eoi.
Proof. intros H Hn He. apply isOneOf_true in H. now rewrite He in H. Qed.

Lemma eoi_not_additive : eoi ∉ [plus; minus].
Proof. intros H. repeat (apply elem_of_cons in H as [H|H]; [discriminate|]).
       now apply elem_of_nil in H. Qed.

Lemma eoi_not_multiplicative : eoi ∉ [star; slash].
Proof. intros H. repeat (apply elem_of_cons in H as [H|H]; [discriminate|]).
       now apply elem_of_nil in H. Qed.

(** Enough fuel for each of the mutually recursive functions, in terms of
    what is left of the input. *)
Lemma parse_functions_total (n : nat) :
  (forall P, (4 * remaining P + 5 <= n)%nat ->
     exists E P', parseExpr n P = Some (E, P')
                  /\ (remaining P' <= remaining P)%nat)
  /\ (forall Left P, (4 * remaining P + 2 <= n)%nat ->
     exists E P', parseExpr_loop n Left P = Some (E, P')
                  /\ (remaining P' <= remaining P)%nat)
  /\ (forall P, (4 * remaining P + 4 <= n)%nat ->
     exists E P', parseTerm n P = Some (E, P')
                  /\ (remaining P' <= remaining P)%nat)
  /\ (forall Left P, (4 * remaining P + 1 <= n)%nat ->
     exists E P', parseTerm_loop n Left P = Some (E, P')
                  /\ (remaining P' <= remaining P)%nat)
  /\ (forall P, (4 * remaining P + 3 <= n)%nat ->
     exists E P', parseFactor n P = Some (E, P')
                  /\ (remaining P' <= remaining P)%nat).
Proof.
  induction n as [|n (IHE & IHEL & IHT & IHTL & IHF)].
  { repeat split; intros; lia. }
  repeat split.
  - (* parseExpr *)
    intros P Hn. rewrite parseExpr_S.
    destruct (IHT P) as (L & P1 & -> & H1); [lia|]. simpl.
    destruct (IHEL L P1) as (E & P2 & -> & H2); [lia|].
    exists E, P2. split; [reflexivity | lia].
  - (* parseExpr_loop *)
    intros Left P Hn. rewrite parseExpr_loop_S.
    destruct (isOneOf (Tok P) [plus; minus]) eqn:Hop.
    + pose proof (advance_lt P (operator_not_eoi _ _ Hop eoi_not_additive)) as Hlt.
      destruct (IHT (advance P)) as (R & P1 & -> & H1); [lia|]. simpl.
      destruct (IHEL (Some (BinaryOp (if isKind (Tok P) plus then Plus else Minus)
                              Left R)) P1) as (E & P2 & -> & H2); [lia|].
      exists E, P2. split; [reflexivity | lia].
    + exists Left, P. split; [reflexivity | lia].
  - (* parseTerm *)
    intros P Hn. rewrite parseTerm_S.
    destruct (IHF P) as (L & P1 & -> & H1); [lia|]. simpl.
    destruct (IHTL L P1) as (E & P2 & -> & H2); [lia|].
    exists E, P2. split; [reflexivity | lia].
  - (* parseTerm_loop *)
    intros Left P Hn. rewrite parseTerm_loop_S.
    destruct (isOneOf (Tok P) [star; slash]) eqn:Hop.
    + pose proof (advance_lt P (operator_not_eoi _ _ Hop eoi_not_multiplicative)) as Hlt.
      destruct (IHF (advance P)) as (R & P1 & -> & H1); [lia|]. simpl.
      destruct (IHTL (Some (BinaryOp (if isKind (Tok P) star then Mul else Div)
                              Left R)) P1) as (E & P2 & -> & H2); [lia|].
      exists E, P2. split; [reflexivity | lia].
    + exists Left, P. split; [reflexivity | lia].
  - (* parseFactor *)
    intros P Hn. rewrite parseFactor_S.
    destruct (Kind (Tok P)) eqn:HK;
      try (destruct (parseFactor_default_total n None P) as (P' & -> & H');
           [lia | exists None, P'; split; [reflexivity | lia]]).
    + eexists _, _. split; [reflexivity | apply advance_le].
    + eexists _, _. split; [reflexivity | apply advance_le].
    + assert (He : Kind (Tok P) <> eoi) by congruence.
      pose proof (advance_lt P He) as Hlt.
      destruct (IHE (advance P)) as (Res & P1 & -> & H1); [lia|]. simpl.
      pose proof (consume_remaining r_paren P1) as Hc.
      destruct (consume r_paren P1) as [e P2]; simpl in Hc.
      destruct e; simpl.
      * destruct (parseFactor_default_total n Res P2) as (P' & -> & H');
          [lia | exists Res, P'; split; [reflexivity | lia]].
      * exists Res, P2. split; [reflexivity | lia].
Qed.

Lemma skipUntil_mono (stop : Token -> bool) (n : nat) (P P' : t) :
  skipUntil n stop P = Some P' -> skipUntil (S n) stop P = Some P'.
Proof.
  revert P. induction n as [|n IH]; intros P.
  - simpl. destruct (stop (Tok P)); [trivial | discriminate].
  - intros H. change (skipUntil (S (S n)) stop P)
      with (if stop (Tok P) then Some P
            else skipUntil (S n) stop (advance P)).
    change (skipUntil (S n) stop P)
      with (if stop (Tok P) then Some P else skipUntil n stop (advance P)) in H.
    destruct (stop (Tok P)); [exact H | now apply IH].
Qed.

Lemma parseFactor_default_mono (n : nat) (Res : option Expr) (P : t) r :
  parseFactor_default n Res P = Some r ->
  parseFactor_default (S n) Res P = Some r.
Proof.
  unfold parseFactor_default. intros H.
  destruct (skipUntil n atSync _) as [P'|] eqn:Hs; [|discriminate].
  now rewrite (skipUntil_mono _ _ _ _ Hs).
Qed.

(** More fuel does not change a result. *)
Lemma parse_functions_mono (n : nat) :
  (forall P r, parseExpr n P = Some r -> parseExpr (S n) P = Some r)
  /\ (forall Left P r, parseExpr_loop n Left P = Some r ->
                       parseExpr_loop (S n) Left P = Some r)
  /\ (forall P r, parseTerm n P = Some r -> parseTerm (S n) P = Some r)
  /\ (forall Left P r, parseTerm_loop n Left P = Some r ->
                       parseTerm_loop (S n) Left P = Some r)
  /\ (forall P r, parseFactor n P = Some r -> parseFactor (S n) P = Some r).
Proof.
  induction n as [|n (IHE & IHEL & IHT & IHTL & IHF)].
  { repeat split; intros; discriminate. }
  repeat split.
  - intros P r. rewrite !parseExpr_S.
    destruct (parseTerm n P) as [[L P1]|] eqn:HT; [|discriminate].
    rewrite (IHT _ _ HT). simpl. apply IHEL.
  - intros Left P r. rewrite !parseExpr_loop_S.
    destruct (isOneOf (Tok P) [plus; minus]); [|trivial].
    destruct (parseTerm n (advance P)) as [[R P1]|] eqn:HT; [|discriminate].
    rewrite (IHT _ _ HT). simpl. apply IHEL.
  - intros P r. rewrite !parseTerm_S.
    destruct (parseFactor n P) as [[L P1]|] eqn:HF; [|discriminate].
    rewrite (IHF _ _ HF). simpl. apply IHTL.
  - intros Left P r. rewrite !parseTerm_loop_S.
    destruct (isOneOf (Tok P) [star; slash]); [|trivial].
    destruct (parseFactor n (advance P)) as [[R P1]|] eqn:HF; [|discriminate].
    rewrite (IHF _ _ HF). simpl. apply IHTL.
  - intros P r. rewrite !parseFactor_S.
    destruct (Kind (Tok P)); try apply parseFactor_default_mono; trivial.
    destruct (parseExpr n (advance P)) as [[Res P1]|] eqn:HE; [|discriminate].
    rewrite (IHE _ _ HE). simpl.
    destruct (negb (consume r_paren P1).1); [trivial|].
    apply parseFactor_default_mono.
Qed.

Lemma parseExpr_mono (n m : nat) (P : t) r :
  (n <= m)%nat -> parseExpr n P = Some r -> parseExpr m P = Some r.
Proof.
  induction 1 as [|m _ IH]; [trivial|].
  intros H. apply parse_functions_mono. auto.
Qed.

Lemma parseTerm_mono (n m : nat) (P : t) r :
  (n <= m)%nat -> parseTerm n P = Some r -> parseTerm m P = Some r.
Proof.
  induction 1 as [|m _ IH]; [trivial|].
  intros H. apply parse_functions_mono. auto.
Qed.

Lemma parseFactor_mono (n m : nat) (P : t) r :
  (n <= m)%nat -> parseFactor n P = Some r -> parseFactor m P = Some r.
Proof.
  induction 1 as [|m _ IH]; [trivial|].
  intros H. apply parse_functions_mono. auto.
Qed.

Lemma skipUntil_mono_le (stop : Token -> bool) (n m : nat) (P P' : t) :
  (n <= m)%nat -> skipUntil n stop P = Some P' -> skipUntil m stop P = Some P'.
Proof.
  induction 1 as [|m _ IH]; [trivial|].
  intros H. apply skipUntil_mono. auto.
Qed.

Lemma parseCalc_vars_mono (n : nat) (Vars : list string) (P : t) r :
  parseCalc_vars n Vars P = Some r -> parseCalc_vars (S n) Vars P = Some r.
Proof.
  revert Vars P. induction n as [|n IH]; intros Vars P; [discriminate|].
  intros H.
  change (parseCalc_vars (S (S n)) Vars P)
    with (if isKind (Tok P) comma then
            let '(e, P1) := expect ident (advance P) in
            if e then Some (inl P1)
            else parseCalc_vars (S n) (Vars ++ [getText (Tok P1)]) (advance P1)
          else Some (inr (Vars, P))).
  change (parseCalc_vars (S n) Vars P)
    with (if isKind (Tok P) comma then
            let '(e, P1) := expect ident (advance P) in
            if e then Some (inl P1)
            else parseCalc_vars n (Vars ++ [getText (Tok P1)]) (advance P1)
          else Some (inr (Vars, P))) in H.
  destruct (isKind (Tok P) comma); [|exact H].
  destruct (expect ident (advance P)) as [[] P1]; [exact H | now apply IH].
Qed.

Lemma parseCalc_vars_mono_le (n m : nat) (Vars : list string) (P : t) r :
  (n <= m)%nat ->
  parseCalc_vars n Vars P = Some r -> parseCalc_vars m Vars P = Some r.
Proof.
  induction 1 as [|m _ IH]; [trivial|].
  intros H. apply parseCalc_vars_mono. auto.
Qed.

Lemma parseCalc_error_total (fuel : nat) (P : t) :
  (remaining P <= fuel)%nat ->
  exists P', parseCalc_error fuel P = Some (None, P')
             /\ Kind (Tok P') = eoi
             /\ HasError P' = HasError P /\ errs P' = errs P.
Proof.
  intros Hfuel. unfold parseCalc_error.
  destruct (skipUntil_total (fun T => bool_decide (getKind T = eoi)) fuel P)
    as (P' & HP' & _); [intros T HT; now apply bool_decide_eq_true | exact Hfuel |].
  destruct (skipUntil_spec _ _ _ _ HP') as (k & _ & Hstop & _ & He & Hd).
  exists P'. rewrite HP'. apply bool_decide_eq_true in Hstop. now repeat split.
Qed.

Lemma parseCalc_vars_total (fuel : nat) (Vars : list string) (P : t) :
  (remaining P < fuel)%nat ->
  exists r, parseCalc_vars fuel Vars P = Some r
            /\ (remaining (match r with inl P' => P' | inr (_, P') => P' end)
                <= remaining P)%nat.
Proof.
  revert Vars P. induction fuel as [|fuel IH]; intros Vars P Hfuel; [lia|].
  simpl. destruct (isKind (Tok P) comma) eqn:Hc.
  - apply isKind_true in Hc.
    assert (He : Kind (Tok P) <> eoi) by congruence.
    pose proof (advance_lt P He) as Hlt.
    unfold expect. destruct (isKind (Tok (advance P)) ident) eqn:Hi; simpl.
    + apply isKind_true in Hi.
      assert (He' : Kind (Tok (advance P)) <> eoi) by congruence.
      pose proof (advance_lt _ He') as Hlt'.
      destruct (IH (Vars ++ [getText (Tok (advance P))]) (advance (advance P)))
        as (r & -> & Hr); [lia|].
      exists r. split; [reflexivity | lia].
    + eexists. split; [reflexivity|]. simpl. rewrite remaining_error. lia.
  - eexists. split; [reflexivity|]. simpl. lia.
Qed.

Lemma parseCalc_body_total (fuel : nat) (Vars : list string) (P : t) :
  (4 * remaining P + 5 <= fuel)%nat ->
  exists Tree P', parseCalc_body fuel Vars P = Some (Tree, P')
                  /\ Kind (Tok P') = eoi.
Proof.
  intros Hfuel. unfold parseCalc_body.
  destruct (proj1 (parse_functions_total fuel) P Hfuel) as (E & P1 & -> & H1).
  simpl. unfold expect. destruct (isKind (Tok P1) eoi) eqn:He; simpl.
  - apply isKind_true in He.
    destruct (bool_decide (Vars = [])); eexists _, _; split; eauto.
  - destruct (parseCalc_error_total fuel (error P1)) as (P' & -> & HP' & _);
      [rewrite remaining_error; lia|].
    eexists _, _; split; eauto.
Qed.

Lemma parseCalc_total (fuel : nat) (P : t) :
  (4 * remaining P + 5 <= fuel)%nat ->
  exists Tree P', parseCalc fuel P = Some (Tree, P') /\ Kind (Tok P') = eoi.
Proof.
  intros Hfuel. unfold parseCalc.
  destruct (isKind (Tok P) KW_with) eqn:Hw;
    [|now apply parseCalc_body_total].
  pose proof (advance_le P) as H0.
  unfold expect at 1. destruct (isKind (Tok (advance P)) ident) eqn:Hi; simpl.
  - pose proof (advance_le (advance P)) as H1.
    destruct (parseCalc_vars_total fuel [getText (Tok (advance P))]
                (advance (advance P))) as (r & -> & Hr); [lia|].
    simpl. destruct r as [P1|[Vars P1]].
    + destruct (parseCalc_error_total fuel P1) as (P' & -> & HP' & _); [lia|].
      eexists _, _; split; eauto.
    + pose proof (consume_remaining colon P1) as Hc.
      destruct (consume colon P1) as [[] P2]; simpl in Hc.
      * destruct (parseCalc_error_total fuel P2) as (P' & -> & HP' & _); [lia|].
        eexists _, _; split; eauto.
      * apply parseCalc_body_total. lia.
  - destruct (parseCalc_error_total fuel (error (advance P)))
      as (P' & -> & HP' & _); [rewrite remaining_error; lia|].
    eexists _, _; split; eauto.
Qed.

(** [parse] always returns, and it returns at the end of the input. *)
Lemma parse_fuel_total (fuel : nat) (P : t) :
  (enough P <= fuel)%nat ->
  exists Tree P', parse_fuel fuel P = Some (Tree, P') /\ Kind (Tok P') = eoi.
Proof.
  intros Hfuel. unfold parse_fuel, enough in *.
  destruct (parseCalc_total fuel P) as (Tree & P' & -> & He); [lia|].
  simpl. unfold expect. apply isKind_true in He as He'. rewrite He'. simpl.
  eauto.
Qed.

Lemma parseCalc_error_mono (n m : nat) (P : t) r :
  (n <= m)%nat -> parseCalc_error n P = Some r -> parseCalc_error m P = Some r.
Proof.
  unfold parseCalc_error. intros Hle H.
  destruct (skipUntil n _ P) as [P'|] eqn:Hs; [|discriminate].
  now rewrite (skipUntil_mono_le _ _ _ _ _ Hle Hs).
Qed.

Lemma parseCalc_body_mono (n m : nat) (Vars : list string) (P : t) r :
  (n <= m)%nat ->
  parseCalc_body n Vars P = Some r -> parseCalc_body m Vars P = Some r.
Proof.
  unfold parseCalc_body. intros Hle H.
  destruct (parseExpr n P) as [[E P1]|] eqn:HE; [|discriminate].
  rewrite (parseExpr_mono _ _ _ _ Hle HE). simpl in *.
  destruct (expect eoi P1) as [[] P2]; [|exact H].
  now apply (parseCalc_error_mono n m).
Qed.

Lemma parseCalc_mono (n m : nat) (P : t) r :
  (n <= m)%nat -> parseCalc n P = Some r -> parseCalc m P = Some r.
Proof.
  unfold parseCalc. intros Hle H.
  destruct (isKind (Tok P) KW_with); [|now apply (parseCalc_body_mono n m)].
  destruct (expect ident (advance P)) as [[] P1];
    [now apply (parseCalc_error_mono n m)|].
  destruct (parseCalc_vars n _ _) as [r1|] eqn:Hv; [|discriminate].
  rewrite (parseCalc_vars_mono_le _ _ _ _ _ Hle Hv). simpl in *.
  destruct r1 as [P2|[Vars P2]]; [now apply (parseCalc_error_mono n m)|].
  destruct (consume colon P2) as [[] P3];
    [now apply (parseCalc_error_mono n m) | now apply (parseCalc_body_mono n m)].
Qed.

Lemma parse_fuel_mono (n m : nat) (P : t) r :
  (n <= m)%nat -> parse_fuel n P = Some r -> parse_fuel m P = Some r.
Proof.
  unfold parse_fuel. intros Hle H.
  destruct (parseCalc n P) as [[Res P1]|] eqn:Hc; [|discriminate].
  now rewrite (parseCalc_mono _ _ _ _ Hle Hc).
Qed.

(** Any fuel that is enough gives the result of [parse]. *)
Lemma parse_fuel_enough (fuel : nat) (P : t) :
  (enough P <= fuel)%nat -> parse_fuel fuel P = parse P.
Proof.
  intros Hfuel. unfold parse.
  destruct (parse_fuel_total (enough P) P) as (Tree & P' & H & _); [lia|].
  rewrite H. now apply (parse_fuel_mono (enough P)).
Qed.

End ParserFacts.

Section ParserShape.

Import Parser.

Lemma additive_operator (T : Token) :
  additive T
  = if isOneOf T [plus; minus]
    then Some (if isKind T plus then Plus else Minus) else None.
Proof. unfold additive, isOneOf, isKind. now destruct (Kind T). Qed.

Lemma multiplicative_operator (T : Token) :
  multiplicative T
  = if isOneOf T [star; slash]
    then Some (if isKind T star then Mul else Div) else None.
Proof. unfold multiplicative, isOneOf, isKind. now destruct (Kind T). Qed.

Lemma parseTerm_loop_shape (n : nat) (Left : option Expr) (P : t) E P' :
  parseTerm_loop n Left P = Some (E, P') ->
  exists items,
    operatorTail multiplicative isFactor P items P' /\ E = leftFold Left items.
Proof.
  revert Left P. induction n as [|n IH]; intros Left P; [discriminate|].
  rewrite parseTerm_loop_S.
  pose proof (multiplicative_operator (Tok P)) as Hop.
  destruct (isOneOf (Tok P) [star; slash]).
  - destruct (parseFactor n (advance P)) as [[R P1]|] eqn:HF; [|discriminate].
    simpl. intros H. destruct (IH _ _ H) as (items & Htail & ->).
    eexists ((_, R) :: items). split; [|reflexivity].
    eapply tail_cons; [exact Hop | exists n; exact HF | exact Htail].
  - intros H. inversion H; subst. exists []. split; [now constructor | reflexivity].
Qed.

Lemma parseTerm_shape (n : nat) (P : t) T P' :
  parseTerm n P = Some (T, P') -> isTerm P T P'.
Proof.
  destruct n as [|n]; [discriminate|]. rewrite parseTerm_S.
  destruct (parseFactor n P) as [[F P0]|] eqn:HF; [|discriminate].
  simpl. intros H. destruct (parseTerm_loop_shape _ _ _ _ _ H) as (items & Ht & ->).
  exists F, P0, items. split; [now exists n | now split].
Qed.

Lemma parseExpr_loop_shape (n : nat) (Left : option Expr) (P : t) E P' :
  parseExpr_loop n Left P = Some (E, P') ->
  exists items,
    operatorTail additive isTerm P items P' /\ E = leftFold Left items.
Proof.
  revert Left P. induction n as [|n IH]; intros Left P; [discriminate|].
  rewrite parseExpr_loop_S.
  pose proof (additive_operator (Tok P)) as Hop.
  destruct (isOneOf (Tok P) [plus; minus]).
  - destruct (parseTerm n (advance P)) as [[R P1]|] eqn:HT; [|discriminate].
    simpl. intros H. destruct (IH _ _ H) as (items & Htail & ->).
    eexists ((_, R) :: items). split; [|reflexivity].
    eapply tail_cons; [exact Hop | apply (parseTerm_shape n); exact HT | exact Htail].
  - intros H. inversion H; subst. exists []. split; [now constructor | reflexivity].
Qed.

Lemma parseExpr_shape (n : nat) (P : t) E P' :
  parseExpr n P = Some (E, P') -> isExpr P E P'.
Proof.
  destruct n as [|n]; [discriminate|]. rewrite parseExpr_S.
  destruct (parseTerm n P) as [[T P0]|] eqn:HT; [|discriminate].
  simpl. intros H. destruct (parseExpr_loop_shape _ _ _ _ _ H) as (items & Ht & ->).
  exists T, P0, items. split; [now apply (parseTerm_shape n) | now split].
Qed.

End ParserShape.

(** C1.  [+] and [-] bind looser than [*] and [/], and both tiers associate to
    the left.  For every state of the parser, what [parseExpr] returns is the
    left fold of binary-operation nodes over a term and the [+] and [-]
    operators with their terms that follow it, up to the first token that is
    neither; each term is the left fold over a factor and the [*] and [/]
    operators with their factors that follow it, up to the first token that
    is neither.  For any two operators, [a op1 b op2 c] is [(a op1 b) op2 c]
    unless [op2] is of the tighter tier and [op1] is not, when it is
    [a op1 (b op2 c)]; so [a - b - c] is [(a-b)-c].  The unit generated for
    [1+2*3] writes 7 and the one for [(1+2)*3] writes 9. *)
Theorem precedence_and_left_associativity :
  (forall fuel P E P', Parser.parseExpr fuel P = Some (E, P') -> isExpr P E P')
  /\ (forall op1 op2,
        parseText ("a" +:+ symbol op1 +:+ "b" +:+ symbol op2 +:+ "c")
        = Some (toAST
            (if tighter op2 && negb (tighter op1)
             then binary op1 (var "a") (binary op2 (var "b") (var "c"))
             else binary op2 (binary op1 (var "a") (var "b")) (var "c"))))
  /\ parseText "a - b - c"
     = Some (toAST (binary Minus (binary Minus (var "a") (var "b")) (var "c")))
  /\ (forall inputs, evaluate "1+2*3" inputs = Some (Exited 0 [Some 7]))
  /\ (forall inputs, evaluate "(1+2)*3" inputs = Some (Exited 0 [Some 9])).
Proof.
  split; [intros fuel P E P'; apply parseExpr_shape|].
  split; [intros [] []; vm_compute; reflexivity|].
  split; [vm_compute; reflexivity|].
  split; intros inputs; vm_compute; reflexivity.
Qed.

(** The shape theorem at the text [1+2*3]. *)
Lemma precedence_and_left_associativity_witness :
  exists E P', isExpr (Parser.new (mkLexer "1+2*3")) E P'
               /\ E = binary Plus (Some (Factor Number "1"))
                        (binary Mul (Some (Factor Number "2"))
                                    (Some (Factor Number "3"))).
Proof.
  eexists _, _. split.
  - apply (proj1 precedence_and_left_associativity 20%nat). vm_compute. reflexivity.
  - reflexivity.
Defined.

(** * Error recovery *)

Section Recovery.

Import Parser.

Lemma parseFactor_default_spec (fuel : nat) (Res : option Expr) (P : t) :
  (remaining P <= fuel)%nat ->
  exists (k : nat) (P' : t),
    parseFactor_default fuel Res P = Some (Res, P')
    /\ P' = Nat.iter k advance (match Res with Some _ => P | None => error P end)
    /\ Kind (Tok P') ∈ [r_paren; star; plus; minus; slash; eoi]
    /\ (forall j : nat, (j < k)%nat ->
          Kind (Tok (Nat.iter j advance
                       (match Res with Some _ => P | None => error P end)))
          ∉ [r_paren; star; plus; minus; slash; eoi]).
Proof.
  intros Hfuel. unfold parseFactor_default.
  set (P0 := match Res with Some _ => P | None => error P end).
  destruct (skipUntil_total atSync fuel P0) as (P' & HP' & _);
    [exact atSync_eoi | subst P0; now destruct Res |].
  destruct (skipUntil_spec _ _ _ _ HP') as (k & Hk & Hstop & Hmin & _).
  exists k, P'. rewrite HP'. split; [reflexivity|]. split; [exact Hk|].
  split; [now apply isOneOf_true|].
  intros j Hj Hin. apply isOneOf_true in Hin.
  unfold atSync in Hmin. rewrite (Hmin j Hj) in Hin. discriminate.
Qed.

Lemma parseCalc_error_spec (fuel : nat) (P : t) :
  (remaining P <= fuel)%nat ->
  exists (k : nat) (P' : t),
    parseCalc_error fuel P = Some (None, P')
    /\ P' = Nat.iter k advance P
    /\ Kind (Tok P') = eoi
    /\ (forall j : nat, (j < k)%nat -> Kind (Tok (Nat.iter j advance P)) <> eoi).
Proof.
  intros Hfuel. unfold parseCalc_error.
  destruct (skipUntil_total (fun T => bool_decide (getKind T = eoi)) fuel P)
    as (P' & HP' & _); [intros T HT; now apply bool_decide_eq_true | exact Hfuel |].
  destruct (skipUntil_spec _ _ _ _ HP') as (k & Hk & Hstop & Hmin & _).
  exists k, P'. rewrite HP'. split; [reflexivity|]. split; [exact Hk|].
  split; [now apply bool_decide_eq_true in Hstop|].
  intros j Hj. specialize (Hmin j Hj). now apply bool_decide_eq_false in Hmin.
Qed.

Lemma parseFactor_mismatch (fuel : nat) (P : t) :
  Kind (Tok P) ∉ [number; ident; l_paren] ->
  parseFactor (S fuel) P = parseFactor_default fuel None P.
Proof.
  intros H. rewrite parseFactor_S.
  destruct (Kind (Tok P)); try reflexivity; exfalso; apply H;
    repeat first [apply list_elem_of_here | apply list_elem_of_further].
Qed.

End Recovery.

(** C9.  Error recovery always terminates.  The recovery inside factor
    parsing, entered with the result [Res] so far (null at a token that starts
    no factor, when the error is recorded there; the parenthesised expression
    when its closing parenthesis is missing), advances a finite number [k] of
    times and stops at the first token that is one of [)], [*], [+], [-], [/]
    or the end of input; so does [parseFactor] at a token that starts no
    factor, with the failure flag set.  The recovery at the top level
    advances to the first end-of-input token.  [parse] returns from
    every state of the parser, hence for every source text, and returns at the
    end of the input; more fuel than is enough does not change its result.
    For the text [with : 1] it records one syntax error, returns no tree and
    stops at the end of the input. *)
Theorem error_recovery_terminates :
  (forall fuel Res P,
      (Parser.remaining P <= fuel)%nat ->
      exists (k : nat) (P' : Parser.t),
        Parser.parseFactor_default fuel Res P = Some (Res, P')
        /\ P' = Nat.iter k Parser.advance
                  (match Res with Some _ => P | None => Parser.error P end)
        /\ Kind (Parser.Tok P') ∈ [r_paren; star; plus; minus; slash; eoi]
        /\ (forall j : nat, (j < k)%nat ->
              Kind (Parser.Tok
                      (Nat.iter j Parser.advance
                         (match Res with Some _ => P | None => Parser.error P end)))
              ∉ [r_paren; star; plus; minus; slash; eoi]))
  /\ (forall fuel P,
      (Parser.remaining P <= fuel)%nat ->
      Kind (Parser.Tok P) ∉ [number; ident; l_paren] ->
      exists (k : nat) (P' : Parser.t),
        Parser.parseFactor (S fuel) P = Some (None, P')
        /\ P' = Nat.iter k Parser.advance (Parser.error P)
        /\ Parser.HasError P' = true
        /\ Kind (Parser.Tok P') ∈ [r_paren; star; plus; minus; slash; eoi]
        /\ (forall j : nat, (j < k)%nat ->
              Kind (Parser.Tok (Nat.iter j Parser.advance (Parser.error P)))
              ∉ [r_paren; star; plus; minus; slash; eoi]))
  /\ (forall fuel P,
      (Parser.remaining P <= fuel)%nat ->
      exists (k : nat) (P' : Parser.t),
        Parser.parseCalc_error fuel P = Some (None, P')
        /\ P' = Nat.iter k Parser.advance P
        /\ Kind (Parser.Tok P') = eoi
        /\ (forall j : nat, (j < k)%nat ->
              Kind (Parser.Tok (Nat.iter j Parser.advance P)) <> eoi))
  /\ (forall P, exists Tree P',
        Parser.parse P = Some (Tree, P') /\ Kind (Parser.Tok P') = eoi)
  /\ (forall fuel P,
        (Parser.enough P <= fuel)%nat ->
        Parser.parse_fuel fuel P = Parser.parse P)
  /\ Parser.parse (Parser.new (mkLexer "with : 1"))
     = Some (None,
             Parser.mk (mkLexer "") (mkToken eoi "1") true
               ["Unexpected: :" +:+ nl]).
Proof.
  split; [exact parseFactor_default_spec|].
  split.
  { intros fuel P Hfuel HK. rewrite (parseFactor_mismatch fuel P HK).
    destruct (parseFactor_default_spec fuel None P Hfuel)
      as (k & P' & H & Hk & Hsync & Hmin).
    exists k, P'. split; [exact H|]. split; [exact Hk|]. split; [|now split].
    unfold Parser.parseFactor_default in H.
    destruct (Parser.skipUntil fuel Parser.atSync (Parser.error P)) as [Q|] eqn:HQ;
      [|discriminate].
    destruct (skipUntil_spec _ _ _ _ HQ) as (_ & _ & _ & _ & He & _).
    simpl in H. inversion H; subst Q. exact He. }
  split; [exact parseCalc_error_spec|].
  split; [intros P; apply parse_fuel_total; lia|].
  split; [exact parse_fuel_enough|].
  vm_compute. reflexivity.
Qed.

(** The recovery inside a factor at the text [1 + : 2 * 3], after [1 +]: the
    colon starts no factor, and the parser stops at the star. *)
Lemma error_recovery_terminates_witness :
  exists P' : Parser.t,
    Parser.parseFactor 9 (Parser.advance (Parser.advance
                            (Parser.new (mkLexer "1 + : 2 * 3"))))
    = Some (None, P')
    /\ Parser.HasError P' = true
    /\ Kind (Parser.Tok P') ∈ [r_paren; star; plus; minus; slash; eoi].
Proof.
  destruct (proj1 (proj2 error_recovery_terminates) 8%nat
              (Parser.advance (Parser.advance (Parser.new (mkLexer "1 + : 2 * 3")))))
    as (k & P' & H & _ & He & Hsync & _).
  - vm_compute. lia.
  - vm_compute. intros H.
    repeat (apply elem_of_cons in H as [H|H]; [discriminate|]).
    now apply elem_of_nil in H.
  - exists P'. split; [exact H|]. split; [exact He | exact Hsync].
Defined.

(** C7.  [parse] can return a tree while the failure flag is set: for the
    text [(1], whose closing parenthesis is missing, it returns the literal
    [1] and has recorded a syntax error; for [1+] it returns an addition
    whose right operand is null.  A test of the returned tree for null does
    not detect these failures; the flag does. *)
Theorem partial_tree_with_error :
  (exists Input Tree P',
     Parser.parse (Parser.new (mkLexer Input)) = Some (Some Tree, P')
     /\ Parser.hasError P' = true)
  /\ (exists P', Parser.parse (Parser.new (mkLexer "(1"))
                = Some (Some (ExprAST (Factor Number "1")), P')
                /\ Parser.hasError P' = true
                /\ Parser.errs P' = ["Unexpected: 1" +:+ nl])
  /\ (exists P', Parser.parse (Parser.new (mkLexer "1+"))
                = Some (Some (ExprAST (BinaryOp Plus (Some (Factor Number "1")) None)),
                        P')
                /\ Parser.hasError P' = true).
Proof.
  split; [exists "(1"; eexists _, _ | split; eexists];
    (split; [vm_compute; reflexivity | repeat split]).
Qed.

(** * The semantic check *)

Section SemaFacts.

Import DeclCheck.

Lemma declare_present (C : t) (Var : string) :
  Var ∈ Scope C ->
  Scope (declare C Var) = Scope C
  /\ HasError (declare C Var) = true
  /\ errs (declare C Var) = errs C ++ [message Twice Var].
Proof. intros H. unfold declare. now rewrite bool_decide_eq_true_2. Qed.

Lemma declare_absent (C : t) (Var : string) :
  Var ∉ Scope C ->
  Scope (declare C Var) = {[Var]} ∪ Scope C
  /\ HasError (declare C Var) = HasError C
  /\ errs (declare C Var) = errs C.
Proof. intros H. unfold declare. now rewrite bool_decide_eq_false_2. Qed.

Lemma declare_scope (C : t) (Var : string) :
  Scope (declare C Var) = {[Var]} ∪ Scope C.
Proof.
  destruct (decide (Var ∈ Scope C)) as [H|H].
  - destruct (declare_present C Var H) as (-> & _).
    apply set_eq. intros x. rewrite elem_of_union, elem_of_singleton.
    split; [now right | intros [->|Hx]; assumption].
  - now destruct (declare_absent C Var H) as (-> & _).
Qed.

Lemma declare_all_scope (Vars : list string) (C : t) :
  Scope (fold_left declare Vars C) = list_to_set Vars ∪ Scope C.
Proof.
  revert C. induction Vars as [|Var Vars IH]; intros C; simpl.
  - now rewrite (left_id_L ∅ (∪)).
  - now rewrite IH, declare_scope, (assoc_L (∪)), (comm_L (∪) _ {[Var]}).
Qed.

Lemma declare_all_errs (Vars : list string) (seen : list string) (C : t) :
  (forall x, x ∈ Scope C <-> x ∈ seen) ->
  errs (fold_left declare Vars C)
  = errs C ++ map (message Twice) (repeated seen Vars).
Proof.
  revert seen C. induction Vars as [|Var Vars IH]; intros seen C Hseen; simpl.
  - now rewrite app_nil_r.
  - destruct (decide (Var ∈ Scope C)) as [H|H].
    + destruct (declare_present C Var H) as (Hs & _ & He).
      rewrite (bool_decide_eq_true_2 (Var ∈ seen)) by now apply Hseen.
      rewrite (IH seen); [|intros x; rewrite Hs; apply Hseen].
      rewrite He. simpl. now rewrite <- app_assoc.
    + destruct (declare_absent C Var H) as (Hs & _ & He).
      rewrite (bool_decide_eq_false_2 (Var ∈ seen)) by (intros Hin; now apply H, Hseen).
      rewrite (IH (Var :: seen)); [now rewrite He|].
      intros x. rewrite Hs, elem_of_union, elem_of_singleton, elem_of_cons.
      now rewrite Hseen.
Qed.

Lemma declare_all_flag (Vars : list string) (seen : list string) (C : t) :
  (forall x, x ∈ Scope C <-> x ∈ seen) ->
  HasError (fold_left declare Vars C)
  = HasError C || negb (bool_decide (repeated seen Vars = [])).
Proof.
  revert seen C. induction Vars as [|Var Vars IH]; intros seen C Hseen; simpl.
  - now rewrite orb_false_r.
  - destruct (decide (Var ∈ Scope C)) as [H|H].
    + destruct (declare_present C Var H) as (Hs & Hf & _).
      rewrite (bool_decide_eq_true_2 (Var ∈ seen)) by now apply Hseen.
      rewrite (IH seen); [|intros x; rewrite Hs; apply Hseen].
      rewrite Hf. simpl. now rewrite orb_true_r.
    + destruct (declare_absent C Var H) as (Hs & Hf & _).
      rewrite (bool_decide_eq_false_2 (Var ∈ seen)) by (intros Hin; now apply H, Hseen).
      rewrite (IH (Var :: seen)); [now rewrite Hf|].
      intros x. rewrite Hs, elem_of_union, elem_of_singleton, elem_of_cons.
      now rewrite Hseen.
Qed.

Lemma repeated_nil (Vars seen : list string) :
  repeated seen Vars = [] <-> NoDup Vars /\ (forall x, x ∈ Vars -> x ∉ seen).
Proof.
  revert seen. induction Vars as [|Var Vars IH]; intros seen; simpl.
  - split; [intros _; split; [constructor | intros x Hx; now apply elem_of_nil in Hx]
           | reflexivity].
  - destruct (decide (Var ∈ seen)) as [H|H].
    + rewrite bool_decide_eq_true_2 by exact H. split; [discriminate|].
      intros [_ Hd]. exfalso. apply (Hd Var); [apply list_elem_of_here | exact H].
    + rewrite bool_decide_eq_false_2 by exact H. rewrite IH, NoDup_cons. split.
      * intros [Hnd Hd]. split; [split; [|exact Hnd]|].
        -- intros Hin. apply (Hd Var Hin). apply list_elem_of_here.
        -- intros x Hx. apply elem_of_cons in Hx as [->|Hx]; [exact H|].
           intros Hs. apply (Hd x Hx). now apply list_elem_of_further.
      * intros [[Hnin Hnd] Hd]. split; [exact Hnd|].
        intros x Hx Hs. apply elem_of_cons in Hs as [->|Hs]; [contradiction|].
        apply (Hd x); [now apply list_elem_of_further | exact Hs].
Qed.

(** A declaration list that raises no error repeats no name. *)
Lemma declare_all_NoDup (Vars : list string) :
  HasError (fold_left declare Vars new) = false -> NoDup Vars.
Proof.
  rewrite (declare_all_flag Vars []).
  - simpl. intros H. apply negb_false_iff, bool_decide_eq_true in H.
    now apply repeated_nil in H.
  - intros x. simpl. split; intros Hx;
      [now apply not_elem_of_empty in Hx | now apply elem_of_nil in Hx].
Qed.

End SemaFacts.

(** C6.  The semantic check takes the declared names in the order of the
    declaration.  A name that is already in the scope set is reported once,
    as declared twice, the error flag is set and the set is left as it is; a
    new name is inserted and nothing is reported.  The loop goes on after a
    report, and the body is visited after the loop.  After the loop the set
    holds the declared names besides what it held, and the reports are
    those of the repeated occurrences, in order.  For [with x, x: x] the check
    fails with exactly one report, that [x] is already declared. *)
Theorem duplicate_declaration_reported_once :
  (forall C Var,
      Var ∈ DeclCheck.Scope C ->
      DeclCheck.Scope (DeclCheck.declare C Var) = DeclCheck.Scope C
      /\ DeclCheck.HasError (DeclCheck.declare C Var) = true
      /\ DeclCheck.errs (DeclCheck.declare C Var)
         = DeclCheck.errs C ++ [DeclCheck.message DeclCheck.Twice Var])
  /\ (forall C Var,
      Var ∉ DeclCheck.Scope C ->
      DeclCheck.Scope (DeclCheck.declare C Var) = {[Var]} ∪ DeclCheck.Scope C
      /\ DeclCheck.HasError (DeclCheck.declare C Var) = DeclCheck.HasError C
      /\ DeclCheck.errs (DeclCheck.declare C Var) = DeclCheck.errs C)
  /\ (forall before Var after E C,
      DeclCheck.visit_WithDecl (before ++ Var :: after) (Some E) C
      = DeclCheck.visit_Expr E
          (fold_left DeclCheck.declare after
             (DeclCheck.declare (fold_left DeclCheck.declare before C) Var)))
  /\ (forall Vars C,
      DeclCheck.Scope (fold_left DeclCheck.declare Vars C)
      = list_to_set Vars ∪ DeclCheck.Scope C)
  /\ (forall Vars,
      DeclCheck.errs (fold_left DeclCheck.declare Vars DeclCheck.new)
      = map (DeclCheck.message DeclCheck.Twice) (repeated [] Vars)
      /\ DeclCheck.HasError (fold_left DeclCheck.declare Vars DeclCheck.new)
         = negb (bool_decide (repeated [] Vars = [])))
  /\ parseText "with x, x: x" = Some (Some (WithDecl ["x"; "x"] (var "x")))
  /\ Sema.semantic (Some (WithDecl ["x"; "x"] (var "x")))
     = (true, ["Variable x already declared" +:+ nl]).
Proof.
  split; [exact declare_present|]. split; [exact declare_absent|].
  split.
  { intros before Var after E C. unfold DeclCheck.visit_WithDecl.
    now rewrite fold_left_app. }
  split; [exact declare_all_scope|].
  split.
  { intros Vars. split.
    - rewrite (declare_all_errs Vars []); [reflexivity|].
      intros x. simpl. split; intros Hx;
        [now apply not_elem_of_empty in Hx | now apply elem_of_nil in Hx].
    - rewrite (declare_all_flag Vars []); [reflexivity|].
      intros x. simpl. split; intros Hx;
        [now apply not_elem_of_empty in Hx | now apply elem_of_nil in Hx]. }
  split; vm_compute; reflexivity.
Qed.

(** The first two parts at the declaration [x, x]: the second [x] finds the
    first. *)
Lemma duplicate_declaration_reported_once_witness :
  DeclCheck.Scope (DeclCheck.declare (DeclCheck.declare DeclCheck.new "x") "x")
  = DeclCheck.Scope (DeclCheck.declare DeclCheck.new "x")
  /\ DeclCheck.HasError
       (DeclCheck.declare (DeclCheck.declare DeclCheck.new "x") "x") = true
  /\ DeclCheck.errs
       (DeclCheck.declare (DeclCheck.declare DeclCheck.new "x") "x")
     = DeclCheck.errs (DeclCheck.declare DeclCheck.new "x")
       ++ [DeclCheck.message DeclCheck.Twice "x"].
Proof.
  apply (proj1 duplicate_declaration_reported_once
           (DeclCheck.declare DeclCheck.new "x") "x").
  vm_compute. reflexivity.
Defined.

(** C10.  On a null tree [Sema::semantic] returns [false] and reports
    nothing: no check is made.  The text [1 2] is an instance: [parse]
    returns null for it, the semantic check of that result signals no error,
    and it is the driver's own test of the parse result that makes the tool
    fail. *)
Theorem semantic_of_null_tree :
  Sema.semantic None = (false, [])
  /\ parseText "1 2" = Some None
  /\ (Sema.semantic <$> parseText "1 2") = Some (false, [])
  /\ (status <$> main "1 2") = Some 1
  /\ (diagnostics <$> main "1 2")
     = Some ["Unexpected: 2" +:+ nl; "Syntax errors occured" +:+ nl].
Proof. repeat split; vm_compute; reflexivity. Qed.

(** * The code generator *)

Section CodeGenFacts.

Lemma sema_flag_mono (E : Expr) :
  forall C, DeclCheck.HasError C = true ->
            DeclCheck.HasError (DeclCheck.visit_Expr E C) = true.
Proof.
  induction E as [K Val | Op Left Right IHL IHR] using Expr_ind; intros C HC.
  - destruct K; simpl; [|exact HC].
    now destruct (bool_decide (Val ∈ DeclCheck.Scope C)).
  - simpl. destruct Right as [R|]; [|reflexivity].
    apply (IHR R eq_refl).
    destruct Left as [L|]; [now apply (IHL L eq_refl) | reflexivity].
Qed.

Lemma sema_scope (E : Expr) :
  forall C, DeclCheck.Scope (DeclCheck.visit_Expr E C) = DeclCheck.Scope C.
Proof.
  induction E as [K Val | Op Left Right IHL IHR] using Expr_ind; intros C.
  - destruct K; simpl; [|reflexivity].
    now destruct (bool_decide (Val ∈ DeclCheck.Scope C)).
  - simpl. destruct Right as [R|], Left as [L|]; simpl;
      rewrite ?(IHR R eq_refl), ?(IHL L eq_refl); reflexivity.
Qed.

Import ToIRVisitor.

(** A folded operation is a constant of the folder again. *)
Lemma foldBinary_foldable (Opc : BinaryOps) (l r : Value) :
  foldable (foldBinary Opc l r) = true.
Proof.
  destruct l as [a| | |], r as [b| | |]; try reflexivity. simpl.
  unfold foldInt.
  destruct Opc, a as [a|], b as [b|]; try reflexivity;
    try (destruct b as [|b|b]; try reflexivity);
    now destruct (_ && _).
Qed.

(** The two ways a builder request on non-null operands ends. *)
Lemma create_cases (Op : Operator) (l r : Value) (St : t) :
  (foldable l = true /\ foldable r = true
   /\ create Op (Some l) (Some r) St
      = Some (foldBinary (opcode Op).1 l r, St))
  \/ ((foldable l = false \/ foldable r = false)
      /\ create Op (Some l) (Some r) St
         = Some (insert (lower Op (Some l) (Some r)) St)).
Proof.
  unfold create. simpl.
  destruct (foldable l) eqn:Hl, (foldable r) eqn:Hr; simpl; auto.
Qed.

(** Visiting an expression appends arithmetic instructions and nothing
    else to the module. *)
Lemma visit_Expr_appends (E : Expr) :
  forall St St', visit_Expr E St = Some St' ->
    Functions (M St') = Functions (M St)
    /\ Globals (M St') = Globals (M St)
    /\ exists body, entry (M St') = entry (M St) ++ body
                    /\ Forall isArithmetic body.
Proof.
  induction E as [K Val | Op Left Right IHL IHR] using Expr_ind; intros St St'.
  - destruct K; simpl.
    + unfold lookupOrInsert. destruct (nameMap St !! Val); simpl;
        intros H; inversion H; subst; simpl; repeat split;
        exists []; now rewrite app_nil_r.
    + intros H; inversion H; subst; simpl; repeat split;
        exists []; now rewrite app_nil_r.
  - simpl. destruct Left as [L|]; [|discriminate]. simpl.
    destruct (visit_Expr L St) as [St1|] eqn:H1; [|discriminate]. simpl.
    destruct Right as [R|]; [|discriminate]. simpl.
    destruct (visit_Expr R St1) as [St2|] eqn:H2; [|discriminate]. simpl.
    destruct (IHL L eq_refl _ _ H1) as (F1 & G1 & b1 & E1 & A1).
    destruct (IHR R eq_refl _ _ H2) as (F2 & G2 & b2 & E2 & A2).
    destruct (V St1) as [l|]; [|discriminate].
    destruct (V St2) as [r|]; [|discriminate].
    destruct (create_cases Op l r St2) as [(_ & _ & ->)|(_ & ->)]; simpl;
      intros H; inversion H; subst; simpl.
    + split; [congruence|]. split; [congruence|].
      exists (b1 ++ b2).
      split; [rewrite E2, E1; now rewrite <- !app_assoc|].
      apply Forall_app; split; assumption.
    + split; [congruence|]. split; [congruence|].
      exists (b1 ++ b2 ++ [lower Op (Some l) (Some r)]).
      split; [rewrite E2, E1; now rewrite <- !app_assoc|].
      repeat (apply Forall_app; split); try assumption.
      constructor; [exact I | constructor].
Qed.

(** Every instruction a visit appends is one the operators select, on
    non-null operands. *)
Lemma visit_Expr_lowered (E : Expr) :
  forall St St', visit_Expr E St = Some St' ->
    exists body, entry (M St') = entry (M St) ++ body
                 /\ Forall (fun Inst => exists Op l r,
                                Inst = lower Op (Some l) (Some r)) body.
Proof.
  induction E as [K Val | Op Left Right IHL IHR] using Expr_ind; intros St St'.
  - destruct K; simpl.
    + unfold lookupOrInsert. destruct (nameMap St !! Val); simpl;
        intros H; inversion H; subst; simpl;
        exists []; now rewrite app_nil_r.
    + intros H; inversion H; subst; simpl.
      exists []; now rewrite app_nil_r.
  - simpl. destruct Left as [L|]; [|discriminate]. simpl.
    destruct (visit_Expr L St) as [St1|] eqn:H1; [|discriminate]. simpl.
    destruct Right as [R|]; [|discriminate]. simpl.
    destruct (visit_Expr R St1) as [St2|] eqn:H2; [|discriminate]. simpl.
    destruct (IHL L eq_refl _ _ H1) as (b1 & E1 & A1).
    destruct (IHR R eq_refl _ _ H2) as (b2 & E2 & A2).
    destruct (V St1) as [l|]; [|discriminate].
    destruct (V St2) as [r|]; [|discriminate].
    destruct (create_cases Op l r St2) as [(_ & _ & ->)|(_ & ->)]; simpl;
      intros H; inversion H; subst; simpl.
    + exists (b1 ++ b2).
      split; [rewrite E2, E1; now rewrite <- !app_assoc|].
      apply Forall_app; split; assumption.
    + exists (b1 ++ b2 ++ [lower Op (Some l) (Some r)]).
      split; [rewrite E2, E1; now rewrite <- !app_assoc|].
      repeat (apply Forall_app; split); try assumption.
      constructor; [now exists Op, l, r | constructor].
Qed.

(** A checked expression is generated without touching a null pointer, every
    identifier finds its value, and the result is no null value. *)
Lemma visit_Expr_validated (E : Expr) :
  forall C St,
    DeclCheck.HasError (DeclCheck.visit_Expr E C) = false ->
    (forall x, x ∈ DeclCheck.Scope C ->
               exists v, nameMap St !! x = Some (Some v)) ->
    exists St' v, visit_Expr E St = Some St'
                  /\ nameMap St' = nameMap St
                  /\ V St' = Some v.
Proof.
  induction E as [K Val | Op Left Right IHL IHR] using Expr_ind;
    intros C St Hok Hnames.
  - destruct K; simpl in *.
    + destruct (bool_decide (Val ∈ DeclCheck.Scope C)) eqn:Hin;
        [|discriminate].
      apply bool_decide_eq_true in Hin.
      destruct (Hnames _ Hin) as (v & Hv).
      unfold lookupOrInsert. rewrite Hv. simpl. now eexists _, _.
    + now eexists _, _.
  - simpl in Hok.
    destruct Right as [R|]; [|discriminate].
    destruct Left as [L|].
    2:{ rewrite sema_flag_mono in Hok; [discriminate | reflexivity]. }
    destruct (DeclCheck.HasError (DeclCheck.visit_Expr L C)) eqn:HL.
    { rewrite sema_flag_mono in Hok; [discriminate | exact HL]. }
    destruct (IHL L eq_refl C St HL Hnames) as (St1 & v1 & H1 & N1 & V1).
    destruct (IHR R eq_refl _ St1 Hok) as (St2 & v2 & H2 & N2 & V2).
    { intros x Hx. rewrite sema_scope in Hx. rewrite N1. now apply Hnames. }
    simpl. rewrite H1. simpl. rewrite H2. simpl. rewrite V1, V2.
    destruct (create_cases Op v1 v2 St2) as [(_ & _ & ->)|(_ & ->)]; simpl;
      eexists _, _; (split; [reflexivity|]); simpl;
      (split; [congruence | reflexivity]).
Qed.

(** Two names with the same string constant are the same name. *)
Lemma append_cancel_r (x y s : string) : x +:+ s = y +:+ s -> x = y.
Proof.
  revert y. induction x as [|c x IH]; intros [|d y] H.
  - reflexivity.
  - apply (f_equal String.length) in H.
    rewrite !length_append in H. simpl in H. lia.
  - apply (f_equal String.length) in H.
    rewrite !length_append in H. simpl in H. lia.
  - rewrite !append_cons in H. injection H as -> H. f_equal. now apply IH.
Qed.

(** One turn of the loop, for a name whose string constant is new. *)
Lemma readVar_fresh (St : t) (n : nat) (Var : string) :
  Var +:+ ".str" ∉ names (M St) ->
  readVar (St, n) Var
  = (mk (mkModule (Functions (M St)) (Globals (M St) ++ [stringConstant Var])
           (entry (M St) ++ [readCall Var]))
        (V St)
        (<[Var := Some (Instruction (length (entry (M St))))]> (nameMap St)),
     n).
Proof.
  intros H. unfold readVar, uniqueName. simpl.
  now rewrite bool_decide_eq_false_2 by exact H.
Qed.

(** The loop over declared names that are all different and new to the
    module: no string constant is renamed. *)
Lemma readVar_all (Vars : list string) :
  forall St n,
    NoDup Vars ->
    (forall x, x ∈ Vars -> x +:+ ".str" ∉ names (M St)) ->
    Functions (M (fold_left readVar Vars (St, n)).1) = Functions (M St)
    /\ Globals (M (fold_left readVar Vars (St, n)).1)
       = Globals (M St) ++ map stringConstant Vars
    /\ entry (M (fold_left readVar Vars (St, n)).1)
       = entry (M St) ++ map readCall Vars
    /\ (forall x, x ∈ Vars \/ (exists v, nameMap St !! x = Some (Some v)) ->
                  exists v, nameMap (fold_left readVar Vars (St, n)).1 !! x
                            = Some (Some v)).
Proof.
  induction Vars as [|Var Vars IH]; intros St n Hnd Hnew; simpl.
  - rewrite !app_nil_r. repeat split. intros x [Hx|Hx]; [|exact Hx].
    now apply elem_of_nil in Hx.
  - apply NoDup_cons in Hnd as [Hnin Hnd].
    rewrite readVar_fresh by (apply Hnew, list_elem_of_here).
    match goal with
    | |- context [fold_left readVar Vars (?S, n)] =>
        destruct (IH S n Hnd) as (HF & HG & HE & HN)
    end.
    { intros x Hx. unfold names. simpl.
      rewrite fmap_app, app_assoc. simpl.
      intros Hin. apply elem_of_app in Hin as [Hin|Hin].
      - apply (Hnew x); [now apply list_elem_of_further | exact Hin].
      - apply list_elem_of_singleton in Hin.
        apply append_cancel_r in Hin. subst x. contradiction. }
    rewrite HF, HG, HE. simpl. rewrite <- !app_assoc. repeat split.
    intros x Hx. apply HN.
    destruct (decide (x = Var)) as [->|Hne].
    + right. eexists. simpl. apply lookup_insert_eq.
    + destruct Hx as [Hx|Hx].
      * apply elem_of_cons in Hx as [Hx|Hx]; [contradiction | now left].
      * right. simpl. now rewrite lookup_insert_ne by congruence.
Qed.

(** The generator's state when the loop starts holds no string constant. *)
Lemma names_at_loop (x : string) :
  x +:+ ".str"
  ∉ names (M (createFunction "calc_read" (mkFunctionType Int32Ty [PtrTy])
                (createFunction "main"
                   (mkFunctionType Int32Ty [Int32Ty; PtrTy]) new))).
Proof.
  unfold names. simpl. intros H.
  assert (Hdot : forall y : string,
             x +:+ ".str" = y ->
             exists p, y = p +:+ ".str") by (intros y <-; now exists x).
  apply elem_of_cons in H as [H|H].
  - destruct (Hdot _ H) as (p & Hp).
    assert (String.length p = 0)%nat as Hp0.
    { apply (f_equal String.length) in Hp. rewrite length_append in Hp.
      simpl in Hp. lia. }
    destruct p; [discriminate | discriminate].
  - apply elem_of_cons in H as [H|H]; [|now apply elem_of_nil in H].
    destruct (Hdot _ H) as (p & Hp).
    assert (String.length p = 5)%nat as Hp5.
    { apply (f_equal String.length) in Hp. rewrite length_append in Hp.
      simpl in Hp. lia. }
    destruct p as [|c0 [|c1 [|c2 [|c3 [|c4 [|c5 p]]]]]]; discriminate.
Qed.

(** A tree the semantic check accepts is compiled. *)
Lemma compile_validated (Tree : AST) :
  (Sema.semantic (Some Tree)).1 = false ->
  exists Mo, CodeGen.compile (Some Tree) = Some Mo.
Proof.
  unfold Sema.semantic, CodeGen.compile, run. simpl.
  destruct Tree as [E | Vars E]; simpl; intros Hok.
  - destruct (visit_Expr_validated E DeclCheck.new
                (createFunction "main" (mkFunctionType Int32Ty [Int32Ty; PtrTy]) new)
                Hok) as (St' & v & -> & _).
    { intros x Hx. now apply not_elem_of_empty in Hx. }
    simpl. now eexists.
  - unfold DeclCheck.visit_WithDecl in Hok. unfold visit_WithDecl.
    destruct E as [E|].
    2:{ discriminate. }
    simpl.
    assert (Hnd : NoDup Vars).
    { apply declare_all_NoDup.
      destruct (DeclCheck.HasError (fold_left DeclCheck.declare Vars DeclCheck.new))
        eqn:Hd; [|reflexivity].
      now rewrite sema_flag_mono in Hok. }
    match goal with
    | |- context [visit_Expr E ?S] =>
        destruct (visit_Expr_validated E _ S Hok) as (St' & v & -> & _)
    end.
    { intros x Hx. rewrite declare_all_scope in Hx.
      apply readVar_all; [exact Hnd | intros y _; apply names_at_loop |].
      left.
      apply elem_of_union in Hx as [Hx|Hx];
        [now apply elem_of_list_to_set in Hx | now apply not_elem_of_empty in Hx]. }
    simpl. now eexists.
Qed.

End CodeGenFacts.

(** C2.  For a tree the semantic check accepts whose root is a declaration of
    the names [Vars], the generated [main] consists of: one call of
    [calc_read] per declared name, in the order of the declaration, each on
    the constant string holding that name; then the instructions of the body,
    all arithmetic; then one call of [calc_write] on the value the body left,
    which is not null; then the return of 0.  The module declares [main],
    [calc_read] and [calc_write] and holds one string constant per name. *)
Theorem declaration_reads_then_writes (Vars : list string) (E : option Expr) :
  (Sema.semantic (Some (WithDecl Vars E))).1 = false ->
  exists (Body : Expr) (St0 St1 : ToIRVisitor.t) (v : Value) (body : list Instr),
    E = Some Body
    /\ entry (ToIRVisitor.M St0) = map readCall Vars
    /\ ToIRVisitor.visit_Expr Body St0 = Some St1
    /\ entry (ToIRVisitor.M St1) = map readCall Vars ++ body
    /\ Forall isArithmetic body
    /\ ToIRVisitor.V St1 = Some v
    /\ CodeGen.compile (Some (WithDecl Vars E))
       = Some (mkModule
                 [mainFunction; readFunction; writeFunction]
                 (map stringConstant Vars)
                 (map readCall Vars ++ body
                  ++ [CallInst "calc_write" [Some v];
                      ReturnInst (Some (ConstantInt (Some 0)))])).
Proof.
  unfold Sema.semantic. simpl. unfold DeclCheck.visit_WithDecl.
  destruct E as [Body|]; [|discriminate]. intros Hok.
  assert (Hnd : NoDup Vars).
  { apply declare_all_NoDup.
    destruct (DeclCheck.HasError (fold_left DeclCheck.declare Vars DeclCheck.new))
      eqn:Hd; [|reflexivity].
    now rewrite sema_flag_mono in Hok. }
  set (St0 := (fold_left ToIRVisitor.readVar Vars
                 (ToIRVisitor.createFunction "calc_read"
                    (mkFunctionType Int32Ty [PtrTy])
                    (ToIRVisitor.createFunction "main"
                       (mkFunctionType Int32Ty [Int32Ty; PtrTy]) ToIRVisitor.new),
                  0%nat)).1).
  destruct (readVar_all Vars
              (ToIRVisitor.createFunction "calc_read"
                 (mkFunctionType Int32Ty [PtrTy])
                 (ToIRVisitor.createFunction "main"
                    (mkFunctionType Int32Ty [Int32Ty; PtrTy]) ToIRVisitor.new))
              0%nat Hnd (fun x _ => names_at_loop x))
    as (HF & HG & HE & HN).
  fold St0 in HF, HG, HE, HN. simpl in HF, HG, HE.
  destruct (visit_Expr_validated Body _ St0 Hok) as (St1 & v & H1 & _ & Hv).
  { intros x Hx. rewrite declare_all_scope in Hx. apply HN. left.
    apply elem_of_union in Hx as [Hx|Hx];
      [now apply elem_of_list_to_set in Hx | now apply not_elem_of_empty in Hx]. }
  destruct (visit_Expr_appends Body _ _ H1) as (HF1 & HG1 & body & HE1 & Hbody).
  exists Body, St0, St1, v, body.
  split; [reflexivity|]. split; [exact HE|]. split; [exact H1|].
  split; [now rewrite HE1, HE|]. split; [exact Hbody|]. split; [exact Hv|].
  unfold CodeGen.compile, ToIRVisitor.run. simpl.
  unfold ToIRVisitor.visit_WithDecl. simpl. fold St0. rewrite H1. simpl.
  rewrite Hv, HF1, HG1, HE1, HF, HG, HE. simpl.
  now rewrite <- !app_assoc.
Qed.


(** The declaration [with a, b: a*b - a/b]. *)
Lemma declaration_reads_then_writes_witness :
  exists (v : Value) (body : list Instr),
    CodeGen.compile
      (Some (WithDecl ["a"; "b"]
               (binary Minus (binary Mul (var "a") (var "b"))
                             (binary Div (var "a") (var "b")))))
    = Some (mkModule
              [mainFunction; readFunction; writeFunction]
              [stringConstant "a"; stringConstant "b"]
              ([readCall "a"; readCall "b"] ++ body
               ++ [CallInst "calc_write" [Some v];
                   ReturnInst (Some (ConstantInt (Some 0)))])).
Proof.
  destruct (declaration_reads_then_writes ["a"; "b"]
              (binary Minus (binary Mul (var "a") (var "b"))
                            (binary Div (var "a") (var "b"))))
    as (Body & St0 & St1 & v & body & _ & _ & _ & _ & _ & _ & H).
  - vm_compute. reflexivity.
  - exists v, body. exact H.
Defined.

(** C3 (as the code has it).  When the name of an identifier has no entry in
    the name table, the generator does not stop: the lookup enters the name
    with a null value and returns that null value as the value of the node,
    and generation goes on with it.  For a program that is one such
    identifier, the generated [main] calls [calc_write] on the null value and
    returns 0. *)
Theorem identifier_lookup_miss (Val : string) (St : ToIRVisitor.t) :
  ToIRVisitor.nameMap St !! Val = None ->
  ToIRVisitor.visit_Expr (Factor Ident Val) St
  = Some (ToIRVisitor.mk (ToIRVisitor.M St) None
            (<[Val := None]> (ToIRVisitor.nameMap St)))
  /\ CodeGen.compile (Some (ExprAST (Factor Ident Val)))
     = Some (mkModule [mainFunction; writeFunction] []
               [CallInst "calc_write" [None];
                ReturnInst (Some (ConstantInt (Some 0)))]).
Proof.
  intros Hmiss. split.
  - simpl. unfold ToIRVisitor.lookupOrInsert. now rewrite Hmiss.
  - unfold CodeGen.compile, ToIRVisitor.run. simpl.
    unfold ToIRVisitor.lookupOrInsert. simpl. now rewrite lookup_empty.
Qed.

(** The identifier [x] in the visitor's initial state. *)
Lemma identifier_lookup_miss_witness :
  ToIRVisitor.V <$> ToIRVisitor.visit_Expr (Factor Ident "x") ToIRVisitor.new
  = Some None.
Proof.
  rewrite (proj1 (identifier_lookup_miss "x" ToIRVisitor.new eq_refl)).
  reflexivity.
Defined.

(** The generator given the undeclared identifier [x] does not abort: it
    returns a module, whose [main] passes a null value to [calc_write]. *)
Lemma undeclared_identifier_is_compiled :
  CodeGen.compile (Some (ExprAST (Factor Ident "x")))
  = Some (mkModule [mainFunction; writeFunction] []
            [CallInst "calc_write" [None];
             ReturnInst (Some (ConstantInt (Some 0)))]).
Proof. vm_compute. reflexivity. Qed.

(** C4 (as the code has it).  For a binary-operation node the generator
    visits the left child, then the right child in the state the left one
    left, and then makes one request to the builder on the two values in that
    order, which must both be non-null: a no-signed-wrap [add], [sub] or
    [mul] for [+], [-] and [*], and [sdiv] for [/].  When one of the values is
    no constant, exactly that instruction is appended and is the value of the
    node.  When both are constants nothing is appended: the builder computes
    the operation while generating, and the value of the node is the
    constant; for two literals that is the sum, difference or product cut to
    32 bits, the quotient rounded towards zero, and the poison constant for a
    zero divisor.  A null value as an operand is dereferenced by the builder.
    Whatever the expression, nothing but these four kinds of instruction is
    emitted for it: no test of the divisor, no test for overflow, no trap. *)
Theorem binary_operation_lowering :
  (forall Op L R St St',
      ToIRVisitor.visit_Expr (BinaryOp Op L R) St = Some St' ->
      exists Lh Rh St1 St2 l r,
        L = Some Lh /\ R = Some Rh
        /\ ToIRVisitor.visit_Expr Lh St = Some St1
        /\ ToIRVisitor.visit_Expr Rh St1 = Some St2
        /\ ToIRVisitor.V St1 = Some l
        /\ ToIRVisitor.V St2 = Some r
        /\ Functions (ToIRVisitor.M St') = Functions (ToIRVisitor.M St2)
        /\ Globals (ToIRVisitor.M St') = Globals (ToIRVisitor.M St2)
        /\ ToIRVisitor.nameMap St' = ToIRVisitor.nameMap St2
        /\ (if foldable l && foldable r
            then entry (ToIRVisitor.M St') = entry (ToIRVisitor.M St2)
                 /\ ToIRVisitor.V St'
                    = Some (foldBinary match Op with
                                       | Plus => Add
                                       | Minus => Sub
                                       | Mul => IMul
                                       | Div => SDiv
                                       end l r)
            else entry (ToIRVisitor.M St')
                 = entry (ToIRVisitor.M St2)
                   ++ [match Op with
                       | Plus => BinaryOperator Add true
                       | Minus => BinaryOperator Sub true
                       | Mul => BinaryOperator IMul true
                       | Div => BinaryOperator SDiv false
                       end (Some l) (Some r)]
                 /\ ToIRVisitor.V St'
                    = Some (Instruction (length (entry (ToIRVisitor.M St2))))))
  /\ (forall Op x y a b St,
        getAsInteger x = Some a -> getAsInteger y = Some b ->
        ToIRVisitor.visit_Expr
          (BinaryOp Op (Some (Factor Number x)) (Some (Factor Number y))) St
        = Some (ToIRVisitor.mk (ToIRVisitor.M St)
                  (Some match Op with
                        | Plus => ConstantInt (Some (wrapInt32 (a + b)))
                        | Minus => ConstantInt (Some (wrapInt32 (a - b)))
                        | Mul => ConstantInt (Some (wrapInt32 (a * b)))
                        | Div =>
                            if (b =? 0) || ((a =? - 2 ^ 31) && (b =? -1))
                            then PoisonValue
                            else ConstantInt (Some (a ÷ b))
                        end)
                  (ToIRVisitor.nameMap St)))
  /\ (forall Op Lh Rh St St1 St2,
        ToIRVisitor.visit_Expr Lh St = Some St1 ->
        ToIRVisitor.visit_Expr Rh St1 = Some St2 ->
        ToIRVisitor.V St1 = None \/ ToIRVisitor.V St2 = None ->
        ToIRVisitor.visit_Expr (BinaryOp Op (Some Lh) (Some Rh)) St = None)
  /\ (forall E St St',
        ToIRVisitor.visit_Expr E St = Some St' ->
        exists body,
          entry (ToIRVisitor.M St') = entry (ToIRVisitor.M St) ++ body
          /\ Forall (fun Inst =>
                       exists l r,
                         Inst = BinaryOperator Add true (Some l) (Some r)
                         \/ Inst = BinaryOperator Sub true (Some l) (Some r)
                         \/ Inst = BinaryOperator IMul true (Some l) (Some r)
                         \/ Inst = BinaryOperator SDiv false (Some l) (Some r))
                    body).
Proof.
  split.
  { intros Op L R St St'. simpl.
    destruct L as [Lh|]; [|discriminate]. simpl.
    destruct (ToIRVisitor.visit_Expr Lh St) as [St1|] eqn:H1; [|discriminate].
    simpl. destruct R as [Rh|]; [|discriminate]. simpl.
    destruct (ToIRVisitor.visit_Expr Rh St1) as [St2|] eqn:H2; [|discriminate].
    simpl.
    destruct (ToIRVisitor.V St1) as [l|] eqn:Hl; [|discriminate].
    destruct (ToIRVisitor.V St2) as [r|] eqn:Hr; [|discriminate].
    unfold ToIRVisitor.create. simpl.
    intros H. exists Lh, Rh, St1, St2, l, r.
    destruct (foldable l && foldable r); simpl in H;
      inversion H; subst St'; simpl;
      repeat (split; [first [reflexivity | assumption | now destruct Op]|]);
      now destruct Op. }
  split.
  { intros Op x y a b St Ha Hb. simpl. rewrite Ha, Hb.
    unfold ToIRVisitor.create. simpl.
    destruct Op; try reflexivity.
    unfold ToIRVisitor.setV. simpl. do 3 f_equal.
    destruct (Z.eqb_spec b 0) as [->|Hb0]; [reflexivity|]. simpl.
    destruct b as [|b|b]; [contradiction| |]; reflexivity. }
  split.
  { intros Op Lh Rh St St1 St2 H1 H2 HV. simpl. rewrite H1. simpl.
    rewrite H2. simpl. unfold ToIRVisitor.create.
    destruct HV as [->| ->]; [reflexivity|].
    now destruct (ToIRVisitor.V St1). }
  { intros E St St' H.
    destruct (visit_Expr_lowered E St St' H) as (body & HE & Hbody).
    exists body. split; [exact HE|].
    eapply Forall_impl; [exact Hbody|].
    intros Inst (Op & l & r & ->). exists l, r. destruct Op; tauto. }
Qed.

(** The node [a/2] after the read of [a]: one [sdiv] after the call. *)
Lemma binary_operation_lowering_witness :
  exists St',
    ToIRVisitor.visit_Expr
      (BinaryOp Div (Some (Factor Ident "a")) (Some (Factor Number "2")))
      (ToIRVisitor.readVar (ToIRVisitor.new, 0%nat) "a").1 = Some St'
    /\ entry (ToIRVisitor.M St')
       = [readCall "a";
          BinaryOperator SDiv false (Some (Instruction 0))
            (Some (ConstantInt (Some 2)))]
    /\ ToIRVisitor.V St' = Some (Instruction 1).
Proof.
  eexists. split; [vm_compute; reflexivity|].
  destruct (proj1 binary_operation_lowering Div
              (Some (Factor Ident "a")) (Some (Factor Number "2"))
              (ToIRVisitor.readVar (ToIRVisitor.new, 0%nat) "a").1 _ eq_refl)
    as (Lh & Rh & St1 & St2 & l & r & HL & HR & H1 & H2 & Hl & Hr & _ & _ & _ & HE).
  inversion HL; subst Lh. inversion HR; subst Rh.
  vm_compute in H1. inversion H1; subst St1.
  vm_compute in H2. inversion H2; subst St2.
  vm_compute in Hl. inversion Hl; subst l.
  vm_compute in Hr. inversion Hr; subst r.
  exact HE.
Defined.

(** Not every node yields an operation, and an overflow is not trapped.  For
    [6/2] the tool emits no division: the unit writes the constant 3.  For
    [2147483647+1] it emits no addition and no test: the unit writes the
    constant the sum wraps to, and exits with status 0.  For [with a: a+1]
    it emits one no-signed-wrap [add] and no test; run on the line
    [2147483647] the unit goes on to its end with a poison value and exits
    with status 0. *)
Lemma overflow_is_not_trapped :
  (output <$> main "6/2")
  = Some (Some (mkModule [mainFunction; writeFunction] []
                  [CallInst "calc_write" [Some (ConstantInt (Some 3))];
                   ReturnInst (Some (ConstantInt (Some 0)))]))
  /\ (output <$> main "2147483647+1")
     = Some (Some (mkModule [mainFunction; writeFunction] []
                     [CallInst "calc_write"
                        [Some (ConstantInt (Some (-2147483648)))];
                      ReturnInst (Some (ConstantInt (Some 0)))]))
  /\ evaluate "2147483647+1" [] = Some (Exited 0 [Some (-2147483648)])
  /\ (output <$> main "with a: a+1")
     = Some (Some (mkModule [mainFunction; readFunction; writeFunction]
                     [stringConstant "a"]
                     [readCall "a";
                      BinaryOperator Add true (Some (Instruction 0))
                        (Some (ConstantInt (Some 1)));
                      CallInst "calc_write" [Some (Instruction 1)];
                      ReturnInst (Some (ConstantInt (Some 0)))]))
  /\ evaluate "with a: a+1" ["2147483647"] = Some (Exited 0 [None]).
Proof. repeat split; vm_compute; reflexivity. Qed.

(** C5.  For every source text the driver returns.  It exits with status 1
    and generates nothing when [parse] returns no tree or has recorded an
    error; it exits with status 1 and generates nothing when the parse is
    clean and the semantic check signals an error; otherwise it exits with
    status 0 and its output is the module generated for the tree.  So code is
    generated exactly when both phases are clean. *)
Theorem driver_exit_status (Input : string) :
  exists Tree P r,
    Parser.parse (Parser.new (mkLexer Input)) = Some (Tree, P)
    /\ main Input = Some r
    /\ (status r = 0 \/ status r = 1)
    /\ (Tree = None \/ Parser.hasError P = true ->
        status r = 1 /\ output r = None)
    /\ (Tree <> None -> Parser.hasError P = false ->
        (Sema.semantic Tree).1 = true ->
        status r = 1 /\ output r = None)
    /\ (Tree <> None -> Parser.hasError P = false ->
        (Sema.semantic Tree).1 = false ->
        status r = 0 /\ output r = CodeGen.compile Tree /\ output r <> None)
    /\ (output r <> None <->
        Tree <> None /\ Parser.hasError P = false
        /\ (Sema.semantic Tree).1 = false).
Proof.
  destruct (parse_fuel_total (Parser.enough (Parser.new (mkLexer Input)))
              (Parser.new (mkLexer Input))) as (Tree & P & Hparse & _);
    [lia|].
  fold (Parser.parse (Parser.new (mkLexer Input))) in Hparse.
  unfold main. rewrite Hparse. simpl.
  destruct Tree as [Tree|]; simpl.
  2:{ eexists None, P, _. split; [reflexivity|]. split; [reflexivity|]. simpl.
      repeat split;
      first [tauto | congruence | intros (? & ? & ?); congruence
            | intros [?|?]; congruence | intros ? ? ?; congruence]. }
  destruct (Parser.hasError P) eqn:HP; simpl.
  { eexists (Some Tree), P, _. split; [reflexivity|]. split; [reflexivity|].
    simpl. repeat split;
      first [tauto | congruence | intros (? & ? & ?); congruence
            | intros [?|?]; congruence | intros ? ? ?; congruence]. }
  destruct (DeclCheck.hasError (DeclCheck.accept Tree DeclCheck.new)) eqn:Hsem;
    simpl.
  { eexists (Some Tree), P, _. split; [reflexivity|]. split; [reflexivity|].
    simpl. repeat split;
      first [tauto | congruence | intros (? & ? & ?); congruence
            | intros [?|?]; congruence | intros ? ? ?; congruence]. }
  destruct (compile_validated Tree) as (Mo & HMo); [exact Hsem|].
  rewrite HMo. simpl.
  eexists (Some Tree), P, _. split; [reflexivity|]. split; [reflexivity|].
  simpl. repeat split;
    first [tauto | congruence | intros (? & ? & ?); congruence
          | intros ? ? ?; congruence
          | match goal with H : _ \/ _ |- _ => destruct H; congruence end].
Qed.

(** The driver on the text [with x: y]: the parse is clean, the check is not. *)
Lemma driver_exit_status_witness :
  exists r, main "with x: y" = Some r /\ status r = 1 /\ output r = None.
Proof.
  destruct (driver_exit_status "with x: y")
    as (Tree & P & r & Hparse & Hmain & _ & _ & Hsema & _).
  exists r. split; [exact Hmain|].
  vm_compute in Hparse. inversion Hparse; subst Tree P.
  apply Hsema; [discriminate | reflexivity | vm_compute; reflexivity].
Defined.

(** * Further properties of the parser *)

Section ParserInvariants.

Import Parser.

(** A property of the parser's state that [advance] and [error] keep is kept
    by every function of the parser. *)
Variable Q : t -> Prop.
Hypothesis Q_advance : forall P, Q P -> Q (advance P).
Hypothesis Q_error : forall P, Q P -> Q (error P).

Lemma expect_keeps (K : TokenKind) (P : t) : Q P -> Q (expect K P).2.
Proof. unfold expect. destruct (negb (isKind (Tok P) K)); simpl; auto. Qed.

Lemma consume_keeps (K : TokenKind) (P : t) : Q P -> Q (consume K P).2.
Proof.
  unfold consume, expect. destruct (negb (isKind (Tok P) K)); simpl; auto.
Qed.

Lemma skipUntil_keeps (stop : Token -> bool) (n : nat) (P P' : t) :
  skipUntil n stop P = Some P' -> Q P -> Q P'.
Proof.
  intros H HQ. destruct (skipUntil_spec _ _ _ _ H) as (k & -> & _).
  clear H. induction k as [|k IH]; simpl; auto.
Qed.

Lemma parseFactor_default_keeps (n : nat) (Res : option Expr) (P : t) r P' :
  parseFactor_default n Res P = Some (r, P') -> Q P -> Q P'.
Proof.
  unfold parseFactor_default. intros H HQ.
  destruct (skipUntil n atSync _) as [P1|] eqn:Hs; [|discriminate].
  simpl in H. injection H as _ <-. apply (skipUntil_keeps _ _ _ _ Hs).
  destruct Res; auto.
Qed.

Lemma parse_functions_keep (n : nat) :
  (forall P r P', parseExpr n P = Some (r, P') -> Q P -> Q P')
  /\ (forall Left P r P', parseExpr_loop n Left P = Some (r, P') -> Q P -> Q P')
  /\ (forall P r P', parseTerm n P = Some (r, P') -> Q P -> Q P')
  /\ (forall Left P r P', parseTerm_loop n Left P = Some (r, P') -> Q P -> Q P')
  /\ (forall P r P', parseFactor n P = Some (r, P') -> Q P -> Q P').
Proof.
  induction n as [|n (IHE & IHEL & IHT & IHTL & IHF)].
  { repeat split; intros; discriminate. }
  repeat split.
  - intros P r P'. rewrite parseExpr_S.
    destruct (parseTerm n P) as [[L P1]|] eqn:HT; [|discriminate]. simpl.
    intros H HQ. eapply IHEL; [exact H|]. eapply IHT; eauto.
  - intros Left P r P'. rewrite parseExpr_loop_S.
    destruct (isOneOf (Tok P) [plus; minus]).
    + destruct (parseTerm n (advance P)) as [[R P1]|] eqn:HT; [|discriminate].
      simpl. intros H HQ. eapply IHEL; [exact H|]. eapply IHT; eauto.
    + intros H HQ. inversion H; subst. exact HQ.
  - intros P r P'. rewrite parseTerm_S.
    destruct (parseFactor n P) as [[L P1]|] eqn:HF; [|discriminate]. simpl.
    intros H HQ. eapply IHTL; [exact H|]. eapply IHF; eauto.
  - intros Left P r P'. rewrite parseTerm_loop_S.
    destruct (isOneOf (Tok P) [star; slash]).
    + destruct (parseFactor n (advance P)) as [[R P1]|] eqn:HF; [|discriminate].
      simpl. intros H HQ. eapply IHTL; [exact H|]. eapply IHF; eauto.
    + intros H HQ. inversion H; subst. exact HQ.
  - intros P r P'. rewrite parseFactor_S.
    destruct (Kind (Tok P));
      try (intros H HQ; eapply parseFactor_default_keeps; eauto; fail);
      try (intros H HQ; inversion H; subst; auto; fail).
    destruct (parseExpr n (advance P)) as [[Res P1]|] eqn:HE; [|discriminate].
    simpl. intros H HQ.
    assert (HQ1 : Q P1) by (eapply IHE; eauto).
    pose proof (consume_keeps r_paren P1 HQ1) as HQ2.
    destruct (negb (consume r_paren P1).1).
    + inversion H; subst. exact HQ2.
    + eapply parseFactor_default_keeps; eauto.
Qed.

Lemma parseCalc_error_keeps (n : nat) (P : t) r P' :
  parseCalc_error n P = Some (r, P') -> Q P -> Q P'.
Proof.
  unfold parseCalc_error. intros H HQ.
  destruct (skipUntil n _ P) as [P1|] eqn:Hs; [|discriminate].
  simpl in H. inversion H; subst. eapply skipUntil_keeps; eauto.
Qed.

Lemma parseCalc_vars_keeps (n : nat) (Vars : list string) (P : t) r :
  parseCalc_vars n Vars P = Some r -> Q P ->
  Q (match r with inl P' => P' | inr (_, P') => P' end).
Proof.
  revert Vars P. induction n as [|n IH]; intros Vars P; [discriminate|].
  simpl. destruct (isKind (Tok P) comma).
  - pose proof (expect_keeps ident (advance P)) as He.
    destruct (expect ident (advance P)) as [[] P1]; simpl in He.
    + intros H HQ. inversion H; subst. auto.
    + intros H HQ. eapply IH; [exact H|]. auto.
  - intros H HQ. inversion H; subst. exact HQ.
Qed.

Lemma parseCalc_body_keeps (n : nat) (Vars : list string) (P : t) r P' :
  parseCalc_body n Vars P = Some (r, P') -> Q P -> Q P'.
Proof.
  unfold parseCalc_body. intros H HQ.
  destruct (parseExpr n P) as [[E P1]|] eqn:HE; [|discriminate]. simpl in H.
  assert (HQ1 : Q P1) by (eapply (proj1 (parse_functions_keep n)); eauto).
  pose proof (expect_keeps eoi P1 HQ1) as HQ2.
  destruct (expect eoi P1) as [[] P2]; simpl in HQ2.
  - eapply parseCalc_error_keeps; eauto.
  - destruct (bool_decide (Vars = [])); inversion H; subst; exact HQ2.
Qed.

Lemma parseCalc_keeps (n : nat) (P : t) r P' :
  parseCalc n P = Some (r, P') -> Q P -> Q P'.
Proof.
  unfold parseCalc. intros H HQ.
  destruct (isKind (Tok P) KW_with); [|eapply parseCalc_body_keeps; eauto].
  pose proof (expect_keeps ident (advance P) (Q_advance _ HQ)) as HQ1.
  destruct (expect ident (advance P)) as [[] P1]; simpl in HQ1;
    [eapply parseCalc_error_keeps; eauto|].
  destruct (parseCalc_vars n _ (advance P1)) as [r1|] eqn:Hv; [|discriminate].
  pose proof (parseCalc_vars_keeps _ _ _ _ Hv (Q_advance _ HQ1)) as HQ2.
  simpl in H. destruct r1 as [P2|[Vars P2]];
    [eapply parseCalc_error_keeps; eauto|].
  pose proof (consume_keeps colon P2 HQ2) as HQ3.
  destruct (consume colon P2) as [[] P3]; simpl in HQ3;
    [eapply parseCalc_error_keeps; eauto | eapply parseCalc_body_keeps; eauto].
Qed.

Lemma parse_fuel_keeps (n : nat) (P : t) r P' :
  parse_fuel n P = Some (r, P') -> Q P -> Q P'.
Proof.
  unfold parse_fuel. intros H HQ.
  destruct (parseCalc n P) as [[Res P1]|] eqn:Hc; [|discriminate]. simpl in H.
  pose proof (expect_keeps eoi P1 (parseCalc_keeps _ _ _ _ Hc HQ)) as HQ1.
  destruct (expect eoi P1) as [e P2]. inversion H; subst. exact HQ1.
Qed.

End ParserInvariants.

Section ParserResults.

Import Parser.

Lemma advance_HasError (P : t) : HasError (advance P) = HasError P.
Proof. unfold advance. now destruct (next (Tok P) (Lex P)). Qed.

Lemma advance_errs (P : t) : errs (advance P) = errs P.
Proof. unfold advance. now destruct (next (Tok P) (Lex P)). Qed.

Lemma flag_kept_by_advance (P : t) :
  HasError P = true -> HasError (advance P) = true.
Proof. now rewrite advance_HasError. Qed.

Lemma flag_kept_by_error (P : t) : HasError P = true -> HasError (error P) = true.
Proof. reflexivity. Qed.

(** A state that ends clean started clean. *)
Lemma clean_before {A : Type} (f : t -> option (A * t)) :
  (forall P r P', f P = Some (r, P') -> HasError P = true -> HasError P' = true) ->
  forall P r P', f P = Some (r, P') -> HasError P' = false -> HasError P = false.
Proof.
  intros Hf P r P' H Hc. destruct (HasError P) eqn:HP; [|reflexivity].
  rewrite (Hf _ _ _ H HP) in Hc. discriminate.
Qed.

Lemma expect_failed (K : TokenKind) (P : t) :
  (expect K P).1 = true -> HasError (expect K P).2 = true.
Proof. unfold expect. now destruct (negb (isKind (Tok P) K)). Qed.

Lemma consume_failed (K : TokenKind) (P : t) :
  (consume K P).1 = true -> HasError (consume K P).2 = true.
Proof. unfold consume, expect. now destruct (negb (isKind (Tok P) K)). Qed.

Lemma parseFactor_default_clean (n : nat) (Res : option Expr) (P : t) r P' :
  parseFactor_default n Res P = Some (r, P') ->
  HasError P' = false -> r = Res /\ Res <> None /\ HasError P = false.
Proof.
  intros H Hc.
  pose proof (parseFactor_default_keeps _ flag_kept_by_advance flag_kept_by_error
                _ _ _ _ _ H) as Hk.
  unfold parseFactor_default in H.
  destruct (skipUntil n atSync _) as [P1|] eqn:Hs; [|discriminate].
  simpl in H. injection H as <- <-.
  pose proof (skipUntil_keeps _ flag_kept_by_advance _ _ _ _ Hs) as Hk1.
  split; [reflexivity|]. destruct Res as [e|].
  - split; [discriminate|]. destruct (HasError P); [|reflexivity].
    rewrite Hk in Hc by reflexivity. discriminate.
  - rewrite Hk1 in Hc by reflexivity. discriminate.
Qed.

(** With the flag clear at the end, each function of the parser returned a
    tree without a null child. *)
Lemma parse_functions_clean (n : nat) :
  (forall P E P', parseExpr n P = Some (E, P') -> HasError P' = false ->
     exists e, E = Some e /\ wellFormed e = true)
  /\ (forall Left P E P', parseExpr_loop n Left P = Some (E, P') ->
       HasError P' = false ->
       (exists l, Left = Some l /\ wellFormed l = true) ->
       exists e, E = Some e /\ wellFormed e = true)
  /\ (forall P E P', parseTerm n P = Some (E, P') -> HasError P' = false ->
       exists e, E = Some e /\ wellFormed e = true)
  /\ (forall Left P E P', parseTerm_loop n Left P = Some (E, P') ->
       HasError P' = false ->
       (exists l, Left = Some l /\ wellFormed l = true) ->
       exists e, E = Some e /\ wellFormed e = true)
  /\ (forall P E P', parseFactor n P = Some (E, P') -> HasError P' = false ->
       exists e, E = Some e /\ wellFormed e = true).
Proof.
  induction n as [|n (IHE & IHEL & IHT & IHTL & IHF)].
  { repeat split; intros; discriminate. }
  pose proof (parse_functions_keep _ flag_kept_by_advance flag_kept_by_error n)
    as (KE & KEL & KT & KTL & KF).
  repeat split.
  - intros P E P'. rewrite parseExpr_S.
    destruct (parseTerm n P) as [[L P1]|] eqn:HT; [|discriminate]. simpl.
    intros H Hc. eapply IHEL; [exact H | exact Hc |].
    eapply IHT; [exact HT|].
    destruct (HasError P1) eqn:H1; [|reflexivity].
    rewrite (KEL _ _ _ _ H H1) in Hc. discriminate.
  - intros Left P E P'. rewrite parseExpr_loop_S.
    destruct (isOneOf (Tok P) [plus; minus]).
    + destruct (parseTerm n (advance P)) as [[R P1]|] eqn:HT; [|discriminate].
      simpl. intros H Hc (l & -> & Hl). eapply IHEL; [exact H | exact Hc |].
      destruct (IHT _ _ _ HT) as (r & -> & Hr).
      { destruct (HasError P1) eqn:H1; [|reflexivity].
        rewrite (KEL _ _ _ _ H H1) in Hc. discriminate. }
      eexists. split; [reflexivity|]. simpl. now rewrite Hl, Hr.
    + intros H _ Hl. now inversion H; subst.
  - intros P E P'. rewrite parseTerm_S.
    destruct (parseFactor n P) as [[L P1]|] eqn:HF; [|discriminate]. simpl.
    intros H Hc. eapply IHTL; [exact H | exact Hc |].
    eapply IHF; [exact HF|].
    destruct (HasError P1) eqn:H1; [|reflexivity].
    rewrite (KTL _ _ _ _ H H1) in Hc. discriminate.
  - intros Left P E P'. rewrite parseTerm_loop_S.
    destruct (isOneOf (Tok P) [star; slash]).
    + destruct (parseFactor n (advance P)) as [[R P1]|] eqn:HF; [|discriminate].
      simpl. intros H Hc (l & -> & Hl). eapply IHTL; [exact H | exact Hc |].
      destruct (IHF _ _ _ HF) as (r & -> & Hr).
      { destruct (HasError P1) eqn:H1; [|reflexivity].
        rewrite (KTL _ _ _ _ H H1) in Hc. discriminate. }
      eexists. split; [reflexivity|]. simpl. now rewrite Hl, Hr.
    + intros H _ Hl. now inversion H; subst.
  - intros P E P'. rewrite parseFactor_S.
    destruct (Kind (Tok P));
      try (intros H Hc;
           destruct (parseFactor_default_clean _ _ _ _ _ H Hc) as (_ & Hn & _);
           now elim Hn);
      try (intros H _; inversion H; subst; eexists; split; reflexivity).
    destruct (parseExpr n (advance P)) as [[Res P1]|] eqn:HE; [|discriminate].
    simpl. pose proof (consume_failed r_paren P1) as Hfail.
    destruct (consume r_paren P1) as [[] P2] eqn:Hcons; simpl in *.
    + intros H Hc.
      destruct (parseFactor_default_clean _ _ _ _ _ H Hc) as (_ & _ & H2).
      rewrite Hfail in H2 by reflexivity. discriminate.
    + intros H Hc. inversion H; subst. eapply IHE; [exact HE|].
      destruct (HasError P1) eqn:H1; [|reflexivity].
      pose proof (consume_keeps _ flag_kept_by_advance flag_kept_by_error
                    r_paren P1 H1) as Hk.
      rewrite Hcons in Hk. simpl in Hk. rewrite Hk in Hc. discriminate.
Qed.

Lemma parseCalc_error_flag (n : nat) (P : t) r P' :
  parseCalc_error n P = Some (r, P') -> HasError P = true -> HasError P' = true.
Proof.
  apply (parseCalc_error_keeps _ flag_kept_by_advance).
Qed.

Lemma parseCalc_vars_names (n : nat) (Vars : list string) (P : t) Vars' P' :
  parseCalc_vars n Vars P = Some (inr (Vars', P')) ->
  exists more, Vars' = Vars ++ more.
Proof.
  revert Vars P. induction n as [|n IH]; intros Vars P; [discriminate|].
  simpl. destruct (isKind (Tok P) comma).
  - destruct (expect ident (advance P)) as [[] P1]; [discriminate|].
    intros H. destruct (IH _ _ H) as (more & ->).
    eexists. now rewrite <- app_assoc.
  - intros H. inversion H; subst. exists []. now rewrite app_nil_r.
Qed.

Lemma parseCalc_vars_failed (n : nat) (Vars : list string) (P : t) P' :
  parseCalc_vars n Vars P = Some (inl P') -> HasError P' = true.
Proof.
  revert Vars P. induction n as [|n IH]; intros Vars P; [discriminate|].
  simpl. destruct (isKind (Tok P) comma); [|discriminate].
  pose proof (expect_failed ident (advance P)) as Hf.
  destruct (expect ident (advance P)) as [[] P1]; simpl in Hf.
  - intros H. inversion H; subst. now apply Hf.
  - apply IH.
Qed.

Lemma parseCalc_body_clean (n : nat) (Vars : list string) (P : t) Tree P' :
  parseCalc_body n Vars P = Some (Tree, P') -> HasError P' = false ->
  exists e, wellFormed e = true
            /\ Tree = Some (if bool_decide (Vars = []) then ExprAST e
                            else WithDecl Vars (Some e)).
Proof.
  unfold parseCalc_body. intros H Hc.
  destruct (parseExpr n P) as [[E P1]|] eqn:HE; [|discriminate]. simpl in H.
  pose proof (expect_failed eoi P1) as Hf.
  pose proof (expect_keeps _ flag_kept_by_error eoi P1) as Hk.
  destruct (expect eoi P1) as [[] P2]; simpl in Hf, Hk.
  - rewrite (parseCalc_error_flag _ _ _ _ H) in Hc by now apply Hf.
    discriminate.
  - assert (HP2 : P2 = P') by (destruct (bool_decide (Vars = [])); congruence).
    subst P2.
    destruct (proj1 (parse_functions_clean n) _ _ _ HE) as (e & -> & He).
    { destruct (HasError P1); [|reflexivity]. rewrite Hk in Hc by reflexivity.
      discriminate. }
    exists e. split; [exact He|].
    destruct (bool_decide (Vars = [])); now inversion H.
Qed.

Lemma parseCalc_clean (n : nat) (P : t) Tree P' :
  parseCalc n P = Some (Tree, P') -> HasError P' = false ->
  exists T, Tree = Some T /\ wellFormedAST T = true.
Proof.
  unfold parseCalc. intros H Hc.
  assert (Hbody : forall Vars P0,
             parseCalc_body n Vars P0 = Some (Tree, P') ->
             exists T, Tree = Some T /\ wellFormedAST T = true).
  { intros Vars P0 Hb.
    destruct (parseCalc_body_clean _ _ _ _ _ Hb Hc) as (e & He & ->).
    eexists. split; [reflexivity|].
    destruct (bool_decide (Vars = [])) eqn:HV; simpl; [exact He|].
    now rewrite HV, He. }
  assert (Herr : forall P0, parseCalc_error n P0 = Some (Tree, P') ->
                            HasError P0 = true -> False).
  { intros P0 He HP0. rewrite (parseCalc_error_flag _ _ _ _ He HP0) in Hc.
    discriminate. }
  destruct (isKind (Tok P) KW_with); [|now apply (Hbody [] P)].
  pose proof (expect_failed ident (advance P)) as Hf.
  destruct (expect ident (advance P)) as [[] P1]; simpl in Hf.
  { exfalso. eapply Herr; eauto. }
  destruct (parseCalc_vars n _ (advance P1)) as [r1|] eqn:Hv; [|discriminate].
  simpl in H. destruct r1 as [P2|[Vars P2]].
  { exfalso. eapply Herr; eauto. eapply parseCalc_vars_failed; eauto. }
  pose proof (consume_failed colon P2) as Hf2.
  destruct (consume colon P2) as [[] P3]; simpl in Hf2.
  { exfalso. eapply Herr; eauto. }
  now apply (Hbody Vars P3).
Qed.

End ParserResults.

(** A parse that ends with the flag clear returned a well-formed tree. *)
Lemma parse_fuel_clean (fuel : nat) (P : Parser.t) Tree P' :
  Parser.parse_fuel fuel P = Some (Tree, P') ->
  Parser.hasError P' = false ->
  exists T, Tree = Some T /\ wellFormedAST T = true.
Proof.
  unfold Parser.parse_fuel, Parser.hasError. intros H Hc.
  destruct (Parser.parseCalc fuel P) as [[Res P1]|] eqn:Hcalc; [|discriminate].
  simpl in H.
  pose proof (expect_keeps _ flag_kept_by_error eoi P1) as Hk.
  destruct (Parser.expect eoi P1) as [e P2]. simpl in Hk.
  inversion H; subst. apply (parseCalc_clean _ _ _ _ Hcalc).
  destruct (Parser.HasError P1); [|reflexivity].
  rewrite Hk in Hc by reflexivity. discriminate.
Qed.

(** X1.  When [parse] ends with the failure flag clear, it returned a tree,
    and the tree has no null child; a declaration holds at least one name.
    Hence a null tree, and a tree with a null operand, always come with the
    flag set. *)
Theorem clean_parse_is_well_formed (fuel : nat) (P : Parser.t) Tree P' :
  Parser.parse_fuel fuel P = Some (Tree, P') ->
  Parser.hasError P' = false ->
  exists T, Tree = Some T /\ wellFormedAST T = true.
Proof. apply parse_fuel_clean. Qed.

(** The text [(a+b)*2]. *)
Lemma clean_parse_is_well_formed_witness :
  exists T, parseText "(a+b)*2" = Some (Some T) /\ wellFormedAST T = true.
Proof.
  destruct (clean_parse_is_well_formed
              (Parser.enough (Parser.new (mkLexer "(a+b)*2")))
              (Parser.new (mkLexer "(a+b)*2"))
              (Some (ExprAST (BinaryOp Mul
                 (Some (BinaryOp Plus (Some (Factor Ident "a"))
                                      (Some (Factor Ident "b"))))
                 (Some (Factor Number "2")))))
              (Parser.mk (mkLexer "") (mkToken eoi "2") false []))
    as (T & HT & Hwf).
  - vm_compute. reflexivity.
  - reflexivity.
  - exists T. split; [|exact Hwf]. rewrite <- HT. vm_compute. reflexivity.
Defined.

Section ParserDiagnostics.

Import Parser.

Lemma errs_grow_advance (P0 P : t) :
  (exists more, errs P = errs P0 ++ more /\ Forall unexpectedLine more) ->
  exists more, errs (advance P) = errs P0 ++ more /\ Forall unexpectedLine more.
Proof. now rewrite advance_errs. Qed.

Lemma errs_grow_error (P0 P : t) :
  (exists more, errs P = errs P0 ++ more /\ Forall unexpectedLine more) ->
  exists more, errs (error P) = errs P0 ++ more /\ Forall unexpectedLine more.
Proof.
  intros (more & Hm & Hall). simpl. rewrite Hm, <- app_assoc.
  eexists. split; [reflexivity|]. apply Forall_app. split; [exact Hall|].
  constructor; [now eexists | constructor].
Qed.

Lemma flag_iff_errs_advance (P : t) :
  (HasError P = true <-> errs P <> []) ->
  (HasError (advance P) = true <-> errs (advance P) <> []).
Proof. now rewrite advance_HasError, advance_errs. Qed.

Lemma flag_iff_errs_error (P : t) :
  (HasError P = true <-> errs P <> []) ->
  (HasError (error P) = true <-> errs (error P) <> []).
Proof.
  intros _. simpl. split; [|reflexivity].
  intros _ H. now apply app_eq_nil in H as [_ H].
Qed.

End ParserDiagnostics.

(** X2.  [parse] never clears the failure flag and never drops a
    diagnostic: what it writes to the error stream is appended, and every
    line it appends is an [Unexpected: ...] line.  Started from a state where
    the flag is set exactly when something was written (as the constructor
    leaves it, clear and empty), it ends in such a state: [hasError()] is true
    exactly when at least one line was written. *)
Theorem parser_flag_and_diagnostics (fuel : nat) (P : Parser.t) Tree P' :
  Parser.parse_fuel fuel P = Some (Tree, P') ->
  (Parser.HasError P = true -> Parser.HasError P' = true)
  /\ (exists more, Parser.errs P' = Parser.errs P ++ more
                   /\ Forall unexpectedLine more)
  /\ ((Parser.HasError P = true <-> Parser.errs P <> []) ->
      (Parser.HasError P' = true <-> Parser.errs P' <> [])).
Proof.
  intros H. split; [|split].
  - apply (parse_fuel_keeps _ flag_kept_by_advance flag_kept_by_error _ _ _ _ H).
  - apply (parse_fuel_keeps _ (errs_grow_advance P) (errs_grow_error P) _ _ _ _ H).
    exists []. split; [now rewrite app_nil_r | constructor].
  - apply (parse_fuel_keeps _ flag_iff_errs_advance flag_iff_errs_error _ _ _ _ H).
Qed.

(** The text [(1 + : 2], with two errors. *)
Lemma parser_flag_and_diagnostics_witness :
  exists P', (snd <$> Parser.parse (Parser.new (mkLexer "(1 + : 2"))) = Some P'
             /\ Parser.errs P' = ["Unexpected: :" +:+ nl; "Unexpected: 2" +:+ nl]
             /\ (Parser.HasError P' = true <-> Parser.errs P' <> []).
Proof.
  eexists. split; [vm_compute; reflexivity|]. split; [reflexivity|].
  refine (proj2 (proj2 (parser_flag_and_diagnostics
            (Parser.enough (Parser.new (mkLexer "(1 + : 2")))
            (Parser.new (mkLexer "(1 + : 2")) _ _ _)) _).
  - vm_compute. reflexivity.
  - vm_compute. split; [discriminate | intros H; now elim H].
Defined.

Section Cursor.

Lemma append_assoc (a b c : string) : (a +:+ b) +:+ c = a +:+ (b +:+ c).
Proof.
  induction a as [|x a IH]; [reflexivity|].
  rewrite !append_cons. now rewrite IH.
Qed.

(** What one call of [next] passes over: white space, then the text of the
    token it forms (nothing at the end of input). *)
Lemma next_passes (token : Token) (L : Lexer) :
  exists ws c,
    BufferPtr L = ws +:+ skipWhitespace (BufferPtr L)
    /\ skipWhitespace (BufferPtr L) = c +:+ BufferPtr (next token L).2.
Proof.
  destruct (skipWhitespace_spec (BufferPtr L)) as (ws & Hp & _ & _).
  exists ws. unfold next.
  destruct (skipWhitespace (BufferPtr L)) as [|c p1] eqn:Hs.
  { exists EmptyString. now split. }
  destruct (Ascii.eqb c zero).
  { exists EmptyString. now split. }
  destruct (charinfo.isLetter c).
  { destruct (scanWhile_spec charinfo.isLetter p1 eq_refl) as (run & Hrun & _).
    exists (String c run). split; [exact Hp|]. simpl.
    now rewrite append_cons, <- Hrun. }
  destruct (charinfo.isDigit c).
  { destruct (scanWhile_spec charinfo.isDigit p1 eq_refl) as (run & Hrun & _).
    exists (String c run). split; [exact Hp|]. simpl.
    now rewrite append_cons, <- Hrun. }
  exists (String c EmptyString). now split.
Qed.

(** [next] only moves the cursor forward inside the buffer. *)
Lemma next_suffix (token : Token) (L : Lexer) :
  exists passed, BufferPtr L = passed +:+ BufferPtr (next token L).2.
Proof.
  destruct (next_passes token L) as (ws & c & Hsplit & Hc).
  exists (ws +:+ c). now rewrite append_assoc, <- Hc.
Qed.

(** At the end of input the cursor stands on the NUL. *)
Lemma next_eoi_at_end (token : Token) (L : Lexer) :
  Kind (next token L).1 = eoi -> deref (BufferPtr (next token L).2) = zero.
Proof.
  unfold next.
  destruct (skipWhitespace (BufferPtr L)) as [|c p1]; [reflexivity|].
  destruct (Ascii.eqb_spec c zero) as [->|_]; [reflexivity|].
  unfold formToken. simpl.
  destruct (charinfo.isLetter c); simpl.
  { destruct (String.eqb _ _); discriminate. }
  destruct (charinfo.isDigit c); simpl; [discriminate|].
  repeat (destruct (Ascii.eqb c _); [discriminate|]). discriminate.
Qed.

Lemma skipWhitespace_at_end (p : string) :
  deref p = zero -> skipWhitespace p = p.
Proof. destruct p as [|c p]; simpl; [reflexivity|]. now intros ->. Qed.

End Cursor.

Section WholeInput.

Import Parser.

Variable Input : string.

Lemma inside_advance (P : t) :
  (exists passed, Input = passed +:+ BufferPtr (Lex P)) ->
  exists passed, Input = passed +:+ BufferPtr (Lex (advance P)).
Proof.
  intros (passed & Hp). unfold advance.
  destruct (next_suffix (Tok P) (Lex P)) as (more & Hm).
  destruct (next (Tok P) (Lex P)) as [T L]. simpl in *.
  exists (passed +:+ more). now rewrite append_assoc, <- Hm.
Qed.

Lemma inside_error (P : t) :
  (exists passed, Input = passed +:+ BufferPtr (Lex P)) ->
  exists passed, Input = passed +:+ BufferPtr (Lex (error P)).
Proof. trivial. Qed.

End WholeInput.

Section AtEnd.

Import Parser.

Lemma at_end_advance (P : t) :
  Kind (Tok (advance P)) = eoi -> deref (BufferPtr (Lex (advance P))) = zero.
Proof.
  unfold advance. pose proof (next_eoi_at_end (Tok P) (Lex P)) as H.
  now destruct (next (Tok P) (Lex P)).
Qed.

Lemma at_end_kept_by_advance (P : t) :
  (Kind (Tok P) = eoi -> deref (BufferPtr (Lex P)) = zero) ->
  Kind (Tok (advance P)) = eoi -> deref (BufferPtr (Lex (advance P))) = zero.
Proof. intros _. apply at_end_advance. Qed.

Lemma at_end_kept_by_error (P : t) :
  (Kind (Tok P) = eoi -> deref (BufferPtr (Lex P)) = zero) ->
  Kind (Tok (error P)) = eoi -> deref (BufferPtr (Lex (error P))) = zero.
Proof. trivial. Qed.

End AtEnd.

(** X3.  Whatever the source text and whatever errors it holds, [parse] reads
    it to its end: when [parse] returns, the lexer's cursor is inside the
    buffer and stands on the terminating NUL (or, for a text with a NUL
    inside, on the first NUL that follows a token or white space). *)
Theorem parse_reads_whole_input (Input : string) :
  exists Tree P' passed,
    Parser.parse (Parser.new (mkLexer Input)) = Some (Tree, P')
    /\ Input = passed +:+ BufferPtr (Parser.Lex P')
    /\ deref (BufferPtr (Parser.Lex P')) = zero.
Proof.
  destruct (parse_fuel_total (Parser.enough (Parser.new (mkLexer Input)))
              (Parser.new (mkLexer Input))) as (Tree & P' & H & He); [lia|].
  destruct (parse_fuel_keeps _ (inside_advance Input) (inside_error Input)
              _ _ _ _ H) as (passed & Hp).
  { apply inside_advance. now exists EmptyString. }
  exists Tree, P', passed. split; [exact H|]. split; [exact Hp|].
  apply (parse_fuel_keeps _ at_end_kept_by_advance at_end_kept_by_error
           _ _ _ _ H); [apply at_end_advance | exact He].
Qed.

(** X4.  The lexer reports the end of input exactly when nothing but white
    space is left before the NUL, and it stays there: every later call of
    [next] reports the end of input again and leaves the cursor where it is.
    So the parser's [advance] at the end of input changes nothing. *)
Theorem end_of_input_is_stable (token : Token) (L : Lexer) :
  (Kind (next token L).1 = eoi <-> deref (skipWhitespace (BufferPtr L)) = zero)
  /\ (Kind (next token L).1 = eoi ->
      forall token', next token' (next token L).2
                     = (mkToken eoi (Text token'), (next token L).2))
  /\ (forall P, Kind (Parser.Tok (Parser.advance P)) = eoi ->
      Parser.advance (Parser.advance P) = Parser.advance P).
Proof.
  assert (Hstay : forall tok L0, Kind (next tok L0).1 = eoi ->
            forall token', next token' (next tok L0).2
                           = (mkToken eoi (Text token'), (next tok L0).2)).
  { intros tok L0 He token'. pose proof (next_eoi_at_end tok L0 He) as Hz.
    destruct (next tok L0) as [T [p]]. simpl in *. unfold next. simpl.
    rewrite (skipWhitespace_at_end p Hz).
    destruct p as [|c p]; [reflexivity|]. simpl in Hz. subst c. reflexivity. }
  split; [|split; [apply Hstay|]].
  - split; [|intros Hz].
    + intros He. pose proof (next_eoi_at_end token L He) as Hz. revert He Hz.
      unfold next.
      destruct (skipWhitespace (BufferPtr L)) as [|c p1]; [reflexivity|].
      destruct (Ascii.eqb_spec c zero) as [->|_]; [reflexivity|].
      unfold formToken. simpl.
      destruct (charinfo.isLetter c); simpl.
      { destruct (String.eqb _ _); discriminate. }
      destruct (charinfo.isDigit c); simpl; [discriminate|].
      repeat (destruct (Ascii.eqb c _); [discriminate|]). discriminate.
    + unfold next.
      destruct (skipWhitespace (BufferPtr L)) as [|c p1]; [reflexivity|].
      simpl in Hz. subst c. reflexivity.
  - intros P He. unfold Parser.advance in *.
    pose proof (Hstay (Parser.Tok P) (Parser.Lex P)) as Hs.
    destruct (next (Parser.Tok P) (Parser.Lex P)) as [T L0]. simpl in *.
    rewrite (Hs He T). simpl. destruct T as [K Tx]. simpl in He. now subst K.
Qed.

(** * Further properties of the semantic check *)

Section SemaReports.

Import DeclCheck.

(** The reports of a visit: one per use of a name that is not in the scope
    set, in the order of the uses. *)
Lemma visit_Expr_errs (E : Expr) :
  forall C, errs (visit_Expr E C)
            = errs C ++ map (message Not)
                          (filter (fun x => x ∉ Scope C) (identifiers E)).
Proof.
  induction E as [K Val | Op Left Right IHL IHR] using Expr_ind; intros C.
  - destruct K; simpl; [|now rewrite app_nil_r].
    destruct (decide (Val ∈ Scope C)) as [H|H].
    + rewrite bool_decide_eq_true_2 by exact H.
      rewrite filter_cons_False by tauto. simpl. now rewrite app_nil_r.
    + rewrite bool_decide_eq_false_2 by exact H.
      now rewrite filter_cons_True by exact H.
  - simpl. rewrite filter_app, map_app, app_assoc.
    destruct Left as [L|], Right as [R|]; simpl;
      rewrite ?(IHR R eq_refl), ?(IHL L eq_refl), ?sema_scope, ?app_nil_r;
      reflexivity.
Qed.

(** The flag after a visit: set before, or a null child, or a use of a name
    that is not in the scope set. *)
Lemma visit_Expr_flag (E : Expr) :
  forall C, HasError (visit_Expr E C)
            = HasError C || negb (wellFormed E)
              || negb (forallb (fun x => bool_decide (x ∈ Scope C)) (identifiers E)).
Proof.
  induction E as [K Val | Op Left Right IHL IHR] using Expr_ind; intros C.
  - destruct K; simpl; [|now rewrite !orb_false_r].
    destruct (bool_decide (Val ∈ Scope C)); simpl;
      [now rewrite !orb_false_r | now rewrite orb_true_r].
  - simpl. rewrite forallb_app.
    destruct Left as [L|], Right as [R|]; simpl;
      rewrite ?(IHR R eq_refl), ?(IHL L eq_refl), ?sema_scope; simpl;
      rewrite ?orb_true_r, ?orb_false_r; try reflexivity.
    destruct (HasError C), (wellFormed L), (wellFormed R),
      (forallb _ (identifiers L)), (forallb _ (identifiers R)); reflexivity.
Qed.

Lemma declared_scope (Vars : list string) (x : string) :
  x ∈ Scope (fold_left declare Vars new) <-> x ∈ Vars.
Proof.
  rewrite declare_all_scope, elem_of_union, elem_of_list_to_set. simpl.
  split; [intros [H|H]; [exact H | now apply not_elem_of_empty in H] | now left].
Qed.

End SemaReports.

(** X5.  What the semantic check of a declaration reports, in order: first
    one "already declared" line for every repeated occurrence of a declared
    name, then one "not declared" line for every use in the body, from left
    to right, of a name that was not declared.  A name declared but never
    used is not reported. *)
Theorem semantic_reports (Vars : list string) (E : Expr) :
  (Sema.semantic (Some (WithDecl Vars (Some E)))).2
  = map (DeclCheck.message DeclCheck.Twice) (repeated [] Vars)
    ++ map (DeclCheck.message DeclCheck.Not)
         (filter (fun x => x ∉ Vars) (identifiers E)).
Proof.
  unfold Sema.semantic. simpl. unfold DeclCheck.visit_WithDecl.
  rewrite visit_Expr_errs. f_equal.
  - rewrite (declare_all_errs Vars []); [reflexivity|].
    intros x. simpl. split; intros Hx;
      [now apply not_elem_of_empty in Hx | now apply elem_of_nil in Hx].
  - f_equal. apply list_filter_iff. intros x. now rewrite declared_scope.
Qed.

(** When the semantic check accepts a tree. *)
Lemma accepted_trees :
  (forall Vars E,
      (Sema.semantic (Some (WithDecl Vars E))).1 = false
      <-> NoDup Vars
          /\ exists e, E = Some e /\ wellFormed e = true
                       /\ Forall (fun x => x ∈ Vars) (identifiers e))
  /\ (forall e,
      (Sema.semantic (Some (ExprAST e))).1 = false
      <-> wellFormed e = true /\ identifiers e = []).
Proof.
  split.
  - intros Vars E. unfold Sema.semantic. simpl. unfold DeclCheck.visit_WithDecl.
    destruct E as [e|]; simpl.
    2:{ split; [discriminate | intros (_ & e & He & _); discriminate]. }
    rewrite visit_Expr_flag, (declare_all_flag Vars []).
    2:{ intros x. simpl. split; intros Hx;
          [now apply not_elem_of_empty in Hx | now apply elem_of_nil in Hx]. }
    simpl. rewrite !orb_false_iff, !negb_false_iff, bool_decide_eq_true.
    rewrite repeated_nil. split.
    + intros [[[Hnd _] Hwf] Hall]. split; [exact Hnd|].
      exists e. split; [reflexivity|]. split; [exact Hwf|].
      apply Forall_forall. intros x Hx.
      rewrite forallb_forall in Hall. apply list_elem_of_In in Hx.
      specialize (Hall x Hx). apply bool_decide_eq_true in Hall.
      now apply declared_scope in Hall.
    + intros (Hnd & e' & He & Hwf & Hall). injection He as <-.
      split; [split; [split; [exact Hnd|]|exact Hwf]|].
      * intros x _ Hx. now apply elem_of_nil in Hx.
      * apply forallb_forall. intros x Hx. apply bool_decide_eq_true.
        apply declared_scope. rewrite Forall_forall in Hall.
        apply Hall. now apply list_elem_of_In.
  - intros e. unfold Sema.semantic. simpl. rewrite visit_Expr_flag. simpl.
    rewrite orb_false_iff, !negb_false_iff. split.
    + intros [Hwf Hall]. split; [exact Hwf|].
      destruct (identifiers e) as [|x l]; [reflexivity|].
      simpl in Hall. apply andb_true_iff in Hall as [Hx _].
      apply bool_decide_eq_true in Hx. now apply not_elem_of_empty in Hx.
    + intros [Hwf Hid]. now rewrite Hwf, Hid.
Qed.

(** X6.  The semantic check accepts a declaration exactly when no name is
    declared twice, the body is there and has no null operand, and every
    identifier used in the body is declared; it accepts a bare expression
    exactly when that has no null operand and uses no identifier at all. *)
Theorem semantic_accepts_iff :
  (forall Vars E,
      (Sema.semantic (Some (WithDecl Vars E))).1 = false
      <-> NoDup Vars
          /\ exists e, E = Some e /\ wellFormed e = true
                       /\ Forall (fun x => x ∈ Vars) (identifiers e))
  /\ (forall e,
      (Sema.semantic (Some (ExprAST e))).1 = false
      <-> wellFormed e = true /\ identifiers e = []).
Proof. exact accepted_trees. Qed.

(** * Further properties of the code generator *)

Section Literals.

Lemma digitOf_range (c : ascii) :
  charinfo.isDigit c = true -> 0 <= digitOf c <= 9.
Proof.
  destruct c as [[] [] [] [] [] [] [] []]; vm_compute; intros H;
    try discriminate; split; discriminate.
Qed.

Lemma digitsValue_digits (s : string) :
  allChars charinfo.isDigit s = true ->
  forall acc, 0 <= acc ->
    exists v, digitsValue s acc = Some v /\ acc <= v.
Proof.
  induction s as [|c s IH]; simpl; intros Hall acc Hacc.
  - exists acc. split; [reflexivity | lia].
  - apply andb_true_iff in Hall as [Hc Hs]. rewrite Hc.
    pose proof (digitOf_range c Hc) as Hd. unfold digitOf in Hd.
    destruct (IH Hs (10 * acc + (Z.of_N (N_of_ascii c) - 48))) as (v & Hv & Hle);
      [lia|].
    exists v. split; [exact Hv | lia].
Qed.

Lemma digitsValue_snoc (s : string) (c : ascii) :
  charinfo.isDigit c = true ->
  forall acc v,
    digitsValue s acc = Some v ->
    digitsValue (s +:+ String c EmptyString) acc = Some (10 * v + digitOf c).
Proof.
  intros Hc. induction s as [|d s IH]; intros acc v.
  - simpl. intros H. injection H as <-. change (EmptyString +:+ String c EmptyString)
      with (String c EmptyString). simpl. now rewrite Hc.
  - rewrite append_cons. simpl. destruct (charinfo.isDigit d); [|discriminate].
    apply IH.
Qed.

Lemma getAsInteger_digits (s : string) (v : Z) :
  allChars charinfo.isDigit s = true -> s <> EmptyString ->
  digitsValue s 0 = Some v ->
  getAsInteger s = if v <? 2 ^ 31 then Some v else None.
Proof.
  intros Hall Hne Hv.
  destruct (digitsValue_digits s Hall 0 (Z.le_refl 0)) as (v' & Hv' & Hpos).
  assert (v' = v) by congruence. subst v'.
  destruct s as [|c s]; [contradiction|].
  unfold getAsInteger.
  assert (Hc : Ascii.eqb c "-" = false).
  { simpl in Hall. apply andb_true_iff in Hall as [Hc _].
    destruct (Ascii.eqb_spec c "-") as [->|]; [discriminate | reflexivity]. }
  replace (match String c s with
           | String "-"%char r => (true, r)
           | _ => (false, String c s)
           end) with (false, String c s).
  2:{ destruct (Ascii.eqb_spec c "-") as [->|Hn]; [discriminate|].
      destruct c as [[] [] [] [] [] [] [] []]; try reflexivity. now elim Hn. }
  rewrite Hv. simpl.
  destruct (Z.leb_spec (- 2 ^ 31) v); [|lia]. reflexivity.
Qed.

End Literals.

(** X7.  A literal made of decimal digits has a value, read positionally (the
    value of the digits followed by one more digit [c] is ten times the value
    plus [c]).  The generator turns the literal into the 32-bit constant of
    that value when the value is below 2^31.  For a larger literal the
    conversion fails, its result is not tested, and the constant is built
    from the uninitialised variable: the generator goes on without a
    diagnostic.  Nothing is inserted into the module either way. *)
Theorem literal_constant (s : string) (St : ToIRVisitor.t) :
  allChars charinfo.isDigit s = true -> s <> EmptyString ->
  exists v,
    digitsValue s 0 = Some v /\ 0 <= v
    /\ (forall c, charinfo.isDigit c = true ->
          digitsValue (s +:+ String c EmptyString) 0 = Some (10 * v + digitOf c))
    /\ ToIRVisitor.visit_Expr (Factor Number s) St
       = Some (ToIRVisitor.mk (ToIRVisitor.M St)
                 (Some (ConstantInt (if v <? 2 ^ 31 then Some v else None)))
                 (ToIRVisitor.nameMap St)).
Proof.
  intros Hall Hne.
  destruct (digitsValue_digits s Hall 0 (Z.le_refl 0)) as (v & Hv & Hpos).
  exists v. split; [exact Hv|]. split; [exact Hpos|]. split.
  - intros c Hc. now apply digitsValue_snoc.
  - simpl. now rewrite (getAsInteger_digits s v Hall Hne Hv).
Qed.

(** The literals [4096] and [2147483648]. *)
Lemma literal_constant_witness :
  (ToIRVisitor.V <$> ToIRVisitor.visit_Expr (Factor Number "4096") ToIRVisitor.new)
  = Some (Some (ConstantInt (Some 4096)))
  /\ (ToIRVisitor.V
        <$> ToIRVisitor.visit_Expr (Factor Number "2147483648") ToIRVisitor.new)
     = Some (Some (ConstantInt None)).
Proof.
  split.
  - destruct (literal_constant "4096" ToIRVisitor.new eq_refl)
      as (v & Hv & _ & _ & ->); [discriminate|].
    vm_compute in Hv. injection Hv as <-. reflexivity.
  - destruct (literal_constant "2147483648" ToIRVisitor.new eq_refl)
      as (v & Hv & _ & _ & ->); [discriminate|].
    vm_compute in Hv. injection Hv as <-. reflexivity.
Defined.
Section NameTable.

Import ToIRVisitor.

(** One turn of the loop over the declared names. *)
Lemma readVar_step (St : t) (n : nat) (Var : string) :
  exists Name n',
    uniqueName (Var +:+ ".str") (M St) n = (Name, n')
    /\ readVar (St, n) Var
       = (mk (mkModule (Functions (M St))
                (Globals (M St) ++ [GlobalVariable Name true (getString Var)])
                (entry (M St)
                 ++ [CallInst "calc_read"
                       [Some (GlobalVariable Name true (getString Var))]]))
             (V St)
             (<[Var := Some (Instruction (length (entry (M St))))]> (nameMap St)),
          n').
Proof.
  unfold readVar. simpl.
  destruct (uniqueName (Var +:+ ".str") (M St) n) as [Name n'].
  now exists Name, n'.
Qed.

(** The loop appends one global variable and one instruction per name. *)
Lemma readVar_grows (Vars : list string) :
  forall S0, exists gs calls,
    Globals (M (fold_left readVar Vars S0).1) = Globals (M S0.1) ++ gs
    /\ entry (M (fold_left readVar Vars S0).1) = entry (M S0.1) ++ calls
    /\ length gs = length Vars
    /\ length calls = length Vars
    /\ Functions (M (fold_left readVar Vars S0).1) = Functions (M S0.1).
Proof.
  induction Vars as [|Var Vars IH]; intros [St n]; simpl.
  - exists [], []. now rewrite !app_nil_r.
  - destruct (readVar_step St n Var) as (Name & n' & _ & ->).
    match goal with
    | |- context [fold_left readVar Vars ?S] =>
        destruct (IH S) as (gs & calls & -> & -> & Hg & Hc & ->)
    end.
    simpl. rewrite <- !app_assoc. eexists _, _.
    split; [reflexivity|]. split; [reflexivity|]. simpl.
    now rewrite Hg, Hc.
Qed.

(** The loop leaves the entries of other names. *)
Lemma readVar_other (Vars : list string) (x : string) :
  x ∉ Vars ->
  forall S0, nameMap (fold_left readVar Vars S0).1 !! x = nameMap S0.1 !! x.
Proof.
  induction Vars as [|Var Vars IH]; intros Hx [St n]; simpl; [reflexivity|].
  rewrite IH by (intros H; apply Hx; now apply list_elem_of_further).
  destruct (readVar_step St n Var) as (Name & n' & _ & ->). simpl.
  apply lookup_insert_ne.
  intros ->. apply Hx. apply list_elem_of_here.
Qed.

(** After the loop every declared name stands for an instruction. *)
Lemma readVar_binds (Vars : list string) (x : string) :
  forall S0,
    x ∈ Vars \/ (exists i, nameMap S0.1 !! x = Some (Some (Instruction i))) ->
    exists i, nameMap (fold_left readVar Vars S0).1 !! x
              = Some (Some (Instruction i)).
Proof.
  induction Vars as [|Var Vars IH]; intros [St n] Hx; simpl.
  - destruct Hx as [Hx|Hx]; [now apply elem_of_nil in Hx | exact Hx].
  - apply IH.
    destruct (readVar_step St n Var) as (Name & n' & _ & ->). simpl.
    destruct (decide (x = Var)) as [->|Hne].
    + right. eexists. apply lookup_insert_eq.
    + destruct Hx as [Hx|Hx].
      * apply elem_of_cons in Hx as [Hx|Hx]; [contradiction | now left].
      * right. now rewrite lookup_insert_ne by congruence.
Qed.

(** The string constant of a name that was read is in the symbol table. *)
Lemma readVar_name_taken (Vars : list string) (x : string) :
  forall S0,
    x ∈ Vars \/ x +:+ ".str" ∈ names (M S0.1) ->
    x +:+ ".str" ∈ names (M (fold_left readVar Vars S0).1).
Proof.
  induction Vars as [|Var Vars IH]; intros [St n] Hx; simpl.
  - destruct Hx as [Hx|Hx]; [now apply elem_of_nil in Hx | exact Hx].
  - apply IH.
    destruct (readVar_step St n Var) as (Name & n' & Hname & ->). simpl.
    assert (Hold : x +:+ ".str" ∈ names (M St) ->
                   x +:+ ".str"
                   ∈ names (mkModule (Functions (M St))
                              (Globals (M St)
                               ++ [GlobalVariable Name true (getString Var)])
                              (entry (M St)
                               ++ [CallInst "calc_read"
                                     [Some (GlobalVariable Name true
                                              (getString Var))]]))).
    { unfold names. simpl. rewrite fmap_app, app_assoc.
      intros H. apply elem_of_app. now left. }
    destruct Hx as [Hx|Hx]; [|right; now apply Hold].
    apply elem_of_cons in Hx as [->|Hx]; [|now left].
    right. unfold uniqueName in Hname.
    destruct (decide (Var +:+ ".str" ∈ names (M St))) as [Hin|Hnin].
    + now apply Hold.
    + rewrite bool_decide_eq_false_2 in Hname by exact Hnin.
      injection Hname as <- <-.
      unfold names. simpl. rewrite fmap_app, app_assoc.
      apply elem_of_app. right. simpl. apply list_elem_of_here.
Qed.

(** What a visit leaves when every identifier stands for an instruction:
    the table is as it was, one instruction was inserted per operator with
    an identifier below, and the value is a constant of the folder when there
    is no identifier and an instruction otherwise. *)
Lemma visit_Expr_emitted (E : Expr) :
  forall St St',
    (forall x, x ∈ identifiers E ->
               exists i, nameMap St !! x = Some (Some (Instruction i))) ->
    visit_Expr E St = Some St' ->
    nameMap St' = nameMap St
    /\ length (entry (M St')) = (length (entry (M St)) + emittedOps E)%nat
    /\ match identifiers E with
       | [] => entry (M St') = entry (M St)
               /\ exists v, V St' = Some v /\ foldable v = true
       | _ => exists i, V St' = Some (Instruction i)
       end.
Proof.
  induction E as [K Val | Op Left Right IHL IHR] using Expr_ind;
    intros St St' Hhit.
  - destruct K; simpl.
    + destruct (Hhit Val) as (i & Hi); [apply list_elem_of_here|].
      unfold lookupOrInsert. rewrite Hi. intros H. inversion H; subst. simpl.
      split; [reflexivity|]. split; [lia|]. now exists i.
    + intros H. inversion H; subst. simpl.
      split; [reflexivity|]. split; [lia|]. split; [reflexivity|].
      now eexists.
  - simpl. destruct Left as [L|]; [|discriminate]. simpl.
    destruct (visit_Expr L St) as [St1|] eqn:H1; [|discriminate]. simpl.
    destruct Right as [R|]; [|discriminate]. simpl.
    destruct (visit_Expr R St1) as [St2|] eqn:H2; [|discriminate]. simpl.
    destruct (IHL L eq_refl St St1) as (N1 & L1 & V1); [|exact H1|].
    { intros x Hx. apply Hhit. simpl. apply elem_of_app. now left. }
    destruct (IHR R eq_refl St1 St2) as (N2 & L2 & V2); [|exact H2|].
    { intros x Hx. rewrite N1. apply Hhit. simpl. apply elem_of_app. now right. }
    destruct (identifiers L) as [|x xs] eqn:HidL.
    + destruct V1 as (E1 & l & Hl & Fl). rewrite Hl.
      destruct (identifiers R) as [|y ys] eqn:HidR.
      * destruct V2 as (E2 & r & Hr & Fr). rewrite Hr.
        unfold create. simpl. rewrite Fl, Fr. simpl.
        intros H. inversion H; subst. simpl.
        split; [congruence|]. split; [lia|]. split; [congruence|].
        eexists. split; [reflexivity | apply foldBinary_foldable].
      * destruct V2 as (j & Hr). rewrite Hr.
        unfold create. simpl. rewrite Fl. simpl.
        intros H. inversion H; subst. simpl.
        split; [congruence|]. split; [rewrite length_app; simpl; lia|].
        now eexists.
    + destruct V1 as (i & Hl). rewrite Hl.
      assert (Hr : exists r, V St2 = Some r).
      { destruct (identifiers R); [destruct V2 as (_ & r & Hr & _)
                                  | destruct V2 as (j & Hr)];
          eexists; eassumption. }
      destruct Hr as (r & Hr). rewrite Hr.
      unfold create. simpl.
      intros H. inversion H; subst. simpl.
      split; [congruence|]. split; [rewrite length_app; simpl; lia|].
      now eexists.
Qed.

End NameTable.

(** X8.  After the reads of a declaration, a declared name is bound to the
    call of [calc_read] made for its last occurrence in the list: a later
    declaration of the same name overwrites the earlier one.  That call is on
    a string constant holding the name; when the name occurred before, the
    constant is a new global variable whose name was taken, so that it is
    numbered.  An identifier of that name evaluates to that call: no
    instruction is inserted for it and the table is not changed. *)
Theorem declared_name_is_bound (before after : list string) (x : string)
    (St : ToIRVisitor.t) (n : nat) :
  x ∉ after ->
  let St' := (fold_left ToIRVisitor.readVar (before ++ x :: after) (St, n)).1 in
  let i := (length (entry (ToIRVisitor.M St)) + length before)%nat in
  ToIRVisitor.nameMap St' !! x = Some (Some (Instruction i))
  /\ (exists Name,
        entry (ToIRVisitor.M St') !! i
        = Some (CallInst "calc_read"
                  [Some (GlobalVariable Name true (getString x))])
        /\ Globals (ToIRVisitor.M St')
           !! (length (Globals (ToIRVisitor.M St)) + length before)%nat
           = Some (GlobalVariable Name true (getString x))
        /\ (x ∈ before ->
            exists k, Name = (x +:+ ".str") +:+ "." +:+ pretty (S k)))
  /\ ToIRVisitor.visit_Expr (Factor Ident x) St'
     = Some (ToIRVisitor.mk (ToIRVisitor.M St') (Some (Instruction i))
               (ToIRVisitor.nameMap St')).
Proof.
  intros Hx St' i. subst St' i. rewrite fold_left_app. simpl.
  destruct (readVar_grows before (St, n)) as (gs1 & calls1 & HG1 & HE1 & Hg1 & Hc1 & _).
  pose proof (readVar_name_taken before x (St, n)) as Htaken.
  destruct (fold_left ToIRVisitor.readVar before (St, n)) as [St1 n1].
  simpl in HG1, HE1, Htaken.
  destruct (readVar_step St1 n1 x) as (Name & n2 & Hname & Hstep).
  rewrite Hstep.
  match goal with
  | |- context [fold_left ToIRVisitor.readVar after ?S] =>
      pose proof (readVar_other after x Hx S) as Hother;
      destruct (readVar_grows after S) as (gs3 & calls3 & HG3 & HE3 & _)
  end.
  simpl in Hother, HG3, HE3.
  assert (Hbound :
    ToIRVisitor.nameMap
      (fold_left ToIRVisitor.readVar after
         (ToIRVisitor.mk
            (mkModule (Functions (ToIRVisitor.M St1))
               (Globals (ToIRVisitor.M St1)
                ++ [GlobalVariable Name true (getString x)])
               (entry (ToIRVisitor.M St1)
                ++ [CallInst "calc_read"
                      [Some (GlobalVariable Name true (getString x))]]))
            (ToIRVisitor.V St1)
            (<[x := Some (Instruction (length (entry (ToIRVisitor.M St1))))]>
               (ToIRVisitor.nameMap St1)), n2)).1 !! x
    = Some (Some (Instruction
                    (length (entry (ToIRVisitor.M St)) + length before)))).
  { rewrite Hother, lookup_insert_eq, HE1, length_app, Hc1. reflexivity. }
  split; [exact Hbound|]. split.
  - exists Name. split; [|split].
    + rewrite HE3, HE1, <- Hc1, <- length_app.
      rewrite lookup_app_l by (rewrite !length_app; simpl; lia).
      apply list_lookup_middle. reflexivity.
    + rewrite HG3, HG1, <- Hg1, <- length_app.
      rewrite lookup_app_l by (rewrite !length_app; simpl; lia).
      apply list_lookup_middle. reflexivity.
    + intros Hin. unfold ToIRVisitor.uniqueName in Hname.
      rewrite bool_decide_eq_true_2 in Hname by (apply Htaken; now left).
      injection Hname as <- _. now exists n1.
  - simpl. unfold ToIRVisitor.lookupOrInsert. rewrite Hbound. reflexivity.
Qed.

(** The declaration [a, b, a]: the third name rebinds [a], and its string
    constant is numbered. *)
Lemma declared_name_is_bound_witness :
  ToIRVisitor.nameMap
    (fold_left ToIRVisitor.readVar ["a"; "b"; "a"] (ToIRVisitor.new, 0%nat)).1
  !! "a"
  = Some (Some (Instruction 2))
  /\ Globals
       (ToIRVisitor.M
          (fold_left ToIRVisitor.readVar ["a"; "b"; "a"]
             (ToIRVisitor.new, 0%nat)).1)
     = [stringConstant "a"; stringConstant "b";
        GlobalVariable "a.str.1" true (getString "a")].
Proof.
  split; [|vm_compute; reflexivity].
  refine (proj1 (declared_name_is_bound ["a"; "b"] [] "a" ToIRVisitor.new 0 _)).
  intros H. now apply elem_of_nil in H.
Defined.

(** X9.  Operations on constants are computed while generating.  When every
    identifier of an expression stands for an instruction (as after the
    reads of a checked declaration), visiting the expression inserts exactly
    one instruction for every binary-operation node with an identifier below
    it, all of them arithmetic, and none for the other nodes; no function and
    no global variable is added.  So the unit generated for a checked
    program without declaration holds no arithmetic at all: its block is one
    call of [calc_write] on a constant and the return of 0. *)
Theorem constants_are_folded :
  (forall E St St',
      (forall x, x ∈ identifiers E ->
                 exists i, ToIRVisitor.nameMap St !! x
                           = Some (Some (Instruction i))) ->
      ToIRVisitor.visit_Expr E St = Some St' ->
      exists body,
        entry (ToIRVisitor.M St') = entry (ToIRVisitor.M St) ++ body
        /\ length body = emittedOps E
        /\ Forall isArithmetic body
        /\ Functions (ToIRVisitor.M St') = Functions (ToIRVisitor.M St)
        /\ Globals (ToIRVisitor.M St') = Globals (ToIRVisitor.M St))
  /\ (forall e,
      (Sema.semantic (Some (ExprAST e))).1 = false ->
      exists v,
        foldable v = true
        /\ CodeGen.compile (Some (ExprAST e))
           = Some (mkModule [mainFunction; writeFunction] []
                     [CallInst "calc_write" [Some v];
                      ReturnInst (Some (ConstantInt (Some 0)))]))
  /\ (forall Vars e,
      (Sema.semantic (Some (WithDecl Vars (Some e)))).1 = false ->
      exists body v,
        CodeGen.compile (Some (WithDecl Vars (Some e)))
        = Some (mkModule [mainFunction; readFunction; writeFunction]
                  (map stringConstant Vars)
                  (map readCall Vars ++ body
                   ++ [CallInst "calc_write" [Some v];
                       ReturnInst (Some (ConstantInt (Some 0)))]))
        /\ length body = emittedOps e
        /\ Forall isArithmetic body).
Proof.
  assert (Hfirst : forall E St St',
      (forall x, x ∈ identifiers E ->
                 exists i, ToIRVisitor.nameMap St !! x
                           = Some (Some (Instruction i))) ->
      ToIRVisitor.visit_Expr E St = Some St' ->
      exists body,
        entry (ToIRVisitor.M St') = entry (ToIRVisitor.M St) ++ body
        /\ length body = emittedOps E
        /\ Forall isArithmetic body
        /\ Functions (ToIRVisitor.M St') = Functions (ToIRVisitor.M St)
        /\ Globals (ToIRVisitor.M St') = Globals (ToIRVisitor.M St)).
  { intros E St St' Hhit H.
    destruct (visit_Expr_appends E _ _ H) as (HF & HG & body & HE & Hall).
    exists body. split; [exact HE|]. split; [|now repeat split].
    destruct (visit_Expr_emitted E _ _ Hhit H) as (_ & Hlen & _).
    rewrite HE, length_app in Hlen. lia. }
  split; [exact Hfirst|]. split.
  - intros e Hok.
    destruct (proj1 (proj2 accepted_trees e) Hok) as (_ & Hids).
    unfold Sema.semantic in Hok. simpl in Hok.
    destruct (visit_Expr_validated e DeclCheck.new
                (ToIRVisitor.createFunction "main"
                   (mkFunctionType Int32Ty [Int32Ty; PtrTy]) ToIRVisitor.new) Hok)
      as (St' & v & H & _ & Hv).
    { intros x Hx. now apply not_elem_of_empty in Hx. }
    destruct (visit_Expr_appends e _ _ H) as (HF & HG & _).
    assert (Hhit : forall x, x ∈ identifiers e ->
                exists i, ToIRVisitor.nameMap
                            (ToIRVisitor.createFunction "main"
                               (mkFunctionType Int32Ty [Int32Ty; PtrTy])
                               ToIRVisitor.new) !! x
                          = Some (Some (Instruction i))).
    { intros x Hx. rewrite Hids in Hx. now apply elem_of_nil in Hx. }
    destruct (visit_Expr_emitted e _ _ Hhit H) as (_ & _ & Hval).
    rewrite Hids in Hval. destruct Hval as (HE & v' & Hv' & Hfold).
    exists v'. split; [exact Hfold|]. simpl in HF, HG, HE.
    unfold CodeGen.compile, ToIRVisitor.run. simpl. rewrite H. simpl.
    now rewrite Hv', HF, HG, HE.
  - intros Vars e Hok.
    destruct (proj1 (proj1 accepted_trees Vars (Some e)) Hok)
      as (Hnd & e' & He' & _ & Hids).
    injection He' as <-.
    unfold Sema.semantic in Hok. simpl in Hok.
    unfold DeclCheck.visit_WithDecl in Hok.
    set (St00 := ToIRVisitor.createFunction "calc_read"
                   (mkFunctionType Int32Ty [PtrTy])
                   (ToIRVisitor.createFunction "main"
                      (mkFunctionType Int32Ty [Int32Ty; PtrTy]) ToIRVisitor.new)).
    set (St0 := (fold_left ToIRVisitor.readVar Vars (St00, 0%nat)).1).
    destruct (readVar_all Vars St00 0%nat Hnd (fun x _ => names_at_loop x))
      as (HF & HG & HE & HN).
    fold St0 in HF, HG, HE, HN. simpl in HF, HG, HE.
    destruct (visit_Expr_validated e _ St0 Hok) as (St1 & v & H1 & _ & Hv).
    { intros x Hx. rewrite declare_all_scope in Hx. apply HN. left.
      apply elem_of_union in Hx as [Hx|Hx];
        [now apply elem_of_list_to_set in Hx | now apply not_elem_of_empty in Hx]. }
    destruct (Hfirst e St0 St1) as (body & HE1 & Hlen & Hall & HF1 & HG1);
      [|exact H1|].
    { intros x Hx. apply readVar_binds. left.
      rewrite Forall_forall in Hids. now apply Hids. }
    exists body, v. split; [|now split].
    unfold CodeGen.compile, ToIRVisitor.run. simpl.
    unfold ToIRVisitor.visit_WithDecl. simpl. fold St00 St0. rewrite H1. simpl.
    rewrite Hv, HF1, HG1, HE1, HF, HG, HE. simpl.
    now rewrite <- !app_assoc.
Qed.

(** The program [with a: (1+2)*3 + a*(4-1)]: of its five operators, the two
    with [a] below them are generated. *)
Lemma constants_are_folded_witness :
  exists body v,
    CodeGen.compile
      (Some (WithDecl ["a"]
               (binary Plus
                  (binary Mul
                     (binary Plus (Some (Factor Number "1"))
                                  (Some (Factor Number "2")))
                     (Some (Factor Number "3")))
                  (binary Mul (var "a")
                     (binary Minus (Some (Factor Number "4"))
                                   (Some (Factor Number "1")))))))
    = Some (mkModule [mainFunction; readFunction; writeFunction]
              [stringConstant "a"]
              ([readCall "a"] ++ body
               ++ [CallInst "calc_write" [Some v];
                   ReturnInst (Some (ConstantInt (Some 0)))]))
    /\ length body = 2%nat.
Proof.
  destruct (proj2 (proj2 constants_are_folded) ["a"]
              (BinaryOp Plus
                 (binary Mul
                    (binary Plus (Some (Factor Number "1"))
                                 (Some (Factor Number "2")))
                    (Some (Factor Number "3")))
                 (binary Mul (var "a")
                    (binary Minus (Some (Factor Number "4"))
                                  (Some (Factor Number "1"))))))
    as (body & v & H & Hlen & _).
  - vm_compute. reflexivity.
  - exists body, v. split; [exact H | exact Hlen].
Defined.
(** * What the generated unit computes *)

Section Execution.

Import ToIRVisitor.

Lemma operand_app (regs more : list (option Z)) (v : option Value) a :
  operand regs v = Some a -> operand (regs ++ more) v = Some a.
Proof.
  destruct v as [[c| |N C I|n]|]; simpl; try trivial.
  intros H. now apply lookup_app_l_Some.
Qed.

(** A constant of the folder that stands for an integer is that integer. *)
Lemma operand_foldable (regs : list (option Z)) (v : Value) (z : Z) :
  foldable v = true -> operand regs (Some v) = Some (Some z) ->
  v = ConstantInt (Some z).
Proof.
  destruct v as [c| |N C I|n]; simpl; try discriminate.
  intros _ H. now injection H as ->.
Qed.

Lemma wrapInt32_fits (z : Z) : fitsInt32 z = true -> wrapInt32 z = z.
Proof.
  unfold fitsInt32, wrapInt32. intros H.
  apply andb_true_iff in H as [H1 H2].
  apply Z.leb_le in H1. apply Z.ltb_lt in H2.
  rewrite Z.mod_small by lia. lia.
Qed.

(** When an operation has a value, both operands have one, and the folder
    computes the same value. *)
Lemma operation_defined (Op : Operator) (a b : option Z) (z : Z) :
  operation Op a b = Some (Some z) ->
  exists a' b', a = Some a' /\ b = Some b'
                /\ foldInt (opcode Op).1 (Some a') (Some b')
                   = ConstantInt (Some z).
Proof.
  destruct Op; simpl; unfold arith;
    destruct a as [a|], b as [b|]; try discriminate.
  1-3: (match goal with
        | |- context [fitsInt32 ?r] => destruct (fitsInt32 r) eqn:Hfit
        end; [|discriminate]; intros H; injection H as <-;
        exists a, b; rewrite wrapInt32_fits by exact Hfit; now repeat split).
  - destruct (Z.eqb_spec b 0) as [->|Hb]; [discriminate|].
    destruct ((a =? - 2 ^ 31) && (b =? -1)) eqn:Hmin; [discriminate|].
    intros H; injection H as <-. exists a, b. split; [reflexivity|].
    split; [reflexivity|]. rewrite Hmin.
    destruct b as [|b|b]; [contradiction| |]; reflexivity.
  - destruct (b =? 0); discriminate.
Qed.

(** One generated instruction whose operation has a value. *)
Lemma exec_arith (Op : Operator) (l r : Value) (a b z : Z) code regs inputs written :
  operand regs (Some l) = Some (Some a) ->
  operand regs (Some r) = Some (Some b) ->
  operation Op (Some a) (Some b) = Some (Some z) ->
  exec (lower Op (Some l) (Some r) :: code) regs inputs written
  = exec code (regs ++ [Some z]) inputs written.
Proof.
  intros Ha Hb Hop. unfold lower. cbn [exec]. rewrite Ha, Hb.
  replace (arith (opcode Op).1 (opcode Op).2 (Some a) (Some b))
    with (operation Op (Some a) (Some b)) by now destruct Op.
  now rewrite Hop.
Qed.

(** An identifier that finds its entry leaves the table as it is. *)
Lemma visit_Expr_names (E : Expr) :
  forall St St',
    (forall x, x ∈ identifiers E -> is_Some (nameMap St !! x)) ->
    visit_Expr E St = Some St' -> nameMap St' = nameMap St.
Proof.
  induction E as [K Val | Op Left Right IHL IHR] using Expr_ind;
    intros St St' Hhit.
  - destruct K; simpl.
    + destruct (Hhit Val) as (v & Hv); [apply list_elem_of_here|].
      unfold lookupOrInsert. rewrite Hv. intros H. now inversion H.
    + intros H. now inversion H.
  - simpl. destruct Left as [L|]; [|discriminate]. simpl.
    destruct (visit_Expr L St) as [St1|] eqn:H1; [|discriminate]. simpl.
    destruct Right as [R|]; [|discriminate]. simpl.
    destruct (visit_Expr R St1) as [St2|] eqn:H2; [|discriminate]. simpl.
    assert (N1 : nameMap St1 = nameMap St).
    { apply (IHL L eq_refl _ _); [|exact H1].
      intros x Hx. apply Hhit. simpl. apply elem_of_app. now left. }
    assert (N2 : nameMap St2 = nameMap St1).
    { apply (IHR R eq_refl _ _); [|exact H2].
      intros x Hx. rewrite N1. apply Hhit. simpl. apply elem_of_app. now right. }
    destruct (V St1) as [l|]; [|discriminate].
    destruct (V St2) as [r|]; [|discriminate].
    destruct (create_cases Op l r St2) as [(_ & _ & ->)|(_ & ->)]; simpl;
      intros H; inversion H; subst; simpl; congruence.
Qed.

Variable env : string -> option Z.

(** When the value of an expression is defined, running the instructions
    generated for it leaves that value as the value of the node. *)
Lemma visit_Expr_correct (E : Expr) :
  forall St St' regs body z,
    visit_Expr E St = Some St' ->
    length regs = length (entry (M St)) ->
    (forall x, x ∈ identifiers E -> bound env St regs x) ->
    entry (M St') = entry (M St) ++ body ->
    denote env E = Some (Some z) ->
    exists vals,
      length vals = length body
      /\ operand (regs ++ vals) (V St') = Some (Some z)
      /\ forall rest inputs written,
           exec (body ++ rest) regs inputs written
           = exec rest (regs ++ vals) inputs written.
Proof.
  induction E as [K Val | Op Left Right IHL IHR] using Expr_ind;
    intros St St' regs body z Hvisit Hlen Hbound Hbody Hval.
  - assert (body = []) as ->.
    { assert (HM : M St' = M St).
      { destruct K; simpl in Hvisit.
        - unfold lookupOrInsert in Hvisit.
          destruct (nameMap St !! Val); now inversion Hvisit.
        - now inversion Hvisit. }
      rewrite HM in Hbody.
      rewrite <- (app_nil_r (entry (M St))) in Hbody at 1.
      now apply app_inv_head in Hbody. }
    destruct K; simpl in *.
    + destruct (Hbound Val) as (i & v & Hn & Hr & He); [apply list_elem_of_here|].
      unfold lookupOrInsert in Hvisit. rewrite Hn in Hvisit.
      inversion Hvisit; subst. rewrite He in Hval. simpl in Hval.
      injection Hval as <-.
      exists []. rewrite app_nil_r. repeat split. exact Hr.
    + inversion Hvisit; subst. simpl.
      exists []. rewrite app_nil_r. repeat split. now rewrite <- Hval.
  - simpl in Hvisit, Hval.
    destruct Left as [L|]; [|discriminate]. simpl in Hvisit, Hval.
    destruct (visit_Expr L St) as [St1|] eqn:H1; [|discriminate].
    simpl in Hvisit.
    destruct (denote env L) as [a|] eqn:HdL; [|discriminate]. simpl in Hval.
    destruct Right as [R|]; [|discriminate]. simpl in Hvisit, Hval.
    destruct (visit_Expr R St1) as [St2|] eqn:H2; [|discriminate].
    simpl in Hvisit.
    destruct (denote env R) as [b|] eqn:HdR; [|discriminate]. simpl in Hval.
    destruct (operation_defined Op a b z Hval) as (a' & b' & -> & -> & Hfold).
    destruct (visit_Expr_appends L _ _ H1) as (_ & _ & b1 & E1 & _).
    destruct (visit_Expr_appends R _ _ H2) as (_ & _ & b2 & E2 & _).
    assert (HbL : forall x, x ∈ identifiers L -> bound env St regs x).
    { intros x Hx. apply Hbound. simpl. apply elem_of_app. now left. }
    assert (HbR : forall x, x ∈ identifiers R -> bound env St regs x).
    { intros x Hx. apply Hbound. simpl. apply elem_of_app. now right. }
    assert (N1 : nameMap St1 = nameMap St).
    { apply (visit_Expr_names L _ _); [|exact H1].
      intros x Hx. destruct (HbL x Hx) as (i & v & -> & _). now eexists. }
    destruct (IHL L eq_refl St St1 regs b1 a' H1 Hlen HbL E1 HdL)
      as (vals1 & Hl1 & Ha & Hexec1).
    assert (HbR' : forall x, x ∈ identifiers R -> bound env St1 (regs ++ vals1) x).
    { intros x Hx. destruct (HbR x Hx) as (i & v & Hn & Hr & He).
      exists i, v. rewrite N1. split; [exact Hn|]. split; [|exact He].
      now apply lookup_app_l_Some. }
    assert (Hlen1 : length (regs ++ vals1) = length (entry (M St1))).
    { rewrite E1, !length_app. lia. }
    destruct (IHR R eq_refl St1 St2 (regs ++ vals1) b2 b' H2 Hlen1 HbR' E2 HdR)
      as (vals2 & Hl2 & Hb & Hexec2).
    destruct (V St1) as [l|] eqn:Vl; [|discriminate].
    destruct (V St2) as [r|] eqn:Vr; [|discriminate].
    destruct (create_cases Op l r St2) as [(Fl & Fr & Hc)|(_ & Hc)];
      rewrite Hc in Hvisit; simpl in Hvisit; inversion Hvisit; subst St';
      clear Hvisit; simpl in Hbody |- *.
    + assert (body = b1 ++ b2) as ->.
      { rewrite E2, E1, <- !app_assoc in Hbody.
        now apply app_inv_head in Hbody. }
      apply operand_foldable in Ha; [|exact Fl].
      apply operand_foldable in Hb; [|exact Fr]. subst l r. simpl.
      exists (vals1 ++ vals2). split; [|split].
      * rewrite !length_app. lia.
      * now rewrite Hfold.
      * intros rest inputs written.
        now rewrite <- app_assoc, Hexec1, Hexec2, <- app_assoc.
    + assert (body = b1 ++ b2 ++ [lower Op (Some l) (Some r)]) as ->.
      { rewrite E2, E1, <- !app_assoc in Hbody.
        now apply app_inv_head in Hbody. }
      exists (vals1 ++ vals2 ++ [Some z]). split; [|split].
      * rewrite !length_app. simpl. lia.
      * rewrite E2, E1, !length_app, <- Hlen.
        rewrite !app_assoc. rewrite lookup_app_r by (rewrite !length_app; lia).
        rewrite !length_app, Hl1, Hl2.
        replace (length regs + length b1 + length b2
                 - (length regs + length b1 + length b2))%nat with 0%nat by lia.
        reflexivity.
      * intros rest inputs written.
        rewrite <- app_assoc, Hexec1, <- app_assoc, Hexec2.
        pose proof (operand_app _ vals2 _ _ Ha) as Ha'.
        change ([lower Op (Some l) (Some r)] ++ rest)
          with (lower Op (Some l) (Some r) :: rest).
        rewrite (exec_arith Op l r a' b' z) by assumption.
        now rewrite <- !app_assoc.
Qed.

End Execution.
Section Units.

Import ToIRVisitor.

(** [std::stoi] returns an [int]. *)
Lemma stoi_fits (buf : string) (z : Z) :
  stoi buf = Converted z -> fitsInt32 z = true.
Proof.
  unfold stoi.
  destruct (match scanWhile isspace buf with
            | String "-"%char r => (true, r)
            | String "+"%char r => (false, r)
            | _ => (false, scanWhile isspace buf)
            end) as [neg p].
  destruct (strtolDigits p 0 false) as [v|]; [|discriminate].
  destruct (fitsInt32 (if neg then - v else v)) eqn:Hfit; [|discriminate].
  intros H. injection H as <-. exact Hfit.
Qed.

(** The calls of [calc_read]: each takes the next line of the input. *)
Lemma exec_reads (Vars : list string) :
  forall (lines : list string) (zs : list Z) code regs more written,
    Forall2 (fun buf z => stoi buf = Converted z) lines zs ->
    length zs = length Vars ->
    exec (map readCall Vars ++ code) regs (lines ++ more) written
    = exec code (regs ++ map Some zs) more written.
Proof.
  induction Vars as [|Var Vars IH];
    intros lines zs code regs more written Hconv Hlen.
  - destruct zs; [|discriminate]. inversion Hconv; subst. simpl.
    now rewrite app_nil_r.
  - destruct zs as [|z zs]; [discriminate|].
    inversion Hconv as [|buf z' lines' zs' Hbuf Hrest]; subst. simpl.
    rewrite Hbuf. rewrite (IH lines' zs) by (simpl in Hlen; auto with lia).
    now rewrite <- app_assoc.
Qed.

(** The first line that is not converted, where a value is read. *)
Lemma exec_reads_fail (Vars : list string) :
  forall (lines : list string) (zs : list Z) code regs rest written,
    Forall2 (fun buf z => stoi buf = Converted z) lines zs ->
    (length zs < length Vars)%nat ->
    exec (map readCall Vars ++ code) regs (lines ++ rest) written
    = match stoi (hd "" rest) with
      | InvalidArgument => Exited 1 written
      | OutOfRange => Terminated written
      | Converted _ =>
          exec (map readCall Vars ++ code) regs (lines ++ rest) written
      end.
Proof.
  induction Vars as [|Var Vars IH];
    intros lines zs code regs rest written Hconv Hlen; [simpl in Hlen; lia|].
  destruct zs as [|z zs].
  - inversion Hconv; subst. simpl.
    destruct (stoi (hd "" rest)) eqn:Hbad; reflexivity.
  - inversion Hconv as [|buf z' lines' zs' Hbuf Hrest]; subst.
    destruct (stoi (hd "" rest)) eqn:Hbad; [reflexivity| |].
    + simpl. rewrite Hbuf.
      rewrite (IH lines' zs) by (simpl in Hlen; auto with lia).
      now rewrite Hbad.
    + simpl. rewrite Hbuf.
      rewrite (IH lines' zs) by (simpl in Hlen; auto with lia).
      now rewrite Hbad.
Qed.

Lemma bind_lookup (before after : list string) (x : string) :
  x ∉ before ->
  forall zs, bind (before ++ x :: after) zs x = zs !! length before.
Proof.
  induction before as [|y before IH]; intros Hx [|z zs]; simpl; try reflexivity.
  - now rewrite String.eqb_refl.
  - destruct (String.eqb_spec x y) as [->|_].
    + exfalso. apply Hx. apply list_elem_of_here.
    + apply IH. intros H. apply Hx. now apply list_elem_of_further.
Qed.

Lemma readVar_bound (before after : list string) (x : string) (St : t) (n : nat) :
  x ∉ after ->
  nameMap (fold_left readVar (before ++ x :: after) (St, n)).1 !! x
  = Some (Some (Instruction (length (entry (M St)) + length before))).
Proof.
  intros Hx. rewrite fold_left_app. simpl.
  rewrite readVar_other by exact Hx.
  destruct (readVar_grows before (St, n)) as (gs & calls & _ & HE & _ & Hc & _).
  destruct (fold_left readVar before (St, n)) as [St1 n1]. simpl in HE.
  destruct (readVar_step St1 n1 x) as (Name & n2 & _ & ->). simpl.
  rewrite lookup_insert_eq, HE, length_app, Hc. reflexivity.
Qed.

(** After the reads, every declared name stands for the register that holds
    the value read for it. *)
Lemma bound_after_reads (Vars : list string) (zs : list Z) (St : t) (n : nat)
    (x : string) :
  NoDup Vars -> length zs = length Vars -> entry (M St) = [] -> x ∈ Vars ->
  bound (bind Vars zs) (fold_left readVar Vars (St, n)).1 (map Some zs) x.
Proof.
  intros Hnd Hlen Hentry Hx.
  apply list_elem_of_split in Hx as (before & after & ->).
  apply NoDup_app in Hnd as (_ & Hdisj & Hnd).
  apply NoDup_cons in Hnd as [Hafter _].
  assert (Hbefore : x ∉ before).
  { intros H. apply (Hdisj x H). apply list_elem_of_here. }
  destruct (lookup_lt_is_Some_2 zs (length before)) as (z & Hz).
  { rewrite Hlen, length_app. simpl. lia. }
  exists (length before), z. split; [|split].
  - rewrite readVar_bound by exact Hafter. now rewrite Hentry.
  - now rewrite list_lookup_fmap, Hz.
  - now rewrite bind_lookup.
Qed.

End Units.

(** X10.  The unit generated for a checked program computes the value of its
    expression.  For a declaration of the names [Vars] and input lines that
    [std::stoi] converts to the integers [zs], one per name, the unit reads
    them in order; when the value of the body is defined with each name
    standing for its value (the operands of an operator from left to right,
    no result outside 32 bits, no zero divisor), the unit writes exactly that
    value and exits with status 0, whether an operation was computed while
    generating or is computed by the unit.  Lines of input beyond the
    declared names are not read.  A program without declaration reads
    nothing.  Every value read is a 32-bit integer. *)
Theorem generated_unit_computes :
  (forall Vars e lines zs more z,
      (Sema.semantic (Some (WithDecl Vars (Some e)))).1 = false ->
      Forall2 (fun buf v => stoi buf = Converted v) lines zs ->
      length zs = length Vars ->
      denote (bind Vars zs) e = Some (Some z) ->
      exists Mo,
        CodeGen.compile (Some (WithDecl Vars (Some e))) = Some Mo
        /\ execute Mo (lines ++ more) = Exited 0 [Some z])
  /\ (forall e inputs z,
      (Sema.semantic (Some (ExprAST e))).1 = false ->
      denote (fun _ => None) e = Some (Some z) ->
      exists Mo,
        CodeGen.compile (Some (ExprAST e)) = Some Mo
        /\ execute Mo inputs = Exited 0 [Some z])
  /\ (forall buf v, stoi buf = Converted v -> - 2 ^ 31 <= v < 2 ^ 31).
Proof.
  assert (Hend : forall (env : string -> option Z) e St St' regs body inputs z,
             ToIRVisitor.visit_Expr e St = Some St' ->
             length regs = length (entry (ToIRVisitor.M St)) ->
             (forall x, x ∈ identifiers e -> bound env St regs x) ->
             entry (ToIRVisitor.M St') = entry (ToIRVisitor.M St) ++ body ->
             denote env e = Some (Some z) ->
             exec (body ++ [CallInst "calc_write" [ToIRVisitor.V St'];
                            ReturnInst (Some (ConstantInt (Some 0)))])
               regs inputs []
             = Exited 0 [Some z]).
  { intros env e St St' regs body inputs z Hv Hlen Hb HE Hval.
    destruct (visit_Expr_correct env e St St' regs body z Hv Hlen Hb HE Hval)
      as (vals & _ & Hop & ->).
    simpl. now rewrite Hop. }
  split; [|split].
  - intros Vars e lines zs more z Hok Hconv Hlen Hval.
    destruct (proj1 (proj1 accepted_trees Vars (Some e)) Hok)
      as (Hnd & e' & He' & _ & Hids).
    injection He' as <-.
    set (St00 := ToIRVisitor.createFunction "calc_read"
                   (mkFunctionType Int32Ty [PtrTy])
                   (ToIRVisitor.createFunction "main"
                      (mkFunctionType Int32Ty [Int32Ty; PtrTy]) ToIRVisitor.new)).
    set (St0 := (fold_left ToIRVisitor.readVar Vars (St00, 0%nat)).1).
    destruct (readVar_all Vars St00 0%nat Hnd (fun x _ => names_at_loop x))
      as (HF & HG & HE & HN).
    fold St0 in HF, HG, HE, HN. simpl in HF, HG, HE.
    unfold Sema.semantic in Hok. simpl in Hok.
    unfold DeclCheck.visit_WithDecl in Hok.
    destruct (visit_Expr_validated e _ St0 Hok) as (St1 & v & H1 & _ & Hv).
    { intros x Hx. rewrite declare_all_scope in Hx. apply HN. left.
      apply elem_of_union in Hx as [Hx|Hx];
        [now apply elem_of_list_to_set in Hx | now apply not_elem_of_empty in Hx]. }
    destruct (visit_Expr_appends e _ _ H1) as (HF1 & HG1 & body & HE1 & _).
    eexists. split.
    { unfold CodeGen.compile, ToIRVisitor.run. simpl.
      unfold ToIRVisitor.visit_WithDecl. simpl. fold St00 St0. rewrite H1.
      simpl. reflexivity. }
    unfold execute. simpl. rewrite HE1, HE, <- !app_assoc.
    rewrite (exec_reads Vars lines zs) by assumption. simpl.
    apply (Hend (bind Vars zs) e St0 St1).
    + exact H1.
    + now rewrite HE, !length_map.
    + intros x Hx. apply bound_after_reads; [exact Hnd | exact Hlen | reflexivity |].
      rewrite Forall_forall in Hids. now apply Hids.
    + now rewrite HE1, HE.
    + exact Hval.
  - intros e inputs z Hok Hval.
    destruct (proj1 (proj2 accepted_trees e) Hok) as (_ & Hids).
    unfold Sema.semantic in Hok. simpl in Hok.
    set (St0 := ToIRVisitor.createFunction "main"
                  (mkFunctionType Int32Ty [Int32Ty; PtrTy]) ToIRVisitor.new).
    destruct (visit_Expr_validated e DeclCheck.new St0 Hok)
      as (St1 & v & H1 & _ & Hv).
    { intros x Hx. now apply not_elem_of_empty in Hx. }
    destruct (visit_Expr_appends e _ _ H1) as (HF1 & HG1 & body & HE1 & _).
    eexists. split.
    { unfold CodeGen.compile, ToIRVisitor.run. simpl. fold St0. rewrite H1.
      simpl. reflexivity. }
    unfold execute. simpl. rewrite HE1. simpl. rewrite <- app_assoc.
    apply (Hend (fun _ => None) e St0 St1).
    + exact H1.
    + reflexivity.
    + intros x Hx. rewrite Hids in Hx. now apply elem_of_nil in Hx.
    + now rewrite HE1.
    + exact Hval.
  - intros buf v Hv. apply stoi_fits in Hv. unfold fitsInt32 in Hv.
    apply andb_true_iff in Hv as [H1 H2].
    apply Z.leb_le in H1. apply Z.ltb_lt in H2. lia.
Qed.

(** The program [with a, b: a*b - a/b + 2*3] on the input lines 6 and 2. *)
Lemma generated_unit_computes_witness :
  exists Mo,
    CodeGen.compile
      (Some (WithDecl ["a"; "b"]
               (binary Plus
                  (binary Minus (binary Mul (var "a") (var "b"))
                                (binary Div (var "a") (var "b")))
                  (binary Mul (Some (Factor Number "2"))
                              (Some (Factor Number "3")))))) = Some Mo
    /\ execute Mo ["6"; " 2 apples"] = Exited 0 [Some 15].
Proof.
  destruct (proj1 generated_unit_computes ["a"; "b"]
              (BinaryOp Plus
                 (binary Minus (binary Mul (var "a") (var "b"))
                               (binary Div (var "a") (var "b")))
                 (binary Mul (Some (Factor Number "2"))
                             (Some (Factor Number "3"))))
              ["6"; " 2 apples"] [6; 2] [] 15)
    as (Mo & HMo & Hex).
  - vm_compute. reflexivity.
  - repeat constructor.
  - reflexivity.
  - vm_compute. reflexivity.
  - exists Mo. split; [exact HMo | exact Hex].
Defined.

(** X11.  The unit generated for a checked declaration does not write
    anything when one of the lines it reads for the declared names is not
    converted: when the line holds no number, or is missing, [calc_read]
    ends the program with status 1; when the number is no [int],
    [std::stoi] throws [std::out_of_range], which nobody catches, and the
    program is terminated. *)
Theorem unit_stops_on_bad_input (Vars : list string) (e : Expr)
    (lines : list string) (zs : list Z) (bad : string) (rest : list string) :
  (Sema.semantic (Some (WithDecl Vars (Some e)))).1 = false ->
  Forall2 (fun buf v => stoi buf = Converted v) lines zs ->
  (length zs < length Vars)%nat ->
  exists Mo,
    CodeGen.compile (Some (WithDecl Vars (Some e))) = Some Mo
    /\ (stoi bad = InvalidArgument ->
        execute Mo (lines ++ bad :: rest) = Exited 1 [])
    /\ (stoi bad = OutOfRange ->
        execute Mo (lines ++ bad :: rest) = Terminated [])
    /\ execute Mo lines = Exited 1 [].
Proof.
  intros Hok Hconv Hlen.
  destruct (compile_validated _ Hok) as (Mo & HMo).
  exists Mo. split; [exact HMo|].
  destruct (proj1 (proj1 accepted_trees Vars (Some e)) Hok) as (Hnd & _).
  unfold CodeGen.compile, ToIRVisitor.run in HMo. simpl in HMo.
  unfold ToIRVisitor.visit_WithDecl in HMo. simpl in HMo.
  match type of HMo with
  | context [ToIRVisitor.visit_Expr e ?S] =>
      destruct (ToIRVisitor.visit_Expr e S) as [St1|] eqn:H1; [|discriminate];
      destruct (visit_Expr_appends e _ _ H1) as (_ & _ & body & HE1 & _)
  end.
  simpl in HMo. injection HMo as <-. unfold execute. simpl.
  rewrite HE1.
  match goal with
  | |- context [fold_left ToIRVisitor.readVar Vars (?S, 0%nat)] =>
      destruct (readVar_all Vars S 0%nat Hnd (fun x _ => names_at_loop x))
        as (_ & _ & -> & _)
  end.
  simpl. rewrite <- !app_assoc.
  split; [|split].
  - intros Hbad.
    rewrite (exec_reads_fail Vars lines zs) by assumption.
    simpl. now rewrite Hbad.
  - intros Hbad.
    rewrite (exec_reads_fail Vars lines zs) by assumption.
    simpl. now rewrite Hbad.
  - rewrite <- (app_nil_r lines) at 1.
    rewrite (exec_reads_fail Vars lines zs) by assumption.
    reflexivity.
Qed.

(** The program [with a, b: a+b] when the second line is no number, and when
    it is no [int]. *)
Lemma unit_stops_on_bad_input_witness :
  exists Mo,
    CodeGen.compile (Some (WithDecl ["a"; "b"] (binary Plus (var "a") (var "b"))))
    = Some Mo
    /\ execute Mo ["6"; "abc"] = Exited 1 []
    /\ execute Mo ["6"; "99999999999"] = Terminated [].
Proof.
  destruct (unit_stops_on_bad_input ["a"; "b"]
              (BinaryOp Plus (var "a") (var "b")) ["6"] [6] "abc" [])
    as (Mo & HMo & Hinv & _ & _).
  - vm_compute. reflexivity.
  - repeat constructor.
  - simpl. lia.
  - destruct (unit_stops_on_bad_input ["a"; "b"]
                (BinaryOp Plus (var "a") (var "b")) ["6"] [6] "99999999999" [])
      as (Mo' & HMo' & _ & Hout & _).
    + vm_compute. reflexivity.
    + repeat constructor.
    + simpl. lia.
    + rewrite HMo in HMo'. injection HMo' as <-.
      exists Mo. split; [exact HMo|]. split.
      * apply Hinv. vm_compute. reflexivity.
      * apply Hout. vm_compute. reflexivity.
Defined.

(** * Further properties of the driver *)

Section DriverFacts.

Lemma undeclared_filter (S : gset string) (l : list string) :
  forallb (fun x => bool_decide (x ∈ S)) l = true
  <-> filter (fun x => x ∉ S) l = [].
Proof.
  induction l as [|x l IH]; simpl; [tauto|].
  destruct (decide (x ∈ S)) as [H|H].
  - rewrite bool_decide_eq_true_2 by exact H.
    rewrite filter_cons_False by tauto. exact IH.
  - rewrite bool_decide_eq_false_2 by exact H.
    rewrite filter_cons_True by exact H. split; discriminate.
Qed.

(** The flag and the reports of a visit go together, but for a null child,
    which sets the flag silently. *)
Lemma visit_Expr_reports (E : Expr) (C : DeclCheck.t) :
  (DeclCheck.HasError C = true <-> DeclCheck.errs C <> []) ->
  (DeclCheck.HasError (DeclCheck.visit_Expr E C) = false ->
   DeclCheck.errs (DeclCheck.visit_Expr E C) = [])
  /\ (wellFormed E = true ->
      DeclCheck.HasError (DeclCheck.visit_Expr E C) = true ->
      DeclCheck.errs (DeclCheck.visit_Expr E C) <> []).
Proof.
  intros HC. rewrite visit_Expr_flag, visit_Expr_errs.
  pose proof (undeclared_filter (DeclCheck.Scope C) (identifiers E)) as Hf.
  destruct (forallb _ (identifiers E)).
  - rewrite (proj1 Hf eq_refl). simpl. rewrite app_nil_r, orb_false_r. split.
    + intros H. apply orb_false_iff in H as [H _].
      destruct (DeclCheck.errs C); [reflexivity|].
      rewrite (proj2 HC) in H; [discriminate | discriminate].
    + intros -> H. simpl in H. rewrite orb_false_r in H. now apply HC.
  - split; [rewrite orb_true_r; discriminate|].
    intros _ _ H. apply app_eq_nil in H as [_ H].
    apply map_eq_nil in H. apply Hf in H. discriminate.
Qed.

Lemma declared_reports (Vars : list string) :
  DeclCheck.HasError (fold_left DeclCheck.declare Vars DeclCheck.new) = true
  <-> DeclCheck.errs (fold_left DeclCheck.declare Vars DeclCheck.new) <> [].
Proof.
  assert (Hseen : forall x, x ∈ DeclCheck.Scope DeclCheck.new <-> x ∈ @nil string).
  { intros x. simpl. split; intros Hx;
      [now apply not_elem_of_empty in Hx | now apply elem_of_nil in Hx]. }
  rewrite (declare_all_flag Vars [] _ Hseen), (declare_all_errs Vars [] _ Hseen).
  simpl. destruct (repeated [] Vars) as [|x l]; simpl.
  - split; [discriminate | intros H; now elim H].
  - split; [discriminate | reflexivity].
Qed.

Lemma semantic_clean_silent (Tree : AST) :
  (Sema.semantic (Some Tree)).1 = false -> (Sema.semantic (Some Tree)).2 = [].
Proof.
  unfold Sema.semantic. simpl. destruct Tree as [e | Vars [e|]]; simpl.
  - apply visit_Expr_reports. simpl. split; [discriminate | intros H; now elim H].
  - unfold DeclCheck.visit_WithDecl. apply visit_Expr_reports, declared_reports.
  - discriminate.
Qed.

Lemma semantic_failure_reported (Tree : AST) :
  wellFormedAST Tree = true ->
  (Sema.semantic (Some Tree)).1 = true -> (Sema.semantic (Some Tree)).2 <> [].
Proof.
  unfold Sema.semantic. simpl. destruct Tree as [e | Vars [e|]]; simpl.
  - apply visit_Expr_reports. simpl. split; [discriminate | intros H; now elim H].
  - intros Hwf. apply andb_true_iff in Hwf as [_ Hwf].
    unfold DeclCheck.visit_WithDecl.
    now apply visit_Expr_reports; [apply declared_reports|].
  - discriminate.
Qed.

(** Every line the semantic check writes is one of its two reports. *)
Lemma semantic_lines (Tree : AST) :
  Forall semanticLine (Sema.semantic (Some Tree)).2.
Proof.
  assert (Hmap : forall ET (l : list string),
             Forall semanticLine (map (DeclCheck.message ET) l)).
  { intros ET l. apply Forall_forall. intros m Hm.
    apply list_elem_of_fmap in Hm as (x & -> & _). now exists ET, x. }
  assert (Hseen : forall x, x ∈ DeclCheck.Scope DeclCheck.new <-> x ∈ @nil string).
  { intros x. simpl. split; intros Hx;
      [now apply not_elem_of_empty in Hx | now apply elem_of_nil in Hx]. }
  unfold Sema.semantic. simpl. destruct Tree as [e | Vars [e|]]; simpl.
  - rewrite visit_Expr_errs. simpl. apply Hmap.
  - unfold DeclCheck.visit_WithDecl.
    rewrite visit_Expr_errs, (declare_all_errs Vars [] _ Hseen). simpl.
    apply Forall_app. split; apply Hmap.
  - unfold DeclCheck.visit_WithDecl. simpl.
    rewrite (declare_all_errs Vars [] _ Hseen). simpl. apply Hmap.
Qed.

End DriverFacts.

(** X12.  The driver exits with status 0 exactly when it has written nothing
    to the error stream, and then it has printed a module.  When the parse
    failed, the error stream holds what the parser wrote, which is at least
    one line and only [Unexpected: ...] lines, and then the line
    [Syntax errors occured].  When the parse was clean and the semantic check
    failed, the error stream holds the reports of the semantic check, which
    are at least one line and only [Variable ... declared] lines, and then
    the line [Semantic errors occured].  When both were clean, nothing is
    written. *)
Theorem driver_diagnostics (Input : string) :
  exists Tree P r,
    Parser.parse (Parser.new (mkLexer Input)) = Some (Tree, P)
    /\ main Input = Some r
    /\ (status r = 0 <-> diagnostics r = [])
    /\ (status r = 0 -> output r <> None)
    /\ (Tree = None \/ Parser.hasError P = true ->
        diagnostics r = Parser.errs P ++ ["Syntax errors occured" +:+ nl]
        /\ Parser.errs P <> []
        /\ Forall unexpectedLine (Parser.errs P))
    /\ (Tree <> None -> Parser.hasError P = false ->
        (Sema.semantic Tree).1 = true ->
        diagnostics r
        = (Sema.semantic Tree).2 ++ ["Semantic errors occured" +:+ nl]
        /\ (Sema.semantic Tree).2 <> []
        /\ Forall semanticLine (Sema.semantic Tree).2)
    /\ (Tree <> None -> Parser.hasError P = false ->
        (Sema.semantic Tree).1 = false ->
        diagnostics r = [] /\ status r = 0).
Proof.
  destruct (parse_fuel_total (Parser.enough (Parser.new (mkLexer Input)))
              (Parser.new (mkLexer Input))) as (Tree & P & Hparse & _);
    [lia|].
  pose proof (parse_fuel_keeps _ flag_iff_errs_advance flag_iff_errs_error
                _ _ _ _ Hparse) as Hflag.
  destruct (parse_fuel_keeps _ (errs_grow_advance (Parser.new (mkLexer Input)))
              (errs_grow_error (Parser.new (mkLexer Input))) _ _ _ _ Hparse)
    as (lines & Hlines & Hall).
  { exists []. split; [now rewrite app_nil_r | constructor]. }
  assert (Hnew : Parser.errs (Parser.new (mkLexer Input)) = []).
  { unfold Parser.new. now rewrite advance_errs. }
  assert (Hnewflag : Parser.HasError (Parser.new (mkLexer Input)) = false).
  { unfold Parser.new. now rewrite advance_HasError. }
  rewrite Hnew in Hlines. simpl in Hlines.
  assert (Hinit : Parser.HasError (Parser.new (mkLexer Input)) = true
                  <-> Parser.errs (Parser.new (mkLexer Input)) <> []).
  { rewrite Hnew, Hnewflag. split; [discriminate | intros H; now elim H]. }
  specialize (Hflag Hinit).
  pose proof (parse_fuel_clean _ _ _ _ Hparse) as Hclean.
  fold (Parser.parse (Parser.new (mkLexer Input))) in Hparse.
  exists Tree, P. unfold main. rewrite Hparse. simpl.
  destruct (Parser.hasError P) eqn:HP.
  { rewrite orb_true_r. eexists. split; [reflexivity|].
    split; [reflexivity|]. simpl. split; [|split; [|split; [|split]]].
    - split; [discriminate|]. intros H. now apply app_eq_nil in H as [_ H].
    - discriminate.
    - intros _. split; [reflexivity|]. split; [now apply Hflag|].
      now rewrite Hlines.
    - discriminate.
    - discriminate. }
  destruct (Hclean eq_refl) as (T & -> & Hwf). simpl.
  assert (HerrsP : Parser.errs P = []).
  { destruct (Parser.errs P) as [|m l] eqn:He; [reflexivity|]. exfalso.
    unfold Parser.hasError in HP.
    assert (Parser.HasError P = true) by (apply Hflag; rewrite ?He; discriminate).
    congruence. }
  pose proof (semantic_clean_silent T) as Hsilent.
  pose proof (semantic_failure_reported T Hwf) as Hreported.
  pose proof (semantic_lines T) as Hsema.
  pose proof (compile_validated T) as Hcompile.
  unfold Sema.semantic in *. simpl in *.
  destruct (DeclCheck.hasError (DeclCheck.accept T DeclCheck.new)).
  - eexists. split; [reflexivity|]. split; [reflexivity|]. simpl.
    split; [|split; [|split; [|split]]].
    + split; [discriminate|]. rewrite HerrsP. simpl. intros H.
      now apply app_eq_nil in H as [_ H].
    + discriminate.
    + intros [H|H]; discriminate.
    + intros _ _ _. rewrite HerrsP. simpl.
      split; [reflexivity|]. split; [now apply Hreported | exact Hsema].
    + discriminate.
  - destruct (Hcompile eq_refl) as (Mo & ->). simpl.
    eexists. split; [reflexivity|]. split; [reflexivity|]. simpl.
    split; [|split; [|split; [|split]]].
    + rewrite HerrsP, (Hsilent eq_refl). now split.
    + discriminate.
    + intros [H|H]; discriminate.
    + discriminate.
    + intros _ _ _. rewrite HerrsP, (Hsilent eq_refl). now split.
Qed.

(** * Programs that are one literal; leading white space *)

Section LiteralProgram.

Lemma append_nil_r (s : string) : s +:+ EmptyString = s.
Proof. induction s as [|c s IH]; [reflexivity|]. now rewrite append_cons, IH. Qed.

Lemma scanWhile_all (pred : ascii -> bool) (s : string) :
  allChars pred s = true -> scanWhile pred s = EmptyString.
Proof.
  induction s as [|c s IH]; simpl; [reflexivity|].
  intros H. apply andb_true_iff in H as [-> H]. now apply IH.
Qed.

Lemma digit_class (c : ascii) :
  charinfo.isDigit c = true ->
  Ascii.eqb c zero = false /\ charinfo.isWhitespace c = false
  /\ charinfo.isLetter c = false.
Proof.
  destruct c as [[] [] [] [] [] [] [] []]; vm_compute; intros H;
    try discriminate; repeat split.
Qed.

(** The lexer on a text that is a run of digits: one [number] token with the
    whole text. *)
Lemma next_number (token : Token) (s : string) :
  allChars charinfo.isDigit s = true -> s <> EmptyString ->
  next token (mkLexer s) = (mkToken number s, mkLexer EmptyString).
Proof.
  intros Hall Hne. destruct s as [|c s]; [contradiction|].
  simpl in Hall. apply andb_true_iff in Hall as [Hc Hs].
  destruct (digit_class c Hc) as (Hz & Hw & Hl).
  unfold next. simpl. rewrite Hz, Hw. simpl. rewrite Hz, Hl, Hc.
  unfold formToken. simpl. rewrite (scanWhile_all _ _ Hs). simpl.
  pose proof (substring_prefix (String c s) EmptyString) as Hp.
  rewrite append_nil_r in Hp. unfold StringRef.
  change (S (String.length s)) with (String.length (String c s)).
  now rewrite Hp.
Qed.

Lemma parse_literal (s : string) :
  allChars charinfo.isDigit s = true -> s <> EmptyString ->
  Parser.parse (Parser.new (mkLexer s))
  = Some (Some (ExprAST (Factor Number s)),
          Parser.mk (mkLexer EmptyString) (mkToken eoi s) false []).
Proof.
  intros Hall Hne.
  assert (Hnew : Parser.new (mkLexer s)
                 = Parser.mk (mkLexer EmptyString) (mkToken number s) false []).
  { unfold Parser.new, Parser.advance. simpl. now rewrite next_number. }
  rewrite Hnew. rewrite <- (parse_fuel_enough 10); [reflexivity|].
  unfold Parser.enough, Parser.remaining. simpl. lia.
Qed.

End LiteralProgram.

(** X13.  A program that is one literal, a run of decimal digits, is accepted
    whatever its length: the driver writes no diagnostic, exits with status 0
    and prints a unit that calls [calc_write] on one constant and returns 0.
    Run, the unit writes the decimal value of the literal when that is below
    2^31; for a larger literal it writes an unspecified value (the constant
    was built from an uninitialised variable). *)
Theorem literal_program (s : string) :
  allChars charinfo.isDigit s = true -> s <> EmptyString ->
  exists v,
    digitsValue s 0 = Some v /\ 0 <= v
    /\ main s
       = Some (mkRun 0 []
                 (Some (mkModule [mainFunction; writeFunction] []
                          [CallInst "calc_write"
                             [Some (ConstantInt (if v <? 2 ^ 31 then Some v else None))];
                           ReturnInst (Some (ConstantInt (Some 0)))])))
    /\ (forall inputs,
          evaluate s inputs
          = Some (Exited 0 [if v <? 2 ^ 31 then Some v else None])).
Proof.
  intros Hall Hne.
  destruct (digitsValue_digits s Hall 0 (Z.le_refl 0)) as (v & Hv & Hpos).
  exists v. split; [exact Hv|]. split; [exact Hpos|].
  assert (Hmain : main s
       = Some (mkRun 0 []
                 (Some (mkModule [mainFunction; writeFunction] []
                          [CallInst "calc_write"
                             [Some (ConstantInt (if v <? 2 ^ 31 then Some v else None))];
                           ReturnInst (Some (ConstantInt (Some 0)))])))).
  { unfold main. rewrite (parse_literal s Hall Hne). simpl.
    unfold CodeGen.compile, ToIRVisitor.run. simpl.
    now rewrite (getAsInteger_digits s v Hall Hne Hv). }
  split; [exact Hmain|].
  intros inputs. unfold evaluate. rewrite Hmain. simpl.
  unfold execute. simpl. now destruct (v <? 2 ^ 31).
Qed.

(** The programs [0042] and [99999999999]. *)
Lemma literal_program_witness :
  evaluate "0042" [] = Some (Exited 0 [Some 42])
  /\ evaluate "99999999999" [] = Some (Exited 0 [None]).
Proof.
  split.
  - destruct (literal_program "0042" eq_refl) as (v & Hv & _ & _ & ->);
      [discriminate|].
    vm_compute in Hv. injection Hv as <-. reflexivity.
  - destruct (literal_program "99999999999" eq_refl) as (v & Hv & _ & _ & ->);
      [discriminate|].
    vm_compute in Hv. injection Hv as <-. reflexivity.
Defined.

Section LeadingSpace.

Lemma skipWhitespace_leading (ws p : string) :
  allChars charinfo.isWhitespace ws = true ->
  skipWhitespace (ws +:+ p) = skipWhitespace p.
Proof.
  induction ws as [|c ws IH]; [reflexivity|].
  intros H. simpl in H. apply andb_true_iff in H as [Hc Hws].
  rewrite append_cons. simpl. rewrite Hc.
  assert (Ascii.eqb c zero = false) as ->.
  { destruct (Ascii.eqb_spec c zero) as [->|]; [discriminate | reflexivity]. }
  simpl. now apply IH.
Qed.

End LeadingSpace.

(** X14.  White space in front of the source text is ignored: the lexer
    forms the same first token and reaches the same position, so the parser
    starts in the same state and the driver gives the same result. *)
Theorem leading_white_space_ignored (ws s : string) :
  allChars charinfo.isWhitespace ws = true ->
  (forall token, next token (mkLexer (ws +:+ s)) = next token (mkLexer s))
  /\ Parser.new (mkLexer (ws +:+ s)) = Parser.new (mkLexer s)
  /\ main (ws +:+ s) = main s.
Proof.
  intros Hws.
  assert (Hnext : forall token,
             next token (mkLexer (ws +:+ s)) = next token (mkLexer s)).
  { intros token. unfold next. simpl. now rewrite skipWhitespace_leading. }
  assert (Hnew : Parser.new (mkLexer (ws +:+ s)) = Parser.new (mkLexer s)).
  { unfold Parser.new, Parser.advance. simpl. now rewrite Hnext. }
  split; [exact Hnext|]. split; [exact Hnew|].
  unfold main. now rewrite Hnew.
Qed.

(** Two blanks and a line feed before [1+2]. *)
Lemma leading_white_space_ignored_witness :
  main (String " " (String " " (String "010" "1+2"))) = main "1+2".
Proof.
  apply (leading_white_space_ignored (String " " (String " " (String "010" ""))) "1+2").
  reflexivity.
Defined.
